(** * SharedPtr / WeakPtr: a shallow embedding of [shared_ptr.h]

    The header defines a control block [Counter] holding two [size_t]
    counters and two handle classes, [SharedPtr<T>] and [WeakPtr<T>], each
    made of a raw object pointer [ptr_] and a control-block pointer
    [counter_].  Every member function is embedded below as a computation in
    a small state-and-error monad over

    - the free store of control blocks (address to [Counter]),
    - the handle objects that are currently alive, keyed by the name of the
      variable that holds them (the name plays the role of [this]),
    - a log of the [new] and [delete] expressions that were executed.

    Managed objects are opaque: [delete ptr_] is recorded in the log and the
    destructor of [T] is assumed not to touch any handle; [operator*] and
    [operator->] only read [ptr_] and are covered by [Get].  Addresses
    returned by [new Counter()] are supplied by the caller of the model, so
    that every behaviour of the allocator (including reuse of a freed
    address) is covered. *)

From Stdlib Require Import ZArith Lia.
From stdpp Require Import gmap strings list fin_maps.

Open Scope Z_scope.

(** ** Machine integers: [size_t] *)

(** Width of [size_t] on the LP64 targets the header is built for. *)
Definition SIZE_WIDTH : Z := 64.
Definition SIZE_MODULUS : Z := 2 ^ SIZE_WIDTH.
Definition SIZE_MAX : Z := SIZE_MODULUS - 1.

(** Unsigned wrap-around of [++] and [--] on a [size_t]. *)
Definition wrap (z : Z) : Z := z mod SIZE_MODULUS.

(** ** Data *)

(** [struct Counter { size_t strong_count; size_t weak_count; }] *)
Record Counter := mkCounter { strong_count : Z; weak_count : Z }.

(** [Counter() : strong_count(1), weak_count(0) {}] *)
Definition Counter_ctor : Counter := mkCounter 1 0.

(** Raw pointers are addresses; [nullptr] is address 0. *)
Definition nullptr : N := 0%N.

(** The private fields shared by [SharedPtr<T>] and [WeakPtr<T>]:
    [T* ptr_; Counter* counter_;] *)
Record handle := mkHandle { ptr_ : N; counter_ : N }.

Definition null_handle : handle := mkHandle nullptr nullptr.

#[global] Instance Counter_eq_dec : EqDecision Counter.
Proof. solve_decision. Defined.
#[global] Instance handle_eq_dec : EqDecision handle.
Proof. solve_decision. Defined.

(** What the program did to the free store. *)
Inductive event :=
| EvNewCounter (c : N)            (* [new Counter()] returned [c] *)
| EvDeleteObject (p : N) (c : N)  (* [delete ptr_] by a handle whose [counter_] is [c] *)
| EvDeleteCounter (c : N).        (* [delete counter_] *)

#[global] Instance event_eq_dec : EqDecision event.
Proof. solve_decision. Defined.

Record state := mkState {
  heap : gmap N Counter;        (* allocated control blocks *)
  shared : gmap string handle;  (* live [SharedPtr] objects *)
  weak : gmap string handle;    (* live [WeakPtr] objects *)
  trace : list event            (* most recent event first *)
}.

Definition init : state := mkState ∅ ∅ ∅ [].

Definition with_heap (f : gmap N Counter → gmap N Counter) (σ : state) : state :=
  mkState (f (heap σ)) (shared σ) (weak σ) (trace σ).
Definition with_shared (f : gmap string handle → gmap string handle) (σ : state) : state :=
  mkState (heap σ) (f (shared σ)) (weak σ) (trace σ).
Definition with_weak (f : gmap string handle → gmap string handle) (σ : state) : state :=
  mkState (heap σ) (shared σ) (f (weak σ)) (trace σ).
Definition with_event (e : event) (σ : state) : state :=
  mkState (heap σ) (shared σ) (weak σ) (e :: trace σ).

(** ** The monad *)

Inductive result (A : Type) :=
| Ret (a : A) (σ : state)  (* normal completion *)
| Throw (σ : state)        (* [throw BadWeakPtr()], with the state at the throw *)
| Undefined                (* use of a deallocated control block *)
| Stuck.                   (* not an execution: unknown operand, name or address taken *)
Arguments Ret {A} a σ.
Arguments Throw {A} σ.
Arguments Undefined {A}.
Arguments Stuck {A}.

Definition M (A : Type) : Type := state → result A.

#[global] Instance M_ret : MRet M := λ A a σ, Ret a σ.
#[global] Instance M_bind : MBind M := λ A B f m σ,
  match m σ with
  | Ret a σ' => f a σ'
  | Throw σ' => Throw σ'
  | Undefined => Undefined
  | Stuck => Stuck
  end.

Definition throw_BadWeakPtr {A} : M A := λ σ, Throw σ.
Definition skip : M unit := mret ().
Definition modify (f : state → state) : M unit := λ σ, Ret () (f σ).

(** *** Handle objects *)

Definition this_shared (x : string) : M handle := λ σ,
  match shared σ !! x with Some h => Ret h σ | None => Stuck end.
Definition this_weak (x : string) : M handle := λ σ,
  match weak σ !! x with Some h => Ret h σ | None => Stuck end.

(** Assignment to the two fields of a live handle. *)
Definition set_shared (x : string) (h : handle) : M unit := λ σ,
  match shared σ !! x with
  | Some _ => Ret () (with_shared (insert x h) σ)
  | None => Stuck
  end.
Definition set_weak (x : string) (h : handle) : M unit := λ σ,
  match weak σ !! x with
  | Some _ => Ret () (with_weak (insert x h) σ)
  | None => Stuck
  end.

(** Storage for an object under construction must not be in use. *)
Definition unused_shared (x : string) : M unit := λ σ,
  match shared σ !! x with Some _ => Stuck | None => Ret () σ end.
Definition unused_weak (x : string) : M unit := λ σ,
  match weak σ !! x with Some _ => Stuck | None => Ret () σ end.

(** Member initialisation by a constructor: the object comes to life. *)
Definition init_shared (x : string) (h : handle) : M unit :=
  unused_shared x;; modify (with_shared (insert x h)).
Definition init_weak (x : string) (h : handle) : M unit :=
  unused_weak x;; modify (with_weak (insert x h)).

(** End of lifetime, after the destructor body has run. *)
Definition end_shared (x : string) : M unit :=
  _ ← this_shared x; modify (with_shared (delete x)).
Definition end_weak (x : string) : M unit :=
  _ ← this_weak x; modify (with_weak (delete x)).

(** *** Control blocks *)

Definition load (c : N) : M Counter := λ σ,
  match heap σ !! c with Some cb => Ret cb σ | None => Undefined end.
Definition store (c : N) (cb : Counter) : M unit := λ σ,
  match heap σ !! c with
  | Some _ => Ret () (with_heap (insert c cb) σ)
  | None => Undefined
  end.

(** [++(c->strong_count)], yielding the new value. *)
Definition incr_strong (c : N) : M Z :=
  cb ← load c;
  let n := wrap (strong_count cb + 1) in
  store c (mkCounter n (weak_count cb));; mret n.
(** [--(c->strong_count)] *)
Definition decr_strong (c : N) : M Z :=
  cb ← load c;
  let n := wrap (strong_count cb - 1) in
  store c (mkCounter n (weak_count cb));; mret n.
(** [++(c->weak_count)] *)
Definition incr_weak (c : N) : M Z :=
  cb ← load c;
  let n := wrap (weak_count cb + 1) in
  store c (mkCounter (strong_count cb) n);; mret n.
(** [--(c->weak_count)] *)
Definition decr_weak (c : N) : M Z :=
  cb ← load c;
  let n := wrap (weak_count cb - 1) in
  store c (mkCounter (strong_count cb) n);; mret n.

(** [new Counter()], the allocator answering with address [c]: a non-null
    address that is not currently allocated. *)
Definition new_Counter (c : N) : M N := λ σ,
  if bool_decide (c = nullptr) then Stuck
  else match heap σ !! c with
       | Some _ => Stuck
       | None => Ret c (with_event (EvNewCounter c) (with_heap (insert c Counter_ctor) σ))
       end.

(** [delete counter_] *)
Definition delete_Counter (c : N) : M unit := λ σ,
  match heap σ !! c with
  | Some _ => Ret () (with_event (EvDeleteCounter c) (with_heap (delete c) σ))
  | None => Undefined
  end.

(** [delete ptr_]; deleting a null pointer does nothing.  Only the deletion
    is recorded: [~T()] is not run, so the embedding stands for managed types
    whose destructor touches no handle and no control block. *)
Definition delete_object (p c : N) : M unit := λ σ,
  if bool_decide (p = nullptr) then Ret () σ
  else Ret () (with_event (EvDeleteObject p c) σ).

(** ** [WeakPtr] observers (used by [SharedPtr]) *)

(** [size_t UseCount() const { return counter_ ? counter_->strong_count : 0; }] *)
Definition WeakPtr_UseCount (this : string) : M Z :=
  h ← this_weak this;
  if bool_decide (counter_ h ≠ nullptr)
  then cb ← load (counter_ h); mret (strong_count cb)
  else mret 0.

(** [bool Expired() const { return UseCount() == 0; }] *)
Definition WeakPtr_Expired (this : string) : M bool :=
  n ← WeakPtr_UseCount this; mret (bool_decide (n = 0)).

(** ** [SharedPtr] *)

(** [void Release()] *)
Definition SharedPtr_Release (this : string) : M unit :=
  h ← this_shared this;
  if bool_decide (counter_ h ≠ nullptr) then
    n ← decr_strong (counter_ h);
    if bool_decide (n = 0) then
      delete_object (ptr_ h) (counter_ h);;
      cb ← load (counter_ h);
      if bool_decide (weak_count cb = 0) then delete_Counter (counter_ h) else skip
    else skip
  else skip.

(** [SharedPtr() : ptr_(nullptr), counter_(nullptr) {}] *)
Definition SharedPtr_ctor (this : string) : M unit :=
  init_shared this (mkHandle nullptr nullptr).

(** [explicit SharedPtr(T* ptr) : ptr_(ptr), counter_(ptr ? new Counter() : nullptr) {}]
    where [c] is the address [new] answers with, if it is called. *)
Definition SharedPtr_ctor_ptr (this : string) (ptr c : N) : M unit :=
  unused_shared this;;
  counter ← (if bool_decide (ptr ≠ nullptr) then new_Counter c else mret nullptr);
  init_shared this (mkHandle ptr counter).

(** [SharedPtr(const SharedPtr& other)] *)
Definition SharedPtr_ctor_copy (this other : string) : M unit :=
  o ← this_shared other;
  init_shared this (mkHandle (ptr_ o) (counter_ o));;
  if bool_decide (counter_ o ≠ nullptr) then _ ← incr_strong (counter_ o); skip else skip.

(** [SharedPtr(SharedPtr&& other) noexcept] *)
Definition SharedPtr_ctor_move (this other : string) : M unit :=
  o ← this_shared other;
  init_shared this (mkHandle (ptr_ o) (counter_ o));;
  set_shared other (mkHandle nullptr nullptr).

(** [SharedPtr(const WeakPtr<T>& weak_ptr)]: when the check throws, no object
    has been constructed. *)
Definition SharedPtr_ctor_weak (this weak_ptr : string) : M unit :=
  unused_shared this;;
  expired ← WeakPtr_Expired weak_ptr;
  if expired : bool then throw_BadWeakPtr
  else
    w ← this_weak weak_ptr;
    init_shared this (mkHandle (ptr_ w) (counter_ w));;
    _ ← incr_strong (counter_ w); skip.

(** [SharedPtr& operator=(const WeakPtr<T>& weak_ptr)] *)
Definition SharedPtr_assign_weak (this weak_ptr : string) : M unit :=
  _ ← this_shared this;
  expired ← WeakPtr_Expired weak_ptr;
  if expired : bool then throw_BadWeakPtr
  else
    SharedPtr_Release this;;
    w ← this_weak weak_ptr;
    set_shared this (mkHandle (ptr_ w) (counter_ w));;
    _ ← incr_strong (counter_ w); skip.

(** [SharedPtr& operator=(const SharedPtr& other)]; [this != &other]
    compares the two objects' identities. *)
Definition SharedPtr_assign_copy (this other : string) : M unit :=
  _ ← this_shared this;
  _ ← this_shared other;
  if bool_decide (this ≠ other) then
    SharedPtr_Release this;;
    o ← this_shared other;
    set_shared this (mkHandle (ptr_ o) (counter_ o));;
    if bool_decide (counter_ o ≠ nullptr) then _ ← incr_strong (counter_ o); skip else skip
  else skip.

(** [SharedPtr& operator=(SharedPtr&& other) noexcept] *)
Definition SharedPtr_assign_move (this other : string) : M unit :=
  _ ← this_shared this;
  _ ← this_shared other;
  if bool_decide (this ≠ other) then
    SharedPtr_Release this;;
    o ← this_shared other;
    set_shared this (mkHandle (ptr_ o) (counter_ o));;
    set_shared other (mkHandle nullptr nullptr)
  else skip.

(** [~SharedPtr() { Release(); }] *)
Definition SharedPtr_dtor (this : string) : M unit :=
  SharedPtr_Release this;; end_shared this.

(** [void Reset(T* ptr = nullptr)], with [c] the address [new] answers with,
    if it is called. *)
Definition SharedPtr_Reset (this : string) (ptr c : N) : M unit :=
  h ← this_shared this;
  if bool_decide (ptr ≠ ptr_ h) then
    SharedPtr_Release this;;
    if bool_decide (ptr ≠ nullptr) then
      counter ← new_Counter c;
      set_shared this (mkHandle ptr counter)
    else
      set_shared this (mkHandle nullptr nullptr)
  else skip.

(** [void Swap(SharedPtr& other) noexcept]: two [std::swap]s, field by field. *)
Definition SharedPtr_Swap (this other : string) : M unit :=
  a ← this_shared this;
  b ← this_shared other;
  set_shared this (mkHandle (ptr_ b) (counter_ a));;
  set_shared other (mkHandle (ptr_ a) (counter_ b));;
  a ← this_shared this;
  b ← this_shared other;
  set_shared this (mkHandle (ptr_ a) (counter_ b));;
  set_shared other (mkHandle (ptr_ b) (counter_ a)).

(** [T* Get() const { return ptr_; }] *)
Definition SharedPtr_Get (this : string) : M N :=
  h ← this_shared this; mret (ptr_ h).

(** [size_t UseCount() const { return counter_ ? counter_->strong_count : 0; }] *)
Definition SharedPtr_UseCount (this : string) : M Z :=
  h ← this_shared this;
  if bool_decide (counter_ h ≠ nullptr)
  then cb ← load (counter_ h); mret (strong_count cb)
  else mret 0.

(** [explicit operator bool() const { return ptr_ != nullptr; }] *)
Definition SharedPtr_bool (this : string) : M bool :=
  h ← this_shared this; mret (bool_decide (ptr_ h ≠ nullptr)).

(** ** [WeakPtr] *)

(** [void Release()] *)
Definition WeakPtr_Release (this : string) : M unit :=
  h ← this_weak this;
  if bool_decide (counter_ h ≠ nullptr) then
    n ← decr_weak (counter_ h);
    if bool_decide (n = 0) then
      cb ← load (counter_ h);
      if bool_decide (strong_count cb = 0) then delete_Counter (counter_ h) else skip
    else skip
  else skip.

(** [WeakPtr() : ptr_(nullptr), counter_(nullptr) {}] *)
Definition WeakPtr_ctor (this : string) : M unit :=
  init_weak this (mkHandle nullptr nullptr).

(** [WeakPtr(const WeakPtr& other)] *)
Definition WeakPtr_ctor_copy (this other : string) : M unit :=
  o ← this_weak other;
  init_weak this (mkHandle (ptr_ o) (counter_ o));;
  if bool_decide (counter_ o ≠ nullptr) then _ ← incr_weak (counter_ o); skip else skip.

(** [WeakPtr(WeakPtr&& other) noexcept] *)
Definition WeakPtr_ctor_move (this other : string) : M unit :=
  o ← this_weak other;
  init_weak this (mkHandle (ptr_ o) (counter_ o));;
  set_weak other (mkHandle nullptr nullptr).

(** [WeakPtr(const SharedPtr<T>& shared_ptr)] *)
Definition WeakPtr_ctor_shared (this shared_ptr : string) : M unit :=
  s ← this_shared shared_ptr;
  init_weak this (mkHandle (ptr_ s) (counter_ s));;
  if bool_decide (counter_ s ≠ nullptr) then _ ← incr_weak (counter_ s); skip else skip.

(** [WeakPtr& operator=(const SharedPtr<T>& shared_ptr)] *)
Definition WeakPtr_assign_shared (this shared_ptr : string) : M unit :=
  _ ← this_shared shared_ptr;
  WeakPtr_Release this;;
  s ← this_shared shared_ptr;
  set_weak this (mkHandle (ptr_ s) (counter_ s));;
  if bool_decide (counter_ s ≠ nullptr) then _ ← incr_weak (counter_ s); skip else skip.

(** [WeakPtr& operator=(const WeakPtr& other)] *)
Definition WeakPtr_assign_copy (this other : string) : M unit :=
  _ ← this_weak this;
  _ ← this_weak other;
  if bool_decide (this ≠ other) then
    WeakPtr_Release this;;
    o ← this_weak other;
    set_weak this (mkHandle (ptr_ o) (counter_ o));;
    if bool_decide (counter_ o ≠ nullptr) then _ ← incr_weak (counter_ o); skip else skip
  else skip.

(** [WeakPtr& operator=(WeakPtr&& other) noexcept] *)
Definition WeakPtr_assign_move (this other : string) : M unit :=
  _ ← this_weak this;
  _ ← this_weak other;
  if bool_decide (this ≠ other) then
    WeakPtr_Release this;;
    o ← this_weak other;
    set_weak this (mkHandle (ptr_ o) (counter_ o));;
    set_weak other (mkHandle nullptr nullptr)
  else skip.

(** [~WeakPtr() { Release(); }] *)
Definition WeakPtr_dtor (this : string) : M unit :=
  WeakPtr_Release this;; end_weak this.

(** [void Reset() { Release(); ptr_ = nullptr; counter_ = nullptr; }] *)
Definition WeakPtr_Reset (this : string) : M unit :=
  WeakPtr_Release this;;
  set_weak this (mkHandle nullptr nullptr).

(** [void Swap(WeakPtr& other) noexcept] *)
Definition WeakPtr_Swap (this other : string) : M unit :=
  a ← this_weak this;
  b ← this_weak other;
  set_weak this (mkHandle (ptr_ b) (counter_ a));;
  set_weak other (mkHandle (ptr_ a) (counter_ b));;
  a ← this_weak this;
  b ← this_weak other;
  set_weak this (mkHandle (ptr_ a) (counter_ b));;
  set_weak other (mkHandle (ptr_ b) (counter_ a)).

(** [SharedPtr<T> Lock() const]; [ret] names the returned object, which the
    [return] statement constructs in place. *)
Definition WeakPtr_Lock (this ret : string) : M unit :=
  expired ← WeakPtr_Expired this;
  if expired : bool then SharedPtr_ctor ret
  else SharedPtr_ctor_weak ret this.

(** [MakeShared<T>(args...)]: [new T(args...)] answers with [p], and the
    result is [SharedPtr<T>(p)]. *)
Definition MakeShared (ret : string) (p c : N) : M unit :=
  if bool_decide (p = nullptr) then (λ _, Stuck) else SharedPtr_ctor_ptr ret p c.

(** ** Programs: sequences of member calls *)

Inductive op :=
| SCtor (x : string)
| SCtorPtr (x : string) (p c : N)
| SCopy (x y : string)
| SMove (x y : string)
| SFromWeak (x w : string)
| SAssignWeak (x w : string)
| SAssign (x y : string)
| SAssignMove (x y : string)
| SDtor (x : string)
| SReset (x : string) (p c : N)
| SSwap (x y : string)
| WCtor (w : string)
| WCopy (w v : string)
| WMove (w v : string)
| WFromShared (w x : string)
| WAssignShared (w x : string)
| WAssign (w v : string)
| WAssignMove (w v : string)
| WDtor (w : string)
| WReset (w : string)
| WSwap (w v : string)
| WLock (w x : string)
| SMake (x : string) (p c : N).

Definition exec (o : op) : M unit :=
  match o with
  | SCtor x => SharedPtr_ctor x
  | SCtorPtr x p c => SharedPtr_ctor_ptr x p c
  | SCopy x y => SharedPtr_ctor_copy x y
  | SMove x y => SharedPtr_ctor_move x y
  | SFromWeak x w => SharedPtr_ctor_weak x w
  | SAssignWeak x w => SharedPtr_assign_weak x w
  | SAssign x y => SharedPtr_assign_copy x y
  | SAssignMove x y => SharedPtr_assign_move x y
  | SDtor x => SharedPtr_dtor x
  | SReset x p c => SharedPtr_Reset x p c
  | SSwap x y => SharedPtr_Swap x y
  | WCtor w => WeakPtr_ctor w
  | WCopy w v => WeakPtr_ctor_copy w v
  | WMove w v => WeakPtr_ctor_move w v
  | WFromShared w x => WeakPtr_ctor_shared w x
  | WAssignShared w x => WeakPtr_assign_shared w x
  | WAssign w v => WeakPtr_assign_copy w v
  | WAssignMove w v => WeakPtr_assign_move w v
  | WDtor w => WeakPtr_dtor w
  | WReset w => WeakPtr_Reset w
  | WSwap w v => WeakPtr_Swap w v
  | WLock w x => WeakPtr_Lock w x
  | SMake x p c => MakeShared x p c
  end.

(** Run a program; a caught [BadWeakPtr] leaves the state of the throw and
    the program goes on. *)
Fixpoint run (prog : list op) (σ : state) : option state :=
  match prog with
  | [] => Some σ
  | o :: prog' =>
      match exec o σ with
      | Ret _ σ' => run prog' σ'
      | Throw σ' => run prog' σ'
      | Undefined | Stuck => None
      end
  end.

(** ** Well-formed states *)

(** Number of handles in [m] whose [counter_] is [c]. *)
Definition refs (c : N) (m : gmap string handle) : nat :=
  size (filter (λ kh, counter_ kh.2 = c) m).

(** A handle's two fields are null together or non-null together. *)
Definition null_together (h : handle) : Prop :=
  ptr_ h = nullptr ↔ counter_ h = nullptr.

Record wf (σ : state) : Prop := mkWf {
  wf_strong : ∀ c cb, heap σ !! c = Some cb →
    strong_count cb = Z.of_nat (refs c (shared σ));
  wf_weak : ∀ c cb, heap σ !! c = Some cb →
    weak_count cb = Z.of_nat (refs c (weak σ));
  wf_range : ∀ c cb, heap σ !! c = Some cb →
    strong_count cb < SIZE_MODULUS ∧ weak_count cb < SIZE_MODULUS;
  wf_used : ∀ c cb, heap σ !! c = Some cb →
    0 < strong_count cb + weak_count cb;
  wf_nullptr : heap σ !! nullptr = None;
  wf_shared_alloc : ∀ x h, shared σ !! x = Some h →
    counter_ h ≠ nullptr → is_Some (heap σ !! counter_ h);
  wf_weak_alloc : ∀ x h, weak σ !! x = Some h →
    counter_ h ≠ nullptr → is_Some (heap σ !! counter_ h);
  wf_shared_null : ∀ x h, shared σ !! x = Some h → null_together h;
  wf_weak_null : ∀ x h, weak σ !! x = Some h → null_together h
}.

(** The live handles are fewer than [SIZE_MAX]: each one is an object of its
    own in an address space of [SIZE_MODULUS] bytes. *)
Definition fits (σ : state) : Prop :=
  Z.of_nat (size (shared σ) + size (weak σ)) < SIZE_MAX.

(** ** Auxiliary notions of the proofs and of the claims *)

(** Does handle [h] refer to block [c]? *)
Definition hit (h : handle) (c : N) : nat :=
  if decide (counter_ h = c) then 1%nat else 0%nat.

(** A slot that holds no handle, or a null one. *)
Definition vacant (m : gmap string handle) (k : string) : Prop :=
  ∀ h, m !! k = Some h → counter_ h = nullptr.

(** Well-formedness, block by block. *)
Definition block_ok (hp : gmap N Counter) (sh wk : gmap string handle) (c : N) : Prop :=
  match hp !! c with
  | Some cb =>
      strong_count cb = Z.of_nat (refs c sh) ∧
      weak_count cb = Z.of_nat (refs c wk) ∧
      0 < strong_count cb + weak_count cb ∧
      strong_count cb < SIZE_MODULUS ∧ weak_count cb < SIZE_MODULUS
  | None => refs c sh = 0%nat ∧ refs c wk = 0%nat
  end.

Definition blocks_ok (hp : gmap N Counter) (sh wk : gmap string handle) : Prop :=
  ∀ c, c ≠ nullptr → block_ok hp sh wk c.

Definition handles_ok (m : gmap string handle) : Prop :=
  ∀ x h, m !! x = Some h → null_together h.

(** States with one handle under construction or assignment.

    [open_shared x σ]: [σ] is well formed once [x], which holds no reference
    that is counted, is given its fields.  This is the state in which a
    constructor starts and the state [Release] leaves behind. *)

Definition open_shared (x : string) (σ : state) : Prop :=
  ∃ sh0, heap σ !! nullptr = None ∧ blocks_ok (heap σ) sh0 (weak σ) ∧
         handles_ok (shared σ) ∧ handles_ok (weak σ) ∧ vacant sh0 x ∧
         (∀ h, <[x:=h]> sh0 = <[x:=h]> (shared σ)) ∧
         Z.of_nat (size sh0) < SIZE_MAX.

Definition open_weak (x : string) (σ : state) : Prop :=
  ∃ wk0, heap σ !! nullptr = None ∧ blocks_ok (heap σ) (shared σ) wk0 ∧
         handles_ok (shared σ) ∧ handles_ok (weak σ) ∧ vacant wk0 x ∧
         (∀ h, <[x:=h]> wk0 = <[x:=h]> (weak σ)) ∧
         Z.of_nat (size wk0) < SIZE_MAX.

(** [quiet m]: [m] never throws. *)
Definition quiet {A} (m : M A) : Prop := ∀ σ s, m σ ≠ Throw s.

(** [reads m]: [m] never throws and returns in the state it started in. *)
Definition reads {A} (m : M A) : Prop :=
  ∀ σ, match m σ with Ret _ σ' => σ' = σ | Throw _ => False | _ => True end.

(** The states a program can be in: it starts with no handle and no block,
    and calls members one after the other, each time with fewer than
    [SIZE_MAX] handles alive; a [BadWeakPtr] that is thrown is caught. *)
Inductive reachable : state → Prop :=
| reachable_init : reachable init
| reachable_ret o σ σ' :
    reachable σ → fits σ → exec o σ = Ret () σ' → reachable σ'
| reachable_throw o σ σ' :
    reachable σ → fits σ → exec o σ = Throw σ' → reachable σ'.

(** The three states of a control block in the specification's state machine. *)
Inductive lifecycle := Live | ExpiredObserved | Destroyed.

Definition block_state (σ : state) (c : N) : lifecycle :=
  match heap σ !! c with
  | Some cb => if bool_decide (0 < strong_count cb) then Live else ExpiredObserved
  | None => Destroyed
  end.

(** What a move leaves behind: the destination [x] holds the fields the
    source [y] had, the source is null, and the destination reports the use
    count the source reported, as far as the block [counter_ hy] was left
    alone. *)
Definition moved_shared (σ σ' : state) (x y : string) (hy : handle) : Prop :=
  shared σ' = <[y := mkHandle nullptr nullptr]> (<[x := hy]> (shared σ)) ∧
  weak σ' = weak σ ∧
  SharedPtr_Get y σ' = Ret nullptr σ' ∧ SharedPtr_UseCount y σ' = Ret 0 σ' ∧
  SharedPtr_Get x σ' = Ret (ptr_ hy) σ' ∧
  (heap σ' !! counter_ hy = heap σ !! counter_ hy →
   ∀ n, SharedPtr_UseCount y σ = Ret n σ → SharedPtr_UseCount x σ' = Ret n σ').

Definition moved_weak (σ σ' : state) (x y : string) (hy : handle) : Prop :=
  weak σ' = <[y := mkHandle nullptr nullptr]> (<[x := hy]> (weak σ)) ∧
  shared σ' = shared σ ∧
  WeakPtr_UseCount y σ' = Ret 0 σ' ∧
  (heap σ' !! counter_ hy = heap σ !! counter_ hy →
   ∀ n, WeakPtr_UseCount y σ = Ret n σ → WeakPtr_UseCount x σ' = Ret n σ').

(** [run], stopping as soon as the handles no longer fit. *)
Fixpoint run_fits (prog : list op) (σ : state) : option state :=
  match prog with
  | [] => Some σ
  | o :: prog' =>
      if bool_decide (fits σ) then
        match exec o σ with
        | Ret _ σ' => run_fits prog' σ'
        | Throw σ' => run_fits prog' σ'
        | Undefined | Stuck => None
        end
      else None
  end.

(** Concrete programs and the states they end in. *)

(** One strong owner [s] of object 5 and one weak observer [w]. *)
Definition prog_sw : list op := [SCtorPtr "s" 5 1; WFromShared "w" "s"].
Definition st_sw : state := default init (run prog_sw init).

(** Two strong owners [a], [b] of object 5 and one weak observer [w]. *)
Definition prog_abw : list op := [SCtorPtr "a" 5 1; SCopy "b" "a"; WFromShared "w" "a"].
Definition st_abw : state := default init (run prog_abw init).

(** A null strong handle [n] next to [s] and [w]. *)
Definition prog_nsw : list op := [SCtor "n"; SCtorPtr "s" 5 1; WFromShared "w" "s"].
Definition st_nsw : state := default init (run prog_nsw init).

(** ** Notions used by the further properties *)

(** What a call with valid operands must give: never a use of a deallocated
    block, and [Q] on normal return. *)
Definition post (Q : state → Prop) (r : result unit) : Prop :=
  match r with
  | Ret _ σ' => Q σ'
  | Undefined => False
  | Throw _ | Stuck => True
  end.

(** The log, counted per control-block address. *)
Definition is_new (c : N) (e : event) : bool :=
  match e with EvNewCounter c' => bool_decide (c' = c) | _ => false end.
Definition is_destroy (c : N) (e : event) : bool :=
  match e with EvDeleteObject _ c' => bool_decide (c' = c) | _ => false end.
Definition is_free (c : N) (e : event) : bool :=
  match e with EvDeleteCounter c' => bool_decide (c' = c) | _ => false end.
Definition news (c : N) (tr : list event) : nat := length (List.filter (is_new c) tr).
Definition destroys (c : N) (tr : list event) : nat := length (List.filter (is_destroy c) tr).
Definition frees (c : N) (tr : list event) : nat := length (List.filter (is_free c) tr).

(** Is a block allocated at [c]; does it still own its object. *)
Definition allocated (hp : gmap N Counter) (c : N) : nat :=
  match hp !! c with Some _ => 1%nat | None => 0%nat end.
Definition owning (hp : gmap N Counter) (c : N) : nat :=
  match hp !! c with
  | Some cb => if bool_decide (strong_count cb = 0) then 0%nat else 1%nat
  | None => 0%nat
  end.

(** Every [new Counter()] at [c] is matched by one [delete ptr_] through
    that block, unless the block is there and still owns its object, and by
    one [delete counter_], unless the block is still there. *)
Definition bal (hp : gmap N Counter) (tr : list event) : Prop :=
  ∀ c, news c tr = (destroys c tr + owning hp c)%nat ∧
       news c tr = (frees c tr + allocated hp c)%nat.
Definition balanced (σ : state) : Prop := bal (heap σ) (trace σ).

(** [x = w] where [x] is the only [SharedPtr] on the block [w] observes. *)
Definition sole_owner_of_observed (x w : string) (σ : state) : Prop :=
  ∃ hx hw cb, shared σ !! x = Some hx ∧ weak σ !! w = Some hw ∧
    counter_ hx = counter_ hw ∧ heap σ !! counter_ hw = Some cb ∧
    strong_count cb = 1.

Definition careful_step (o : op) (σ : state) : Prop :=
  match o with
  | SAssignWeak x w => ¬ sole_owner_of_observed x w σ
  | _ => True
  end.

(** The states of programs that never assign a [WeakPtr] to the sole owner
    of the block it observes. *)
Inductive careful : state → Prop :=
| careful_init : careful init
| careful_ret o σ σ' :
    careful σ → fits σ → careful_step o σ → exec o σ = Ret () σ' → careful σ'
| careful_throw o σ σ' :
    careful σ → fits σ → exec o σ = Throw σ' → careful σ'.

(** Further concrete programs. *)

(** Two owners, one of them assigned from the observer, then everything is
    destroyed. *)
Definition prog_all_gone : list op :=
  prog_abw ++ [SAssignWeak "a" "w"; SDtor "a"; SDtor "b"; WDtor "w"].
Definition st_all_gone : state := default init (run prog_all_gone init).

(** The only owner is destroyed while [w] still observes. *)
Definition prog_expired : list op := prog_sw ++ [SDtor "s"].
Definition st_expired : state := default init (run prog_expired init).

(** The members that call [SharedPtr::Release]. *)
Definition may_delete_object (o : op) : bool :=
  match o with
  | SAssignWeak _ _ | SAssign _ _ | SAssignMove _ _ | SDtor _ | SReset _ _ _ => true
  | _ => false
  end.

(** [spares m]: [m] runs no [delete ptr_]. *)
Definition spares {A} (m : M A) : Prop :=
  ∀ σ a σ', m σ = Ret a σ' → ∀ c, destroys c (trace σ') = destroys c (trace σ).

(** The members of [WeakPtr] other than [Lock]. *)
Definition weak_member (o : op) : bool :=
  match o with
  | WCtor _ | WCopy _ _ | WMove _ _ | WFromShared _ _ | WAssignShared _ _
  | WAssign _ _ | WAssignMove _ _ | WDtor _ | WReset _ | WSwap _ _ => true
  | _ => false
  end.

(** [observes m]: [m] writes to no [SharedPtr] and to no strong count. *)
Definition observes {A} (m : M A) : Prop :=
  ∀ σ a σ', m σ = Ret a σ' →
    shared σ' = shared σ ∧
    ∀ c cb', heap σ' !! c = Some cb' →
      ∃ cb, heap σ !! c = Some cb ∧ strong_count cb' = strong_count cb.

(** * Proofs *)

(** ** Counting handles *)

Section refs.
Implicit Types (m : gmap string handle) (h : handle) (c : N) (k : string).

Lemma refs_empty c : refs c ∅ = 0%nat.
Proof. unfold refs. by rewrite map_filter_empty, map_size_empty. Qed.

Lemma refs_insert_None m k h c :
  m !! k = None → refs c (<[k:=h]> m) = (refs c m + hit h c)%nat.
Proof.
  intros Hk. unfold refs, hit. destruct (decide (counter_ h = c)) as [E|E].
  - rewrite map_filter_insert_True by done.
    rewrite map_size_insert_None; [lia|].
    by rewrite map_lookup_filter_None; left.
  - rewrite map_filter_insert_not' by (simpl; congruence).
    lia.
Qed.

Lemma refs_delete m k h c :
  m !! k = Some h → refs c m = (refs c (delete k m) + hit h c)%nat.
Proof.
  intros Hk. rewrite <-(insert_id m k h) at 1 by done.
  rewrite <-insert_delete_eq. apply refs_insert_None, lookup_delete_eq.
Qed.

Lemma refs_insert_Some m k h0 h c :
  m !! k = Some h0 →
  (refs c (<[k:=h]> m) + hit h0 c = refs c m + hit h c)%nat.
Proof.
  intros Hk. rewrite (refs_delete m k h0 c Hk).
  rewrite <-(insert_delete_eq m). rewrite refs_insert_None by apply lookup_delete_eq.
  lia.
Qed.

Lemma refs_le_size m c : (refs c m ≤ size m)%nat.
Proof. unfold refs. apply map_subseteq_size, map_filter_subseteq. Qed.

Lemma refs_pos m k h : m !! k = Some h → (0 < refs (counter_ h) m)%nat.
Proof.
  intros Hk. rewrite (refs_delete m k h _ Hk). unfold hit.
  rewrite decide_True by done. lia.
Qed.

Lemma refs_zero m c : refs c m = 0%nat → ∀ k h, m !! k = Some h → counter_ h ≠ c.
Proof.
  intros Hz k h Hk <-. pose proof (refs_pos m k h Hk). lia.
Qed.
End refs.

Section refs_more.
Implicit Types (m : gmap string handle) (h : handle) (c : N) (k : string).

Lemma refs_none m c :
  (∀ k h, m !! k = Some h → counter_ h ≠ c) → refs c m = 0%nat.
Proof.
  intros Hno. unfold refs. apply map_size_empty_iff, map_empty_filter.
  intros k h Hk. simpl. by apply (Hno k h).
Qed.

Lemma vacant_None m k : m !! k = None → vacant m k.
Proof. intros Hk h. by rewrite Hk. Qed.

Lemma vacant_null m k h : m !! k = Some h → counter_ h = nullptr → vacant m k.
Proof. intros Hk Hn h'. rewrite Hk. by intros [= <-]. Qed.

Lemma vacant_insert_null m k p : vacant (<[k:=mkHandle p nullptr]> m) k.
Proof. intros h. rewrite lookup_insert_eq. by intros [= <-]. Qed.

Lemma refs_insert_vacant m k h c :
  vacant m k → c ≠ nullptr → refs c (<[k:=h]> m) = (refs c m + hit h c)%nat.
Proof.
  intros Hv Hc. destruct (m !! k) as [h0|] eqn:Hk.
  - pose proof (refs_insert_Some m k h0 h c Hk) as E.
    assert (hit h0 c = 0%nat) as Hz.
    { unfold hit. rewrite decide_False; [done|]. rewrite (Hv h0 Hk). congruence. }
    rewrite Hz in E. lia.
  - by apply refs_insert_None.
Qed.

Lemma size_insert_le m k h : (size (<[k:=h]> m) ≤ S (size m))%nat.
Proof.
  rewrite map_size_insert. destruct (m !! k); simpl; lia.
Qed.
End refs_more.

(** ** Well-formedness, block by block *)

Lemma wf_blocks σ :
  wf σ ↔
  heap σ !! nullptr = None ∧ blocks_ok (heap σ) (shared σ) (weak σ) ∧
  handles_ok (shared σ) ∧ handles_ok (weak σ).
Proof.
  split.
  - intros [Hs Hw Hr Hu Hn Hsa Hwa Hsn Hwn].
    split; [done|]. split; [|by split].
    intros c Hc. unfold block_ok. destruct (heap σ !! c) as [cb|] eqn:Hcb.
    + specialize (Hs _ _ Hcb). specialize (Hw _ _ Hcb).
      specialize (Hr _ _ Hcb). specialize (Hu _ _ Hcb). tauto.
    + split; apply refs_none; intros k h Hk <-.
      * destruct (Hsa k h Hk Hc) as [? ?]. congruence.
      * destruct (Hwa k h Hk Hc) as [? ?]. congruence.
  - intros (Hn & Hb & Hsn & Hwn).
    assert (∀ c cb, heap σ !! c = Some cb → c ≠ nullptr) as Hnz.
    { intros c cb Hcb ->. congruence. }
    split; try done.
    + intros c cb Hcb. specialize (Hb c (Hnz _ _ Hcb)). unfold block_ok in Hb.
      rewrite Hcb in Hb. tauto.
    + intros c cb Hcb. specialize (Hb c (Hnz _ _ Hcb)). unfold block_ok in Hb.
      rewrite Hcb in Hb. tauto.
    + intros c cb Hcb. specialize (Hb c (Hnz _ _ Hcb)). unfold block_ok in Hb.
      rewrite Hcb in Hb. tauto.
    + intros c cb Hcb. specialize (Hb c (Hnz _ _ Hcb)). unfold block_ok in Hb.
      rewrite Hcb in Hb. tauto.
    + intros x h Hx Hc. specialize (Hb _ Hc). unfold block_ok in Hb.
      destruct (heap σ !! counter_ h); [eauto|].
      pose proof (refs_pos _ _ _ Hx). lia.
    + intros x h Hx Hc. specialize (Hb _ Hc). unfold block_ok in Hb.
      destruct (heap σ !! counter_ h); [eauto|].
      pose proof (refs_pos _ _ _ Hx). lia.
Qed.

Lemma wf_init : wf init.
Proof.
  apply wf_blocks. split; [done|]. split; [|by split].
  intros c _. unfold block_ok. simpl. rewrite lookup_empty. by rewrite !refs_empty.
Qed.

Lemma handles_ok_insert m x h :
  handles_ok m → null_together h → handles_ok (<[x:=h]> m).
Proof.
  intros Hm Hh y h'. rewrite lookup_insert. case_decide; [|by apply Hm].
  by intros [= <-].
Qed.

Lemma handles_ok_delete m x : handles_ok m → handles_ok (delete x m).
Proof.
  intros Hm y h'. rewrite lookup_delete_Some. intros [_ Hy]. by eapply Hm.
Qed.

Lemma null_together_null : null_together (mkHandle nullptr nullptr).
Proof. done. Qed.

Lemma hit_null c p : c ≠ nullptr → hit (mkHandle p nullptr) c = 0%nat.
Proof. intros Hc. unfold hit. simpl. by rewrite decide_False. Qed.

Lemma hit_same h : hit h (counter_ h) = 1%nat.
Proof. unfold hit. by rewrite decide_True. Qed.

Lemma hit_other h c : c ≠ counter_ h → hit h c = 0%nat.
Proof. intros Hc. unfold hit. by rewrite decide_False. Qed.

(** *** How the blocks change with the handles *)

Section blocks.
Context (hp : gmap N Counter) (sh wk : gmap string handle).
Hypothesis Hb : blocks_ok hp sh wk.

(** A handle that refers to no block comes or goes. *)
Lemma blocks_shared_frame sh' :
  (∀ c, c ≠ nullptr → refs c sh' = refs c sh) → blocks_ok hp sh' wk.
Proof.
  intros E c Hc. specialize (Hb c Hc). unfold block_ok in *. by rewrite E.
Qed.

Lemma blocks_weak_frame wk' :
  (∀ c, c ≠ nullptr → refs c wk' = refs c wk) → blocks_ok hp sh wk'.
Proof.
  intros E c Hc. specialize (Hb c Hc). unfold block_ok in *. by rewrite E.
Qed.

(** One more strong reference to an allocated block. *)
Lemma blocks_acquire_shared x h cb :
  vacant sh x → counter_ h ≠ nullptr → hp !! counter_ h = Some cb →
  Z.of_nat (size sh) < SIZE_MAX →
  blocks_ok (<[counter_ h := mkCounter (strong_count cb + 1) (weak_count cb)]> hp)
            (<[x:=h]> sh) wk.
Proof.
  intros Hv Hc Hcb Hfit c Hnz. specialize (Hb c Hnz). unfold block_ok in *.
  rewrite refs_insert_vacant by done.
  destruct (decide (c = counter_ h)) as [->|Hne].
  - rewrite lookup_insert_eq. rewrite Hcb in Hb. simpl. rewrite hit_same.
    pose proof (refs_le_size sh (counter_ h)). unfold SIZE_MAX in Hfit. lia.
  - rewrite lookup_insert_ne by done. rewrite hit_other by done.
    by rewrite Nat.add_0_r.
Qed.

Lemma blocks_acquire_weak x h cb :
  vacant wk x → counter_ h ≠ nullptr → hp !! counter_ h = Some cb →
  Z.of_nat (size wk) < SIZE_MAX →
  blocks_ok (<[counter_ h := mkCounter (strong_count cb) (weak_count cb + 1)]> hp)
            sh (<[x:=h]> wk).
Proof.
  intros Hv Hc Hcb Hfit c Hnz. specialize (Hb c Hnz). unfold block_ok in *.
  rewrite refs_insert_vacant by done.
  destruct (decide (c = counter_ h)) as [->|Hne].
  - rewrite lookup_insert_eq. rewrite Hcb in Hb. simpl. rewrite hit_same.
    pose proof (refs_le_size wk (counter_ h)). unfold SIZE_MAX in Hfit. lia.
  - rewrite lookup_insert_ne by done. rewrite hit_other by done.
    by rewrite Nat.add_0_r.
Qed.

(** A fresh block, adopted by one strong handle. *)
Lemma blocks_adopt x p c :
  vacant sh x → c ≠ nullptr → hp !! c = None →
  blocks_ok (<[c := Counter_ctor]> hp) (<[x:=mkHandle p c]> sh) wk.
Proof.
  intros Hv Hc Hcb c' Hnz. specialize (Hb c' Hnz). unfold block_ok in *.
  rewrite refs_insert_vacant by done.
  destruct (decide (c' = c)) as [->|Hne].
  - rewrite lookup_insert_eq. rewrite Hcb in Hb. simpl.
    replace (hit _ c) with 1%nat by (symmetry; apply (hit_same (mkHandle p c))).
    unfold SIZE_MODULUS, SIZE_WIDTH. lia.
  - rewrite lookup_insert_ne by done. rewrite hit_other by (simpl; done).
    by rewrite Nat.add_0_r.
Qed.

(** A strong handle lets go of its block and becomes null. *)
Lemma blocks_release_shared x h cb :
  sh !! x = Some h → counter_ h ≠ nullptr → hp !! counter_ h = Some cb →
  blocks_ok
    (if decide (strong_count cb = 1 ∧ weak_count cb = 0) then delete (counter_ h) hp
     else <[counter_ h := mkCounter (strong_count cb - 1) (weak_count cb)]> hp)
    (<[x:=mkHandle nullptr nullptr]> sh) wk.
Proof.
  intros Hx Hc Hcb c Hnz. specialize (Hb c Hnz). unfold block_ok in *.
  pose proof (refs_insert_Some sh x h (mkHandle nullptr nullptr) c Hx) as E.
  rewrite hit_null in E by done.
  destruct (decide (c = counter_ h)) as [->|Hne].
  - rewrite Hcb in Hb. rewrite hit_same in E. case_decide.
    + rewrite lookup_delete_eq. lia.
    + rewrite lookup_insert_eq. simpl. lia.
  - rewrite hit_other in E by done.
    case_decide; [rewrite lookup_delete_ne by done|rewrite lookup_insert_ne by done];
      by replace (refs c (<[x:=mkHandle nullptr nullptr]> sh)) with (refs c sh) by lia.
Qed.

Lemma blocks_release_weak x h cb :
  wk !! x = Some h → counter_ h ≠ nullptr → hp !! counter_ h = Some cb →
  blocks_ok
    (if decide (weak_count cb = 1 ∧ strong_count cb = 0) then delete (counter_ h) hp
     else <[counter_ h := mkCounter (strong_count cb) (weak_count cb - 1)]> hp)
    sh (<[x:=mkHandle nullptr nullptr]> wk).
Proof.
  intros Hx Hc Hcb c Hnz. specialize (Hb c Hnz). unfold block_ok in *.
  pose proof (refs_insert_Some wk x h (mkHandle nullptr nullptr) c Hx) as E.
  rewrite hit_null in E by done.
  destruct (decide (c = counter_ h)) as [->|Hne].
  - rewrite Hcb in Hb. rewrite hit_same in E. case_decide.
    + rewrite lookup_delete_eq. lia.
    + rewrite lookup_insert_eq. simpl. lia.
  - rewrite hit_other in E by done.
    case_decide; [rewrite lookup_delete_ne by done|rewrite lookup_insert_ne by done];
      by replace (refs c (<[x:=mkHandle nullptr nullptr]> wk)) with (refs c wk) by lia.
Qed.
End blocks.
(** *** Running the monad *)

Lemma run_bind {A B} (m : M A) (f : A → M B) σ :
  (m ≫= f) σ =
  match m σ with
  | Ret a σ' => f a σ'
  | Throw σ' => Throw σ'
  | Undefined => Undefined
  | Stuck => Stuck
  end.
Proof. reflexivity. Qed.

Lemma run_ret {A} (a : A) σ : (mret a : M A) σ = Ret a σ.
Proof. reflexivity. Qed.

Lemma wrap_small z : 0 ≤ z < SIZE_MODULUS → wrap z = z.
Proof. intros. unfold wrap. by apply Z.mod_small. Qed.

Lemma SharedPtr_Release_null σ x h :
  shared σ !! x = Some h → counter_ h = nullptr → SharedPtr_Release x σ = Ret () σ.
Proof.
  intros Hx Hc. unfold SharedPtr_Release. rewrite run_bind. unfold this_shared. rewrite Hx.
  rewrite bool_decide_eq_false_2 by (intros ?; done). done.
Qed.

Lemma SharedPtr_Release_eq σ x h cb :
  shared σ !! x = Some h → counter_ h ≠ nullptr → ptr_ h ≠ nullptr →
  heap σ !! counter_ h = Some cb → 1 ≤ strong_count cb < SIZE_MODULUS →
  SharedPtr_Release x σ = Ret ()
    (if decide (strong_count cb = 1) then
       if decide (weak_count cb = 0) then
         mkState (delete (counter_ h) (heap σ)) (shared σ) (weak σ)
           (EvDeleteCounter (counter_ h) :: EvDeleteObject (ptr_ h) (counter_ h) :: trace σ)
       else
         mkState (<[counter_ h := mkCounter 0 (weak_count cb)]> (heap σ)) (shared σ) (weak σ)
           (EvDeleteObject (ptr_ h) (counter_ h) :: trace σ)
     else
       mkState (<[counter_ h := mkCounter (strong_count cb - 1) (weak_count cb)]> (heap σ))
         (shared σ) (weak σ) (trace σ)).
Proof.
  intros Hx Hc Hp Hcb Hr.
  unfold SharedPtr_Release. rewrite run_bind. unfold this_shared at 1. rewrite Hx.
  rewrite bool_decide_eq_true_2 by done.
  rewrite run_bind. unfold decr_strong. rewrite run_bind. unfold load at 1. rewrite Hcb.
  rewrite run_bind. unfold store. rewrite Hcb. rewrite run_ret.
  rewrite wrap_small by lia.
  destruct (decide (strong_count cb = 1)) as [E|E].
  - rewrite bool_decide_eq_true_2 by lia.
    rewrite run_bind. unfold delete_object. rewrite bool_decide_eq_false_2 by done.
    rewrite run_bind. unfold load. simpl. rewrite lookup_insert_eq. simpl.
    destruct (decide (weak_count cb = 0)) as [W|W].
    + rewrite bool_decide_eq_true_2 by done. unfold delete_Counter. simpl.
      rewrite lookup_insert_eq. unfold with_event, with_heap. simpl.
      by rewrite delete_insert_eq.
    + rewrite bool_decide_eq_false_2 by done. unfold skip. rewrite run_ret.
      unfold with_event, with_heap. simpl. do 4 f_equal. lia.
  - rewrite bool_decide_eq_false_2 by lia. done.
Qed.

Lemma WeakPtr_Release_null σ x h :
  weak σ !! x = Some h → counter_ h = nullptr → WeakPtr_Release x σ = Ret () σ.
Proof.
  intros Hx Hc. unfold WeakPtr_Release. rewrite run_bind. unfold this_weak. rewrite Hx.
  rewrite bool_decide_eq_false_2 by (intros ?; done). done.
Qed.

Lemma WeakPtr_Release_eq σ x h cb :
  weak σ !! x = Some h → counter_ h ≠ nullptr →
  heap σ !! counter_ h = Some cb → 1 ≤ weak_count cb < SIZE_MODULUS →
  WeakPtr_Release x σ = Ret ()
    (if decide (weak_count cb = 1 ∧ strong_count cb = 0) then
       mkState (delete (counter_ h) (heap σ)) (shared σ) (weak σ)
         (EvDeleteCounter (counter_ h) :: trace σ)
     else
       mkState (<[counter_ h := mkCounter (strong_count cb) (weak_count cb - 1)]> (heap σ))
         (shared σ) (weak σ) (trace σ)).
Proof.
  intros Hx Hc Hcb Hr.
  unfold WeakPtr_Release. rewrite run_bind. unfold this_weak at 1. rewrite Hx.
  rewrite bool_decide_eq_true_2 by done.
  rewrite run_bind. unfold decr_weak. rewrite run_bind. unfold load at 1. rewrite Hcb.
  rewrite run_bind. unfold store. rewrite Hcb. rewrite run_ret.
  rewrite wrap_small by lia.
  destruct (decide (weak_count cb = 1)) as [E|E].
  - rewrite bool_decide_eq_true_2 by lia.
    rewrite run_bind. unfold load. simpl. rewrite lookup_insert_eq. simpl.
    destruct (decide (strong_count cb = 0)) as [W|W].
    + rewrite bool_decide_eq_true_2 by done. unfold delete_Counter. simpl.
      rewrite lookup_insert_eq. unfold with_event, with_heap. simpl.
      rewrite decide_True by done. by rewrite delete_insert_eq.
    + rewrite bool_decide_eq_false_2 by done. unfold skip. rewrite run_ret.
      rewrite decide_False by tauto. done.
  - rewrite bool_decide_eq_false_2 by lia. rewrite decide_False by tauto. done.
Qed.

(** *** Release in a well-formed state *)

Lemma wf_intro σ :
  heap σ !! nullptr = None → blocks_ok (heap σ) (shared σ) (weak σ) →
  handles_ok (shared σ) → handles_ok (weak σ) → wf σ.
Proof. intros. by apply wf_blocks. Qed.

Lemma wf_block σ c cb :
  wf σ → heap σ !! c = Some cb →
  c ≠ nullptr ∧
  strong_count cb = Z.of_nat (refs c (shared σ)) ∧
  weak_count cb = Z.of_nat (refs c (weak σ)) ∧
  strong_count cb < SIZE_MODULUS ∧ weak_count cb < SIZE_MODULUS.
Proof.
  intros Hwf Hcb. split.
  - intros ->. rewrite (wf_nullptr _ Hwf) in Hcb. done.
  - pose proof (wf_strong _ Hwf _ _ Hcb). pose proof (wf_weak _ Hwf _ _ Hcb).
    pose proof (wf_range _ Hwf _ _ Hcb). tauto.
Qed.

Lemma SharedPtr_Release_wf σ x h :
  wf σ → shared σ !! x = Some h →
  ∃ σ1, SharedPtr_Release x σ = Ret () σ1 ∧
        shared σ1 = shared σ ∧ weak σ1 = weak σ ∧
        heap σ1 !! nullptr = None ∧
        blocks_ok (heap σ1) (<[x:=mkHandle nullptr nullptr]> (shared σ)) (weak σ) ∧
        (∀ c, c ≠ counter_ h → heap σ1 !! c = heap σ !! c).
Proof.
  intros Hwf Hx. pose proof (proj1 (wf_blocks σ) Hwf) as (Hn & Hb & Hs & Hw).
  destruct (decide (counter_ h = nullptr)) as [Hc|Hc].
  - exists σ. rewrite (SharedPtr_Release_null _ _ _ Hx Hc).
    repeat split; try done.
    apply (blocks_shared_frame _ _ _ Hb). intros c Hnz.
    pose proof (refs_insert_Some (shared σ) x h (mkHandle nullptr nullptr) c Hx) as E.
    rewrite hit_null in E by done. rewrite hit_other in E by congruence. lia.
  - destruct (wf_shared_alloc _ Hwf _ _ Hx Hc) as [cb Hcb].
    destruct (wf_block _ _ _ Hwf Hcb) as (_ & Es & Ew & Hrs & Hrw).
    pose proof (refs_pos _ _ _ Hx) as Hpos.
    assert (ptr_ h ≠ nullptr) as Hp.
    { intros Hp. by apply Hc, (wf_shared_null _ Hwf _ _ Hx). }
    rewrite (SharedPtr_Release_eq _ _ _ _ Hx Hc Hp Hcb) by lia.
    pose proof (blocks_release_shared _ _ _ Hb x h cb Hx Hc Hcb) as Hb'.
    eexists. split; [done|].
    destruct (decide (strong_count cb = 1)) as [E1|E1];
      [destruct (decide (weak_count cb = 0)) as [E2|E2]|]; simpl.
    + rewrite decide_True in Hb' by done. repeat split; try done.
      * by rewrite lookup_delete_ne.
      * intros c Hne. by rewrite lookup_delete_ne.
    + rewrite decide_False in Hb' by tauto. rewrite E1 in Hb'. repeat split; try done.
      * by rewrite lookup_insert_ne.
      * intros c Hne. by rewrite lookup_insert_ne.
    + rewrite decide_False in Hb' by tauto. repeat split; try done.
      * by rewrite lookup_insert_ne.
      * intros c Hne. by rewrite lookup_insert_ne.
Qed.

Lemma WeakPtr_Release_wf σ x h :
  wf σ → weak σ !! x = Some h →
  ∃ σ1, WeakPtr_Release x σ = Ret () σ1 ∧
        shared σ1 = shared σ ∧ weak σ1 = weak σ ∧
        heap σ1 !! nullptr = None ∧
        blocks_ok (heap σ1) (shared σ) (<[x:=mkHandle nullptr nullptr]> (weak σ)) ∧
        (∀ c, c ≠ counter_ h → heap σ1 !! c = heap σ !! c).
Proof.
  intros Hwf Hx. pose proof (proj1 (wf_blocks σ) Hwf) as (Hn & Hb & Hs & Hw).
  destruct (decide (counter_ h = nullptr)) as [Hc|Hc].
  - exists σ. rewrite (WeakPtr_Release_null _ _ _ Hx Hc).
    repeat split; try done.
    apply (blocks_weak_frame _ _ _ Hb). intros c Hnz.
    pose proof (refs_insert_Some (weak σ) x h (mkHandle nullptr nullptr) c Hx) as E.
    rewrite hit_null in E by done. rewrite hit_other in E by congruence. lia.
  - destruct (wf_weak_alloc _ Hwf _ _ Hx Hc) as [cb Hcb].
    destruct (wf_block _ _ _ Hwf Hcb) as (_ & Es & Ew & Hrs & Hrw).
    pose proof (refs_pos _ _ _ Hx) as Hpos.
    rewrite (WeakPtr_Release_eq _ _ _ _ Hx Hc Hcb) by lia.
    pose proof (blocks_release_weak _ _ _ Hb x h cb Hx Hc Hcb) as Hb'.
    eexists. split; [done|].
    destruct (decide (weak_count cb = 1 ∧ strong_count cb = 0)) as [E1|E1]; simpl.
    + repeat split; try done.
      * by rewrite lookup_delete_ne.
      * intros c Hne. by rewrite lookup_delete_ne.
    + repeat split; try done.
      * by rewrite lookup_insert_ne.
      * intros c Hne. by rewrite lookup_insert_ne.
Qed.

(** *** Primitive steps *)

Section primitives.
Context (σ : state).

Lemma run_this_shared x h : shared σ !! x = Some h → this_shared x σ = Ret h σ.
Proof. intros H. unfold this_shared. by rewrite H. Qed.
Lemma run_this_weak x h : weak σ !! x = Some h → this_weak x σ = Ret h σ.
Proof. intros H. unfold this_weak. by rewrite H. Qed.

Lemma run_set_shared x h h0 :
  shared σ !! x = Some h0 → set_shared x h σ = Ret () (with_shared (insert x h) σ).
Proof. intros H. unfold set_shared. by rewrite H. Qed.
Lemma run_set_weak x h h0 :
  weak σ !! x = Some h0 → set_weak x h σ = Ret () (with_weak (insert x h) σ).
Proof. intros H. unfold set_weak. by rewrite H. Qed.

Lemma run_unused_shared x : shared σ !! x = None → unused_shared x σ = Ret () σ.
Proof. intros H. unfold unused_shared. by rewrite H. Qed.
Lemma run_unused_weak x : weak σ !! x = None → unused_weak x σ = Ret () σ.
Proof. intros H. unfold unused_weak. by rewrite H. Qed.

Lemma run_init_shared x h :
  shared σ !! x = None → init_shared x h σ = Ret () (with_shared (insert x h) σ).
Proof. intros H. unfold init_shared. by rewrite run_bind, run_unused_shared. Qed.
Lemma run_init_weak x h :
  weak σ !! x = None → init_weak x h σ = Ret () (with_weak (insert x h) σ).
Proof. intros H. unfold init_weak. by rewrite run_bind, run_unused_weak. Qed.

Lemma run_init_shared_used x h h0 : shared σ !! x = Some h0 → init_shared x h σ = Stuck.
Proof. intros H. unfold init_shared. rewrite run_bind. unfold unused_shared. by rewrite H. Qed.
Lemma run_init_weak_used x h h0 : weak σ !! x = Some h0 → init_weak x h σ = Stuck.
Proof. intros H. unfold init_weak. rewrite run_bind. unfold unused_weak. by rewrite H. Qed.

Lemma run_end_shared x h :
  shared σ !! x = Some h → end_shared x σ = Ret () (with_shared (delete x) σ).
Proof. intros H. unfold end_shared. by rewrite run_bind, (run_this_shared x h). Qed.
Lemma run_end_weak x h :
  weak σ !! x = Some h → end_weak x σ = Ret () (with_weak (delete x) σ).
Proof. intros H. unfold end_weak. by rewrite run_bind, (run_this_weak x h). Qed.

Lemma run_load c cb : heap σ !! c = Some cb → load c σ = Ret cb σ.
Proof. intros H. unfold load. by rewrite H. Qed.

Lemma run_incr_strong c cb :
  heap σ !! c = Some cb → 0 ≤ strong_count cb → strong_count cb + 1 < SIZE_MODULUS →
  incr_strong c σ =
  Ret (strong_count cb + 1)
      (with_heap (insert c (mkCounter (strong_count cb + 1) (weak_count cb))) σ).
Proof.
  intros H ? ?. unfold incr_strong. rewrite run_bind, (run_load c cb H).
  rewrite run_bind. unfold store. rewrite H. rewrite run_ret.
  by rewrite wrap_small by lia.
Qed.

Lemma run_incr_weak c cb :
  heap σ !! c = Some cb → 0 ≤ weak_count cb → weak_count cb + 1 < SIZE_MODULUS →
  incr_weak c σ =
  Ret (weak_count cb + 1)
      (with_heap (insert c (mkCounter (strong_count cb) (weak_count cb + 1))) σ).
Proof.
  intros H ? ?. unfold incr_weak. rewrite run_bind, (run_load c cb H).
  rewrite run_bind. unfold store. rewrite H. rewrite run_ret.
  by rewrite wrap_small by lia.
Qed.

Lemma run_new_Counter c :
  c ≠ nullptr → heap σ !! c = None →
  new_Counter c σ =
  Ret c (with_event (EvNewCounter c) (with_heap (insert c Counter_ctor) σ)).
Proof.
  intros Hc H. unfold new_Counter. rewrite bool_decide_eq_false_2 by done. by rewrite H.
Qed.

Lemma run_SharedPtr_UseCount_null x h :
  shared σ !! x = Some h → counter_ h = nullptr → SharedPtr_UseCount x σ = Ret 0 σ.
Proof.
  intros H Hc. unfold SharedPtr_UseCount. rewrite run_bind, (run_this_shared x h H).
  by rewrite bool_decide_eq_false_2 by (intros ?; done).
Qed.

Lemma run_SharedPtr_UseCount x h cb :
  shared σ !! x = Some h → counter_ h ≠ nullptr → heap σ !! counter_ h = Some cb →
  SharedPtr_UseCount x σ = Ret (strong_count cb) σ.
Proof.
  intros H Hc Hcb. unfold SharedPtr_UseCount. rewrite run_bind, (run_this_shared x h H).
  rewrite bool_decide_eq_true_2 by done. by rewrite run_bind, (run_load _ cb Hcb).
Qed.

Lemma run_WeakPtr_UseCount_null x h :
  weak σ !! x = Some h → counter_ h = nullptr → WeakPtr_UseCount x σ = Ret 0 σ.
Proof.
  intros H Hc. unfold WeakPtr_UseCount. rewrite run_bind, (run_this_weak x h H).
  by rewrite bool_decide_eq_false_2 by (intros ?; done).
Qed.

Lemma run_WeakPtr_UseCount x h cb :
  weak σ !! x = Some h → counter_ h ≠ nullptr → heap σ !! counter_ h = Some cb →
  WeakPtr_UseCount x σ = Ret (strong_count cb) σ.
Proof.
  intros H Hc Hcb. unfold WeakPtr_UseCount. rewrite run_bind, (run_this_weak x h H).
  rewrite bool_decide_eq_true_2 by done. by rewrite run_bind, (run_load _ cb Hcb).
Qed.

Lemma run_WeakPtr_Expired_null x h :
  weak σ !! x = Some h → counter_ h = nullptr → WeakPtr_Expired x σ = Ret true σ.
Proof.
  intros H Hc. unfold WeakPtr_Expired.
  by rewrite run_bind, (run_WeakPtr_UseCount_null x h H Hc).
Qed.

Lemma run_WeakPtr_Expired x h cb :
  weak σ !! x = Some h → counter_ h ≠ nullptr → heap σ !! counter_ h = Some cb →
  WeakPtr_Expired x σ = Ret (bool_decide (strong_count cb = 0)) σ.
Proof.
  intros H Hc Hcb. unfold WeakPtr_Expired.
  by rewrite run_bind, (run_WeakPtr_UseCount x h cb H Hc Hcb).
Qed.
End primitives.

Arguments with_heap _ _ /.
Arguments with_shared _ _ /.
Arguments with_weak _ _ /.
Arguments with_event _ _ /.

Lemma blocks_alloc_shared hp sh wk y h :
  blocks_ok hp sh wk → sh !! y = Some h → counter_ h ≠ nullptr →
  ∃ cb, hp !! counter_ h = Some cb ∧ strong_count cb = Z.of_nat (refs (counter_ h) sh) ∧
        weak_count cb = Z.of_nat (refs (counter_ h) wk).
Proof.
  intros Hb Hy Hc. specialize (Hb _ Hc). unfold block_ok in Hb.
  pose proof (refs_pos _ _ _ Hy).
  destruct (hp !! counter_ h) as [cb|]; [|lia]. exists cb. tauto.
Qed.

Lemma blocks_alloc_weak hp sh wk y h :
  blocks_ok hp sh wk → wk !! y = Some h → counter_ h ≠ nullptr →
  ∃ cb, hp !! counter_ h = Some cb ∧ strong_count cb = Z.of_nat (refs (counter_ h) sh) ∧
        weak_count cb = Z.of_nat (refs (counter_ h) wk).
Proof.
  intros Hb Hy Hc. specialize (Hb _ Hc). unfold block_ok in Hb.
  pose proof (refs_pos _ _ _ Hy).
  destruct (hp !! counter_ h) as [cb|]; [|lia]. exists cb. tauto.
Qed.

Lemma fits_shared σ : fits σ → Z.of_nat (size (shared σ)) < SIZE_MAX.
Proof. unfold fits. lia. Qed.
Lemma fits_weak σ : fits σ → Z.of_nat (size (weak σ)) < SIZE_MAX.
Proof. unfold fits. lia. Qed.

Lemma insert_eq_lookup_ne (m0 m : gmap string handle) x y :
  (∀ h, <[x:=h]> m0 = <[x:=h]> m) → y ≠ x → m0 !! y = m !! y.
Proof.
  intros E Hne. pose proof (E (mkHandle nullptr nullptr)) as E'.
  apply (f_equal (λ m, m !! y)) in E'. by rewrite !lookup_insert_ne in E'.
Qed.

Lemma insert_eq_delete (m0 m : gmap string handle) x :
  (∀ h, <[x:=h]> m0 = <[x:=h]> m) → delete x m0 = delete x m.
Proof.
  intros E. pose proof (E (mkHandle nullptr nullptr)) as E'.
  apply (f_equal (delete x)) in E'. by rewrite !delete_insert_eq in E'.
Qed.

Lemma open_shared_fresh x σ :
  wf σ → fits σ → shared σ !! x = None → open_shared x σ.
Proof.
  intros Hwf Hfit Hx. pose proof (proj1 (wf_blocks σ) Hwf) as (Hn & Hb & Hs & Hw).
  exists (shared σ). split_and!; try done.
  - by apply vacant_None.
  - by apply fits_shared.
Qed.

Lemma open_weak_fresh x σ :
  wf σ → fits σ → weak σ !! x = None → open_weak x σ.
Proof.
  intros Hwf Hfit Hx. pose proof (proj1 (wf_blocks σ) Hwf) as (Hn & Hb & Hs & Hw).
  exists (weak σ). split_and!; try done.
  - by apply vacant_None.
  - by apply fits_weak.
Qed.

Lemma open_shared_Release x h σ :
  wf σ → fits σ → shared σ !! x = Some h →
  ∃ σ1, SharedPtr_Release x σ = Ret () σ1 ∧
        shared σ1 = shared σ ∧ weak σ1 = weak σ ∧ open_shared x σ1 ∧
        (∀ c, c ≠ counter_ h → heap σ1 !! c = heap σ !! c).
Proof.
  intros Hwf Hfit Hx.
  destruct (SharedPtr_Release_wf σ x h Hwf Hx) as (σ1 & HR & Hs1 & Hw1 & Hn1 & Hb1 & Hf1).
  exists σ1. split_and!; try done.
  exists (<[x:=mkHandle nullptr nullptr]> (shared σ)). rewrite Hs1, Hw1.
  split_and!; try done.
  - exact (wf_shared_null _ Hwf).
  - exact (wf_weak_null _ Hwf).
  - apply vacant_insert_null.
  - intros h'. apply insert_insert_eq.
  - rewrite map_size_insert_Some by done. by apply fits_shared.
Qed.

Lemma open_weak_Release x h σ :
  wf σ → fits σ → weak σ !! x = Some h →
  ∃ σ1, WeakPtr_Release x σ = Ret () σ1 ∧
        shared σ1 = shared σ ∧ weak σ1 = weak σ ∧ open_weak x σ1 ∧
        (∀ c, c ≠ counter_ h → heap σ1 !! c = heap σ !! c).
Proof.
  intros Hwf Hfit Hx.
  destruct (WeakPtr_Release_wf σ x h Hwf Hx) as (σ1 & HR & Hs1 & Hw1 & Hn1 & Hb1 & Hf1).
  exists σ1. split_and!; try done.
  exists (<[x:=mkHandle nullptr nullptr]> (weak σ)). rewrite Hs1, Hw1.
  split_and!; try done.
  - exact (wf_shared_null _ Hwf).
  - exact (wf_weak_null _ Hwf).
  - apply vacant_insert_null.
  - intros h'. apply insert_insert_eq.
  - rewrite map_size_insert_Some by done. by apply fits_weak.
Qed.

(** Closing an open state. *)

Lemma close_shared_null x p c σ :
  open_shared x σ → null_together (mkHandle p c) → c = nullptr →
  wf (with_shared (insert x (mkHandle p c)) σ).
Proof.
  intros (sh0 & Hn & Hb & Hs & Hw & Hv & Hsh & Hsz) Hh ->.
  apply wf_intro; simpl; try done.
  - rewrite <-Hsh. apply (blocks_shared_frame _ _ _ Hb). intros c Hc.
    rewrite refs_insert_vacant by done. rewrite hit_null by done. lia.
  - by apply handles_ok_insert.
Qed.

Lemma close_weak_null x p c σ :
  open_weak x σ → null_together (mkHandle p c) → c = nullptr →
  wf (with_weak (insert x (mkHandle p c)) σ).
Proof.
  intros (wk0 & Hn & Hb & Hs & Hw & Hv & Hwk & Hsz) Hh ->.
  apply wf_intro; simpl; try done.
  - rewrite <-Hwk. apply (blocks_weak_frame _ _ _ Hb). intros c Hc.
    rewrite refs_insert_vacant by done. rewrite hit_null by done. lia.
  - by apply handles_ok_insert.
Qed.

Lemma close_shared_delete x σ : open_shared x σ → wf (with_shared (delete x) σ).
Proof.
  intros (sh0 & Hn & Hb & Hs & Hw & Hv & Hsh & Hsz).
  apply wf_intro; simpl; try done.
  - rewrite <-(insert_eq_delete _ _ _ Hsh).
    apply (blocks_shared_frame _ _ _ Hb). intros c Hc.
    destruct (sh0 !! x) as [h0|] eqn:Hx; [|by rewrite delete_id].
    rewrite (refs_delete sh0 x h0 c Hx). rewrite hit_other; [lia|].
    rewrite (Hv h0 Hx). done.
  - by apply handles_ok_delete.
Qed.

Lemma close_weak_delete x σ : open_weak x σ → wf (with_weak (delete x) σ).
Proof.
  intros (wk0 & Hn & Hb & Hs & Hw & Hv & Hwk & Hsz).
  apply wf_intro; simpl; try done.
  - rewrite <-(insert_eq_delete _ _ _ Hwk).
    apply (blocks_weak_frame _ _ _ Hb). intros c Hc.
    destruct (wk0 !! x) as [h0|] eqn:Hx; [|by rewrite delete_id].
    rewrite (refs_delete wk0 x h0 c Hx). rewrite hit_other; [lia|].
    rewrite (Hv h0 Hx). done.
  - by apply handles_ok_delete.
Qed.

Lemma close_shared_adopt x p c σ :
  open_shared x σ → p ≠ nullptr → c ≠ nullptr → heap σ !! c = None →
  wf (with_event (EvNewCounter c)
        (with_shared (insert x (mkHandle p c)) (with_heap (insert c Counter_ctor) σ))).
Proof.
  intros (sh0 & Hn & Hb & Hs & Hw & Hv & Hsh & Hsz) Hp Hc Hcb.
  apply wf_intro; simpl; try done.
  - by rewrite lookup_insert_ne.
  - rewrite <-Hsh. by apply blocks_adopt.
  - by apply handles_ok_insert.
Qed.

Lemma open_shared_alloc_shared x y h σ :
  open_shared x σ → y ≠ x → shared σ !! y = Some h → counter_ h ≠ nullptr →
  is_Some (heap σ !! counter_ h).
Proof.
  intros (sh0 & Hn & Hb & Hs & Hw & Hv & Hsh & Hsz) Hne Hy Hc.
  rewrite <-(insert_eq_lookup_ne _ _ _ _ Hsh Hne) in Hy.
  destruct (blocks_alloc_shared _ _ _ _ _ Hb Hy Hc) as (cb & ? & _). eauto.
Qed.

Lemma open_shared_alloc_weak x w h σ :
  open_shared x σ → weak σ !! w = Some h → counter_ h ≠ nullptr →
  is_Some (heap σ !! counter_ h).
Proof.
  intros (sh0 & Hn & Hb & Hs & Hw & Hv & Hsh & Hsz) Hy Hc.
  destruct (blocks_alloc_weak _ _ _ _ _ Hb Hy Hc) as (cb & ? & _). eauto.
Qed.

Lemma open_weak_alloc_weak x y h σ :
  open_weak x σ → y ≠ x → weak σ !! y = Some h → counter_ h ≠ nullptr →
  is_Some (heap σ !! counter_ h).
Proof.
  intros (wk0 & Hn & Hb & Hs & Hw & Hv & Hwk & Hsz) Hne Hy Hc.
  rewrite <-(insert_eq_lookup_ne _ _ _ _ Hwk Hne) in Hy.
  destruct (blocks_alloc_weak _ _ _ _ _ Hb Hy Hc) as (cb & ? & _). eauto.
Qed.

Lemma open_weak_alloc_shared x y h σ :
  open_weak x σ → shared σ !! y = Some h → counter_ h ≠ nullptr →
  is_Some (heap σ !! counter_ h).
Proof.
  intros (wk0 & Hn & Hb & Hs & Hw & Hv & Hwk & Hsz) Hy Hc.
  destruct (blocks_alloc_shared _ _ _ _ _ Hb Hy Hc) as (cb & ? & _). eauto.
Qed.

Lemma close_shared_acquire x p c σ σ' :
  open_shared x σ → null_together (mkHandle p c) → c ≠ nullptr →
  is_Some (heap σ !! c) →
  (incr_strong c ≫= λ _ : Z, skip) (with_shared (insert x (mkHandle p c)) σ) = Ret () σ' →
  wf σ'.
Proof.
  intros (sh0 & Hn & Hb & Hs & Hw & Hv & Hsh & Hsz) Hh Hc [cb Hcb].
  pose proof (Hb c Hc) as Hbc. unfold block_ok in Hbc. rewrite Hcb in Hbc.
  pose proof (refs_le_size sh0 c).
  rewrite run_bind, (run_incr_strong _ _ cb) by (simpl; unfold SIZE_MAX in *; done || lia).
  intros [= <-]. apply wf_intro; simpl; try done.
  - by rewrite lookup_insert_ne.
  - rewrite <-Hsh. by apply (blocks_acquire_shared _ _ _ Hb x (mkHandle p c)).
  - by apply handles_ok_insert.
Qed.

Lemma close_weak_acquire x p c σ σ' :
  open_weak x σ → null_together (mkHandle p c) → c ≠ nullptr →
  is_Some (heap σ !! c) →
  (incr_weak c ≫= λ _ : Z, skip) (with_weak (insert x (mkHandle p c)) σ) = Ret () σ' →
  wf σ'.
Proof.
  intros (wk0 & Hn & Hb & Hs & Hw & Hv & Hwk & Hsz) Hh Hc [cb Hcb].
  pose proof (Hb c Hc) as Hbc. unfold block_ok in Hbc. rewrite Hcb in Hbc.
  pose proof (refs_le_size wk0 c).
  rewrite run_bind, (run_incr_weak _ _ cb) by (simpl; unfold SIZE_MAX in *; done || lia).
  intros [= <-]. apply wf_intro; simpl; try done.
  - by rewrite lookup_insert_ne.
  - rewrite <-Hwk. by apply (blocks_acquire_weak _ _ _ Hb x (mkHandle p c)).
  - by apply handles_ok_insert.
Qed.

Lemma refs_move (m0 : gmap string handle) x y h c :
  vacant m0 x → y ≠ x → m0 !! y = Some h → c ≠ nullptr →
  refs c (<[y:=mkHandle nullptr nullptr]> (<[x:=h]> m0)) = refs c m0.
Proof.
  intros Hv Hne Hy Hc.
  pose proof (refs_insert_Some (<[x:=h]> m0) y h (mkHandle nullptr nullptr) c) as E.
  rewrite lookup_insert_ne in E by congruence. specialize (E Hy).
  rewrite (refs_insert_vacant m0 x h c Hv Hc) in E. rewrite hit_null in E by done. lia.
Qed.

Lemma close_shared_move x y h σ :
  open_shared x σ → y ≠ x → shared σ !! y = Some h →
  wf (with_shared (insert y (mkHandle nullptr nullptr))
        (with_shared (insert x (mkHandle (ptr_ h) (counter_ h))) σ)).
Proof.
  intros (sh0 & Hn & Hb & Hs & Hw & Hv & Hsh & Hsz) Hne Hy.
  apply wf_intro; simpl; try done.
  - rewrite <-Hsh. apply (blocks_shared_frame _ _ _ Hb). intros c Hc.
    destruct h as [p c']. apply refs_move; try done.
    by rewrite (insert_eq_lookup_ne _ _ _ _ Hsh Hne).
  - apply handles_ok_insert; [|done]. apply handles_ok_insert; [done|].
    destruct h. by apply (Hs y).
Qed.

Lemma close_weak_move x y h σ :
  open_weak x σ → y ≠ x → weak σ !! y = Some h →
  wf (with_weak (insert y (mkHandle nullptr nullptr))
        (with_weak (insert x (mkHandle (ptr_ h) (counter_ h))) σ)).
Proof.
  intros (wk0 & Hn & Hb & Hs & Hw & Hv & Hwk & Hsz) Hne Hy.
  apply wf_intro; simpl; try done.
  - rewrite <-Hwk. apply (blocks_weak_frame _ _ _ Hb). intros c Hc.
    destruct h as [p c']. apply refs_move; try done.
    by rewrite (insert_eq_lookup_ne _ _ _ _ Hwk Hne).
  - apply handles_ok_insert; [|done]. apply handles_ok_insert; [done|].
    destruct h. by apply (Hw y).
Qed.

Lemma refs_swap (m : gmap string handle) x y hx hy c :
  m !! x = Some hx → m !! y = Some hy → x ≠ y →
  refs c (<[y:=hx]> (<[x:=hy]> m)) = refs c m.
Proof.
  intros Hx Hy Hne.
  pose proof (refs_insert_Some m x hx hy c Hx) as E1.
  pose proof (refs_insert_Some (<[x:=hy]> m) y hy hx c) as E2.
  rewrite lookup_insert_ne in E2 by done. specialize (E2 Hy). lia.
Qed.

Lemma refs_two (m : gmap string handle) x y hx hy :
  m !! x = Some hx → m !! y = Some hy → x ≠ y → counter_ hx = counter_ hy →
  (2 ≤ refs (counter_ hy) m)%nat.
Proof.
  intros Hx Hy Hne Hc.
  rewrite (refs_delete m x hx _ Hx).
  rewrite (refs_delete (delete x m) y hy _) by (by rewrite lookup_delete_ne).
  rewrite hit_same. unfold hit. rewrite decide_True by done. lia.
Qed.

(** ** Every operation preserves well-formedness *)

Ltac use_shared x h H :=
  rewrite run_bind; unfold this_shared at 1;
  destruct (shared _ !! x) as [h|] eqn:H; [|done].
Ltac use_weak x h H :=
  rewrite run_bind; unfold this_weak at 1;
  destruct (weak _ !! x) as [h|] eqn:H; [|done].
Ltac new_shared x H :=
  rewrite run_bind; unfold unused_shared at 1;
  destruct (shared _ !! x) eqn:H; [done|].
Ltac new_weak x H :=
  rewrite run_bind; unfold unused_weak at 1;
  destruct (weak _ !! x) eqn:H; [done|].

Section preservation.
Context (σ σ' : state).
Hypothesis Hwf : wf σ.
Hypothesis Hfit : fits σ.

Lemma SharedPtr_ctor_wf x : SharedPtr_ctor x σ = Ret () σ' → wf σ'.
Proof.
  unfold SharedPtr_ctor, init_shared. new_shared x Hx. intros [= <-].
  by apply close_shared_null; [apply open_shared_fresh|..].
Qed.

Lemma SharedPtr_ctor_ptr_wf x p c : SharedPtr_ctor_ptr x p c σ = Ret () σ' → wf σ'.
Proof.
  unfold SharedPtr_ctor_ptr. new_shared x Hx. rewrite run_bind.
  pose proof (open_shared_fresh x σ Hwf Hfit Hx) as Ho.
  case_bool_decide as Hp.
  - unfold new_Counter. case_bool_decide as Hc; [done|].
    destruct (heap σ !! c) eqn:Hcb; [done|].
    rewrite run_init_shared by done. intros [= <-].
    by apply (close_shared_adopt x p c σ).
  - rewrite run_ret, run_init_shared by done. intros [= <-].
    apply close_shared_null; [done| |done]. by rewrite Hp.
Qed.

Lemma SharedPtr_ctor_copy_wf x y : SharedPtr_ctor_copy x y σ = Ret () σ' → wf σ'.
Proof.
  unfold SharedPtr_ctor_copy. use_shared y hy Hy. rewrite run_bind.
  destruct (shared σ !! x) eqn:Hx; [by erewrite run_init_shared_used|].
  rewrite run_init_shared by done.
  pose proof (open_shared_fresh x σ Hwf Hfit Hx) as Ho.
  assert (null_together (mkHandle (ptr_ hy) (counter_ hy))) as Hh.
  { destruct hy. exact (wf_shared_null _ Hwf _ _ Hy). }
  case_bool_decide as Hc.
  - apply close_shared_acquire; try done.
    apply (open_shared_alloc_shared x y hy σ); try done. congruence.
  - intros [= <-]. by apply close_shared_null.
Qed.

Lemma SharedPtr_ctor_move_wf x y : SharedPtr_ctor_move x y σ = Ret () σ' → wf σ'.
Proof.
  unfold SharedPtr_ctor_move. use_shared y hy Hy. rewrite run_bind.
  destruct (shared σ !! x) eqn:Hx; [by erewrite run_init_shared_used|].
  rewrite run_init_shared by done.
  assert (y ≠ x) as Hne by congruence.
  rewrite (run_set_shared _ y _ hy) by (simpl; by rewrite lookup_insert_ne).
  intros [= <-]. apply close_shared_move; try done. by apply open_shared_fresh.
Qed.

Lemma WeakPtr_Expired_wf w h :
  weak σ !! w = Some h →
  ∃ b, WeakPtr_Expired w σ = Ret b σ ∧ (b = false → counter_ h ≠ nullptr).
Proof.
  intros Hw. destruct (decide (counter_ h = nullptr)) as [Hc|Hc].
  - exists true. by rewrite (run_WeakPtr_Expired_null _ _ _ Hw Hc).
  - destruct (wf_weak_alloc _ Hwf _ _ Hw Hc) as [cb Hcb].
    eexists. by rewrite (run_WeakPtr_Expired _ _ _ _ Hw Hc Hcb).
Qed.

Lemma SharedPtr_ctor_weak_wf x w : SharedPtr_ctor_weak x w σ = Ret () σ' → wf σ'.
Proof.
  unfold SharedPtr_ctor_weak. new_shared x Hx. rewrite run_bind.
  destruct (weak σ !! w) as [hw|] eqn:Hw;
    [|by unfold WeakPtr_Expired, WeakPtr_UseCount, this_weak; rewrite !run_bind, Hw].
  destruct (WeakPtr_Expired_wf w hw Hw) as (b & -> & Hb).
  destruct b; [done|]. specialize (Hb eq_refl).
  rewrite run_bind, (run_this_weak _ _ _ Hw).
  rewrite run_bind, run_init_shared by done.
  pose proof (open_shared_fresh x σ Hwf Hfit Hx) as Ho.
  apply close_shared_acquire; try done.
  - destruct hw. exact (wf_weak_null _ Hwf _ _ Hw).
  - by apply (open_shared_alloc_weak x w hw σ).
Qed.

Lemma SharedPtr_assign_weak_wf x w : SharedPtr_assign_weak x w σ = Ret () σ' → wf σ'.
Proof.
  unfold SharedPtr_assign_weak. use_shared x hx Hx. rewrite run_bind.
  destruct (weak σ !! w) as [hw|] eqn:Hw;
    [|by unfold WeakPtr_Expired, WeakPtr_UseCount, this_weak; rewrite !run_bind, Hw].
  destruct (WeakPtr_Expired_wf w hw Hw) as (b & -> & Hb).
  destruct b; [done|]. specialize (Hb eq_refl).
  destruct (open_shared_Release x hx σ Hwf Hfit Hx) as (σ1 & HR & Hs1 & Hw1 & Ho & _).
  rewrite run_bind, HR.
  rewrite run_bind, (run_this_weak σ1 w hw) by (by rewrite Hw1).
  rewrite run_bind, (run_set_shared σ1 x _ hx) by (by rewrite Hs1).
  apply close_shared_acquire; try done.
  - destruct hw. exact (wf_weak_null _ Hwf _ _ Hw).
  - apply (open_shared_alloc_weak x w hw σ1); try done. by rewrite Hw1.
Qed.

Lemma SharedPtr_assign_copy_wf x y : SharedPtr_assign_copy x y σ = Ret () σ' → wf σ'.
Proof.
  unfold SharedPtr_assign_copy. use_shared x hx Hx. use_shared y hy Hy.
  case_bool_decide as Hxy; [|by intros [= <-]].
  destruct (open_shared_Release x hx σ Hwf Hfit Hx) as (σ1 & HR & Hs1 & Hw1 & Ho & _).
  rewrite run_bind, HR.
  rewrite run_bind, (run_this_shared σ1 y hy) by (by rewrite Hs1).
  rewrite run_bind, (run_set_shared σ1 x _ hx) by (by rewrite Hs1).
  assert (null_together (mkHandle (ptr_ hy) (counter_ hy))) as Hh.
  { destruct hy. exact (wf_shared_null _ Hwf _ _ Hy). }
  case_bool_decide as Hc.
  - apply close_shared_acquire; try done.
    apply (open_shared_alloc_shared x y hy σ1); try done; try congruence.
  - intros [= <-]. by apply close_shared_null.
Qed.

Lemma SharedPtr_assign_move_wf x y : SharedPtr_assign_move x y σ = Ret () σ' → wf σ'.
Proof.
  unfold SharedPtr_assign_move. use_shared x hx Hx. use_shared y hy Hy.
  case_bool_decide as Hxy; [|by intros [= <-]].
  destruct (open_shared_Release x hx σ Hwf Hfit Hx) as (σ1 & HR & Hs1 & Hw1 & Ho & _).
  rewrite run_bind, HR.
  rewrite run_bind, (run_this_shared σ1 y hy) by (by rewrite Hs1).
  rewrite run_bind, (run_set_shared σ1 x _ hx) by (by rewrite Hs1).
  rewrite (run_set_shared _ y _ hy) by (simpl; rewrite lookup_insert_ne, Hs1; done).
  intros [= <-]. apply close_shared_move; try done; try congruence.
Qed.

Lemma SharedPtr_dtor_wf x : SharedPtr_dtor x σ = Ret () σ' → wf σ'.
Proof.
  unfold SharedPtr_dtor. rewrite run_bind.
  destruct (shared σ !! x) as [hx|] eqn:Hx;
    [|by unfold SharedPtr_Release, this_shared; rewrite run_bind, Hx].
  destruct (open_shared_Release x hx σ Hwf Hfit Hx) as (σ1 & HR & Hs1 & Hw1 & Ho & _).
  rewrite HR, (run_end_shared σ1 x hx) by (by rewrite Hs1).
  intros [= <-]. by apply close_shared_delete.
Qed.

Lemma SharedPtr_Reset_wf x p c : SharedPtr_Reset x p c σ = Ret () σ' → wf σ'.
Proof.
  unfold SharedPtr_Reset. use_shared x hx Hx.
  case_bool_decide as Hxy; [|by intros [= <-]].
  destruct (open_shared_Release x hx σ Hwf Hfit Hx) as (σ1 & HR & Hs1 & Hw1 & Ho & _).
  rewrite run_bind, HR. case_bool_decide as Hp.
  - rewrite run_bind. unfold new_Counter. case_bool_decide as Hc; [done|].
    destruct (heap σ1 !! c) eqn:Hcb; [done|].
    rewrite (run_set_shared _ x _ hx) by (simpl; by rewrite Hs1).
    intros [= <-]. by apply (close_shared_adopt x p c σ1).
  - rewrite (run_set_shared _ x _ hx) by (by rewrite Hs1).
    intros [= <-]. by apply close_shared_null.
Qed.

Lemma SharedPtr_Swap_eq x y hx hy :
  shared σ !! x = Some hx → shared σ !! y = Some hy →
  SharedPtr_Swap x y σ =
  Ret () (with_shared (λ m, if decide (x = y) then m else <[y:=hx]> (<[x:=hy]> m)) σ).
Proof.
  intros Hx Hy. unfold SharedPtr_Swap.
  rewrite run_bind, (run_this_shared _ _ _ Hx).
  rewrite run_bind, (run_this_shared _ _ _ Hy).
  rewrite run_bind, (run_set_shared _ x _ hx) by done.
  destruct hx as [pa ca], hy as [pb cb]; simpl.
  destruct (decide (x = y)) as [->|Hne].
  - assert (pb = pa ∧ cb = ca) as [-> ->] by (split; congruence).
    rewrite run_bind, (run_set_shared _ y _ (mkHandle pa ca))
      by (simpl; by rewrite lookup_insert_eq).
    rewrite run_bind, (run_this_shared _ y (mkHandle pa ca))
      by (simpl; by rewrite lookup_insert_eq).
    rewrite run_bind, (run_this_shared _ y (mkHandle pa ca))
      by (simpl; by rewrite lookup_insert_eq).
    rewrite run_bind, (run_set_shared _ y _ (mkHandle pa ca))
      by (simpl; by rewrite lookup_insert_eq).
    rewrite (run_set_shared _ y _ (mkHandle pa ca))
      by (simpl; by rewrite lookup_insert_eq).
    simpl. rewrite !insert_insert_eq. by rewrite insert_id.
  - rewrite run_bind, (run_set_shared _ y _ (mkHandle pb cb))
      by (simpl; by rewrite lookup_insert_ne).
    rewrite run_bind, (run_this_shared _ x (mkHandle pb ca))
      by (simpl; by rewrite lookup_insert_ne, lookup_insert_eq).
    rewrite run_bind, (run_this_shared _ y (mkHandle pa cb))
      by (simpl; by rewrite lookup_insert_eq).
    rewrite run_bind, (run_set_shared _ x _ (mkHandle pb ca))
      by (simpl; by rewrite lookup_insert_ne, lookup_insert_eq).
    rewrite (run_set_shared _ y _ (mkHandle pa cb))
      by (simpl; by rewrite lookup_insert_ne, lookup_insert_eq).
    simpl. do 2 f_equal. apply map_eq. intros k.
    rewrite !lookup_insert. repeat case_decide; congruence.
Qed.

Lemma SharedPtr_Swap_wf x y : SharedPtr_Swap x y σ = Ret () σ' → wf σ'.
Proof.
  destruct (shared σ !! x) as [hx|] eqn:Hx;
    [|by unfold SharedPtr_Swap, this_shared; rewrite run_bind, Hx].
  destruct (shared σ !! y) as [hy|] eqn:Hy;
    [|by unfold SharedPtr_Swap, this_shared; rewrite run_bind, Hx, run_bind, Hy].
  rewrite (SharedPtr_Swap_eq x y hx hy Hx Hy). intros [= <-].
  pose proof (proj1 (wf_blocks σ) Hwf) as (Hn & Hb & Hs & Hw).
  destruct (decide (x = y)) as [->|Hne]; [by destruct σ|].
  apply wf_intro; simpl; try done.
  - apply (blocks_shared_frame _ _ _ Hb). intros c _. by apply refs_swap.
  - apply handles_ok_insert; [apply handles_ok_insert|]; eauto.
Qed.

Lemma WeakPtr_ctor_wf x : WeakPtr_ctor x σ = Ret () σ' → wf σ'.
Proof.
  unfold WeakPtr_ctor, init_weak. new_weak x Hx. intros [= <-].
  by apply close_weak_null; [apply open_weak_fresh|..].
Qed.

Lemma WeakPtr_ctor_copy_wf x y : WeakPtr_ctor_copy x y σ = Ret () σ' → wf σ'.
Proof.
  unfold WeakPtr_ctor_copy. use_weak y hy Hy. rewrite run_bind.
  destruct (weak σ !! x) eqn:Hx; [by erewrite run_init_weak_used|].
  rewrite run_init_weak by done.
  pose proof (open_weak_fresh x σ Hwf Hfit Hx) as Ho.
  assert (null_together (mkHandle (ptr_ hy) (counter_ hy))) as Hh.
  { destruct hy. exact (wf_weak_null _ Hwf _ _ Hy). }
  case_bool_decide as Hc.
  - apply close_weak_acquire; try done.
    apply (open_weak_alloc_weak x y hy σ); try done. congruence.
  - intros [= <-]. by apply close_weak_null.
Qed.

Lemma WeakPtr_ctor_move_wf x y : WeakPtr_ctor_move x y σ = Ret () σ' → wf σ'.
Proof.
  unfold WeakPtr_ctor_move. use_weak y hy Hy. rewrite run_bind.
  destruct (weak σ !! x) eqn:Hx; [by erewrite run_init_weak_used|].
  rewrite run_init_weak by done.
  assert (y ≠ x) as Hne by congruence.
  rewrite (run_set_weak _ y _ hy) by (simpl; by rewrite lookup_insert_ne).
  intros [= <-]. apply close_weak_move; try done. by apply open_weak_fresh.
Qed.

Lemma WeakPtr_ctor_shared_wf x y : WeakPtr_ctor_shared x y σ = Ret () σ' → wf σ'.
Proof.
  unfold WeakPtr_ctor_shared. use_shared y hy Hy. rewrite run_bind.
  destruct (weak σ !! x) eqn:Hx; [by erewrite run_init_weak_used|].
  rewrite run_init_weak by done.
  pose proof (open_weak_fresh x σ Hwf Hfit Hx) as Ho.
  assert (null_together (mkHandle (ptr_ hy) (counter_ hy))) as Hh.
  { destruct hy. exact (wf_shared_null _ Hwf _ _ Hy). }
  case_bool_decide as Hc.
  - apply close_weak_acquire; try done.
    by apply (open_weak_alloc_shared x y hy σ).
  - intros [= <-]. by apply close_weak_null.
Qed.

Lemma WeakPtr_assign_shared_wf x y : WeakPtr_assign_shared x y σ = Ret () σ' → wf σ'.
Proof.
  unfold WeakPtr_assign_shared. use_shared y hy Hy. rewrite run_bind.
  destruct (weak σ !! x) as [hx|] eqn:Hx;
    [|by unfold WeakPtr_Release, this_weak; rewrite run_bind, Hx].
  destruct (open_weak_Release x hx σ Hwf Hfit Hx) as (σ1 & HR & Hs1 & Hw1 & Ho & _).
  rewrite HR.
  rewrite run_bind, (run_this_shared σ1 y hy) by (by rewrite Hs1).
  rewrite run_bind, (run_set_weak σ1 x _ hx) by (by rewrite Hw1).
  assert (null_together (mkHandle (ptr_ hy) (counter_ hy))) as Hh.
  { destruct hy. exact (wf_shared_null _ Hwf _ _ Hy). }
  case_bool_decide as Hc.
  - apply close_weak_acquire; try done.
    apply (open_weak_alloc_shared x y hy σ1); try done. by rewrite Hs1.
  - intros [= <-]. by apply close_weak_null.
Qed.

Lemma WeakPtr_assign_copy_wf x y : WeakPtr_assign_copy x y σ = Ret () σ' → wf σ'.
Proof.
  unfold WeakPtr_assign_copy. use_weak x hx Hx. use_weak y hy Hy.
  case_bool_decide as Hxy; [|by intros [= <-]].
  destruct (open_weak_Release x hx σ Hwf Hfit Hx) as (σ1 & HR & Hs1 & Hw1 & Ho & _).
  rewrite run_bind, HR.
  rewrite run_bind, (run_this_weak σ1 y hy) by (by rewrite Hw1).
  rewrite run_bind, (run_set_weak σ1 x _ hx) by (by rewrite Hw1).
  assert (null_together (mkHandle (ptr_ hy) (counter_ hy))) as Hh.
  { destruct hy. exact (wf_weak_null _ Hwf _ _ Hy). }
  case_bool_decide as Hc.
  - apply close_weak_acquire; try done.
    apply (open_weak_alloc_weak x y hy σ1); try done; try congruence.
  - intros [= <-]. by apply close_weak_null.
Qed.

Lemma WeakPtr_assign_move_wf x y : WeakPtr_assign_move x y σ = Ret () σ' → wf σ'.
Proof.
  unfold WeakPtr_assign_move. use_weak x hx Hx. use_weak y hy Hy.
  case_bool_decide as Hxy; [|by intros [= <-]].
  destruct (open_weak_Release x hx σ Hwf Hfit Hx) as (σ1 & HR & Hs1 & Hw1 & Ho & _).
  rewrite run_bind, HR.
  rewrite run_bind, (run_this_weak σ1 y hy) by (by rewrite Hw1).
  rewrite run_bind, (run_set_weak σ1 x _ hx) by (by rewrite Hw1).
  rewrite (run_set_weak _ y _ hy) by (simpl; rewrite lookup_insert_ne, Hw1; done).
  intros [= <-]. apply close_weak_move; try done; try congruence.
Qed.

Lemma WeakPtr_dtor_wf x : WeakPtr_dtor x σ = Ret () σ' → wf σ'.
Proof.
  unfold WeakPtr_dtor. rewrite run_bind.
  destruct (weak σ !! x) as [hx|] eqn:Hx;
    [|by unfold WeakPtr_Release, this_weak; rewrite run_bind, Hx].
  destruct (open_weak_Release x hx σ Hwf Hfit Hx) as (σ1 & HR & Hs1 & Hw1 & Ho & _).
  rewrite HR, (run_end_weak σ1 x hx) by (by rewrite Hw1).
  intros [= <-]. by apply close_weak_delete.
Qed.

Lemma WeakPtr_Reset_wf x : WeakPtr_Reset x σ = Ret () σ' → wf σ'.
Proof.
  unfold WeakPtr_Reset. rewrite run_bind.
  destruct (weak σ !! x) as [hx|] eqn:Hx;
    [|by unfold WeakPtr_Release, this_weak; rewrite run_bind, Hx].
  destruct (open_weak_Release x hx σ Hwf Hfit Hx) as (σ1 & HR & Hs1 & Hw1 & Ho & _).
  rewrite HR, (run_set_weak σ1 x _ hx) by (by rewrite Hw1).
  intros [= <-]. by apply close_weak_null.
Qed.

Lemma WeakPtr_Swap_eq x y hx hy :
  weak σ !! x = Some hx → weak σ !! y = Some hy →
  WeakPtr_Swap x y σ =
  Ret () (with_weak (λ m, if decide (x = y) then m else <[y:=hx]> (<[x:=hy]> m)) σ).
Proof.
  intros Hx Hy. unfold WeakPtr_Swap.
  rewrite run_bind, (run_this_weak _ _ _ Hx).
  rewrite run_bind, (run_this_weak _ _ _ Hy).
  rewrite run_bind, (run_set_weak _ x _ hx) by done.
  destruct hx as [pa ca], hy as [pb cb]; simpl.
  destruct (decide (x = y)) as [->|Hne].
  - assert (pb = pa ∧ cb = ca) as [-> ->] by (split; congruence).
    rewrite run_bind, (run_set_weak _ y _ (mkHandle pa ca))
      by (simpl; by rewrite lookup_insert_eq).
    rewrite run_bind, (run_this_weak _ y (mkHandle pa ca))
      by (simpl; by rewrite lookup_insert_eq).
    rewrite run_bind, (run_this_weak _ y (mkHandle pa ca))
      by (simpl; by rewrite lookup_insert_eq).
    rewrite run_bind, (run_set_weak _ y _ (mkHandle pa ca))
      by (simpl; by rewrite lookup_insert_eq).
    rewrite (run_set_weak _ y _ (mkHandle pa ca))
      by (simpl; by rewrite lookup_insert_eq).
    simpl. rewrite !insert_insert_eq. by rewrite insert_id.
  - rewrite run_bind, (run_set_weak _ y _ (mkHandle pb cb))
      by (simpl; by rewrite lookup_insert_ne).
    rewrite run_bind, (run_this_weak _ x (mkHandle pb ca))
      by (simpl; by rewrite lookup_insert_ne, lookup_insert_eq).
    rewrite run_bind, (run_this_weak _ y (mkHandle pa cb))
      by (simpl; by rewrite lookup_insert_eq).
    rewrite run_bind, (run_set_weak _ x _ (mkHandle pb ca))
      by (simpl; by rewrite lookup_insert_ne, lookup_insert_eq).
    rewrite (run_set_weak _ y _ (mkHandle pa cb))
      by (simpl; by rewrite lookup_insert_ne, lookup_insert_eq).
    simpl. do 2 f_equal. apply map_eq. intros k.
    rewrite !lookup_insert. repeat case_decide; congruence.
Qed.

Lemma WeakPtr_Swap_wf x y : WeakPtr_Swap x y σ = Ret () σ' → wf σ'.
Proof.
  destruct (weak σ !! x) as [hx|] eqn:Hx;
    [|by unfold WeakPtr_Swap, this_weak; rewrite run_bind, Hx].
  destruct (weak σ !! y) as [hy|] eqn:Hy;
    [|by unfold WeakPtr_Swap, this_weak; rewrite run_bind, Hx, run_bind, Hy].
  rewrite (WeakPtr_Swap_eq x y hx hy Hx Hy). intros [= <-].
  pose proof (proj1 (wf_blocks σ) Hwf) as (Hn & Hb & Hs & Hw).
  destruct (decide (x = y)) as [->|Hne]; [by destruct σ|].
  apply wf_intro; simpl; try done.
  - apply (blocks_weak_frame _ _ _ Hb). intros c _. by apply refs_swap.
  - apply handles_ok_insert; [apply handles_ok_insert|]; eauto.
Qed.

Lemma WeakPtr_Lock_wf w x : WeakPtr_Lock w x σ = Ret () σ' → wf σ'.
Proof.
  unfold WeakPtr_Lock. rewrite run_bind.
  destruct (weak σ !! w) as [hw|] eqn:Hw;
    [|by unfold WeakPtr_Expired, WeakPtr_UseCount, this_weak; rewrite !run_bind, Hw].
  destruct (WeakPtr_Expired_wf w hw Hw) as (b & -> & Hb).
  destruct b; [apply SharedPtr_ctor_wf|apply SharedPtr_ctor_weak_wf].
Qed.

Lemma MakeShared_wf x p c : MakeShared x p c σ = Ret () σ' → wf σ'.
Proof.
  unfold MakeShared. case_bool_decide; [done|]. apply SharedPtr_ctor_ptr_wf.
Qed.

Lemma exec_wf o : exec o σ = Ret () σ' → wf σ'.
Proof.
  destruct o; simpl.
  - apply SharedPtr_ctor_wf.
  - apply SharedPtr_ctor_ptr_wf.
  - apply SharedPtr_ctor_copy_wf.
  - apply SharedPtr_ctor_move_wf.
  - apply SharedPtr_ctor_weak_wf.
  - apply SharedPtr_assign_weak_wf.
  - apply SharedPtr_assign_copy_wf.
  - apply SharedPtr_assign_move_wf.
  - apply SharedPtr_dtor_wf.
  - apply SharedPtr_Reset_wf.
  - apply SharedPtr_Swap_wf.
  - apply WeakPtr_ctor_wf.
  - apply WeakPtr_ctor_copy_wf.
  - apply WeakPtr_ctor_move_wf.
  - apply WeakPtr_ctor_shared_wf.
  - apply WeakPtr_assign_shared_wf.
  - apply WeakPtr_assign_copy_wf.
  - apply WeakPtr_assign_move_wf.
  - apply WeakPtr_dtor_wf.
  - apply WeakPtr_Reset_wf.
  - apply WeakPtr_Swap_wf.
  - apply WeakPtr_Lock_wf.
  - apply MakeShared_wf.
Qed.
End preservation.

(** ** Where [BadWeakPtr] can be thrown *)

Lemma quiet_ret {A} (a : A) : quiet (mret a : M A).
Proof. by intros σ s. Qed.

Lemma quiet_bind {A B} (m : M A) (f : A → M B) :
  quiet m → (∀ a, quiet (f a)) → quiet (m ≫= f).
Proof.
  intros Hm Hf σ s. rewrite run_bind.
  destruct (m σ) as [a σ1|s1| |] eqn:E; try done.
  - apply Hf.
  - by destruct (Hm σ s1).
Qed.

Lemma reads_quiet {A} (m : M A) : reads m → quiet m.
Proof. intros Hm σ s E. specialize (Hm σ). by rewrite E in Hm. Qed.

Lemma reads_ret {A} (a : A) : reads (mret a : M A).
Proof. by intros σ. Qed.

Lemma reads_bind {A B} (m : M A) (f : A → M B) :
  reads m → (∀ a, reads (f a)) → reads (m ≫= f).
Proof.
  intros Hm Hf σ. rewrite run_bind. specialize (Hm σ).
  destruct (m σ) as [a σ1| | |]; try done. subst σ1. apply Hf.
Qed.

Lemma reads_this_shared x : reads (this_shared x).
Proof. intros σ. unfold this_shared. by destruct (shared σ !! x). Qed.
Lemma reads_this_weak x : reads (this_weak x).
Proof. intros σ. unfold this_weak. by destruct (weak σ !! x). Qed.
Lemma reads_unused_shared x : reads (unused_shared x).
Proof. intros σ. unfold unused_shared. by destruct (shared σ !! x). Qed.
Lemma reads_unused_weak x : reads (unused_weak x).
Proof. intros σ. unfold unused_weak. by destruct (weak σ !! x). Qed.
Lemma reads_load c : reads (load c).
Proof. intros σ. unfold load. by destruct (heap σ !! c). Qed.

Lemma reads_WeakPtr_UseCount x : reads (WeakPtr_UseCount x).
Proof.
  unfold WeakPtr_UseCount. apply reads_bind; [apply reads_this_weak|]. intros h.
  case_bool_decide; [|apply reads_ret].
  apply reads_bind; [apply reads_load|]. intros cb. apply reads_ret.
Qed.

Lemma reads_WeakPtr_Expired x : reads (WeakPtr_Expired x).
Proof.
  unfold WeakPtr_Expired. apply reads_bind; [apply reads_WeakPtr_UseCount|].
  intros n. apply reads_ret.
Qed.

Lemma reads_SharedPtr_UseCount x : reads (SharedPtr_UseCount x).
Proof.
  unfold SharedPtr_UseCount. apply reads_bind; [apply reads_this_shared|]. intros h.
  case_bool_decide; [|apply reads_ret].
  apply reads_bind; [apply reads_load|]. intros cb. apply reads_ret.
Qed.

Lemma quiet_modify f : quiet (modify f).
Proof. by intros σ s. Qed.
Lemma quiet_set_shared x h : quiet (set_shared x h).
Proof. intros σ s. unfold set_shared. by destruct (shared σ !! x). Qed.
Lemma quiet_set_weak x h : quiet (set_weak x h).
Proof. intros σ s. unfold set_weak. by destruct (weak σ !! x). Qed.
Lemma quiet_store c cb : quiet (store c cb).
Proof. intros σ s. unfold store. by destruct (heap σ !! c). Qed.
Lemma quiet_new_Counter c : quiet (new_Counter c).
Proof.
  intros σ s. unfold new_Counter. case_bool_decide; [done|]. by destruct (heap σ !! c).
Qed.
Lemma quiet_delete_Counter c : quiet (delete_Counter c).
Proof. intros σ s. unfold delete_Counter. by destruct (heap σ !! c). Qed.
Lemma quiet_delete_object p c : quiet (delete_object p c).
Proof. intros σ s. unfold delete_object. by case_bool_decide. Qed.
Lemma quiet_stuck {A} : quiet (λ _, Stuck : result A).
Proof. by intros σ s. Qed.

Create HintDb quiet.
#[local] Hint Resolve quiet_ret quiet_modify quiet_set_shared quiet_set_weak quiet_store
  quiet_new_Counter quiet_delete_Counter quiet_delete_object quiet_stuck : quiet.
#[local] Hint Extern 1 (quiet (this_shared _)) => apply reads_quiet, reads_this_shared : quiet.
#[local] Hint Extern 1 (quiet (this_weak _)) => apply reads_quiet, reads_this_weak : quiet.
#[local] Hint Extern 1 (quiet (unused_shared _)) => apply reads_quiet, reads_unused_shared : quiet.
#[local] Hint Extern 1 (quiet (unused_weak _)) => apply reads_quiet, reads_unused_weak : quiet.
#[local] Hint Extern 1 (quiet (load _)) => apply reads_quiet, reads_load : quiet.
#[local] Hint Extern 1 (quiet (WeakPtr_Expired _)) => apply reads_quiet, reads_WeakPtr_Expired : quiet.

Ltac quiet_step :=
  cbv beta;
  first
    [ solve [auto with quiet]
    | match goal with |- quiet (if ?b then _ else _) => destruct b end
    | apply quiet_bind; [|intros ?] ].
Ltac quiet_go :=
  unfold skip, init_shared, init_weak, end_shared, end_weak,
    incr_strong, decr_strong, incr_weak, decr_weak; repeat quiet_step.

Lemma quiet_SharedPtr_Release x : quiet (SharedPtr_Release x).
Proof. unfold SharedPtr_Release. quiet_go. Qed.
Lemma quiet_WeakPtr_Release x : quiet (WeakPtr_Release x).
Proof. unfold WeakPtr_Release. quiet_go. Qed.
#[local] Hint Resolve quiet_SharedPtr_Release quiet_WeakPtr_Release : quiet.

Lemma quiet_SharedPtr_ctor x : quiet (SharedPtr_ctor x).
Proof. unfold SharedPtr_ctor. quiet_go. Qed.
Lemma quiet_SharedPtr_ctor_ptr x p c : quiet (SharedPtr_ctor_ptr x p c).
Proof. unfold SharedPtr_ctor_ptr. quiet_go. Qed.
#[local] Hint Resolve quiet_SharedPtr_ctor quiet_SharedPtr_ctor_ptr : quiet.

(** The two throwing members throw before they change anything. *)
Lemma SharedPtr_ctor_weak_throw x w σ s : SharedPtr_ctor_weak x w σ = Throw s → s = σ.
Proof.
  unfold SharedPtr_ctor_weak. rewrite run_bind.
  pose proof (reads_unused_shared x σ) as H1.
  destruct (unused_shared x σ) as [[] σ1| | |]; try done. subst σ1.
  rewrite run_bind. pose proof (reads_WeakPtr_Expired w σ) as H2.
  destruct (WeakPtr_Expired w σ) as [b σ1| | |]; try done. subst σ1.
  destruct b; [by intros [= <-]|].
  intros E. exfalso. revert E. generalize σ s. fold (quiet (A:=unit)). 
  change (quiet (w0 ← this_weak w;
                 init_shared x (mkHandle (ptr_ w0) (counter_ w0));;
                 _ ← incr_strong (counter_ w0); skip)).
  quiet_go.
Qed.

Lemma SharedPtr_assign_weak_throw x w σ s : SharedPtr_assign_weak x w σ = Throw s → s = σ.
Proof.
  unfold SharedPtr_assign_weak. rewrite run_bind.
  pose proof (reads_this_shared x σ) as H1.
  destruct (this_shared x σ) as [h σ1| | |]; try done. subst σ1.
  rewrite run_bind. pose proof (reads_WeakPtr_Expired w σ) as H2.
  destruct (WeakPtr_Expired w σ) as [b σ1| | |]; try done. subst σ1.
  destruct b; [by intros [= <-]|].
  intros E. exfalso. revert E. generalize σ s.
  change (quiet (SharedPtr_Release x;;
                 w0 ← this_weak w;
                 set_shared x (mkHandle (ptr_ w0) (counter_ w0));;
                 _ ← incr_strong (counter_ w0); skip)).
  quiet_go.
Qed.

Lemma WeakPtr_Lock_throw w x σ s : WeakPtr_Lock w x σ = Throw s → s = σ.
Proof.
  unfold WeakPtr_Lock. rewrite run_bind.
  pose proof (reads_WeakPtr_Expired w σ) as H2.
  destruct (WeakPtr_Expired w σ) as [b σ1| | |]; try done. subst σ1.
  destruct b; [|apply SharedPtr_ctor_weak_throw].
  intros E. by apply quiet_SharedPtr_ctor in E.
Qed.

Lemma exec_throw o σ s : exec o σ = Throw s → s = σ.
Proof.
  destruct o; simpl;
    try apply SharedPtr_ctor_weak_throw;
    try apply SharedPtr_assign_weak_throw;
    try apply WeakPtr_Lock_throw;
    intros E; exfalso; revert E; generalize σ s;
    match goal with |- ∀ σ s, ?m σ = Throw s → False => change (quiet m) end.
  all: try (unfold SharedPtr_ctor_copy, SharedPtr_ctor_move, SharedPtr_assign_copy,
    SharedPtr_assign_move, SharedPtr_dtor, SharedPtr_Reset, SharedPtr_Swap,
    WeakPtr_ctor, WeakPtr_ctor_copy, WeakPtr_ctor_move, WeakPtr_ctor_shared,
    WeakPtr_assign_shared, WeakPtr_assign_copy, WeakPtr_assign_move, WeakPtr_dtor,
    WeakPtr_Reset, WeakPtr_Swap, MakeShared; quiet_go).
Qed.

Lemma reachable_wf σ : reachable σ → wf σ.
Proof.
  induction 1 as [|o σ σ' _ IH Hfit Hex|o σ σ' _ IH Hfit Hex].
  - apply wf_init.
  - by apply (exec_wf σ σ' IH Hfit o).
  - by rewrite (exec_throw _ _ _ Hex).
Qed.

(** ** Claims *)

(** C6: in every reachable state, each allocated control block's
    [strong_count] is the number of live [SharedPtr]s whose [counter_] is that
    block, its [weak_count] is the number of live [WeakPtr]s whose [counter_]
    is that block, and [UseCount()] on any live non-null [SharedPtr] returns
    the number of live [SharedPtr]s on its block. *)
Theorem counts_match_live_handles σ :
  reachable σ →
  (∀ c cb, heap σ !! c = Some cb →
     strong_count cb = Z.of_nat (refs c (shared σ)) ∧
     weak_count cb = Z.of_nat (refs c (weak σ))) ∧
  (∀ x h, shared σ !! x = Some h → counter_ h ≠ nullptr →
     SharedPtr_UseCount x σ = Ret (Z.of_nat (refs (counter_ h) (shared σ))) σ).
Proof.
  intros Hr. pose proof (reachable_wf σ Hr) as Hwf. split.
  - intros c cb Hcb. split; [by apply (wf_strong _ Hwf)|by apply (wf_weak _ Hwf)].
  - intros x h Hx Hc. destruct (wf_shared_alloc _ Hwf _ _ Hx Hc) as [cb Hcb].
    rewrite (run_SharedPtr_UseCount σ x h cb Hx Hc Hcb).
    by rewrite (wf_strong _ Hwf _ _ Hcb).
Qed.

(** C9: in every reachable state, the [ptr_] and [counter_] of every
    [SharedPtr] (and of every [WeakPtr]) are null together or non-null
    together, and a null handle refers to no allocated control block, so that
    it is counted by none. *)
Theorem fields_null_together σ :
  reachable σ →
  (∀ x h, shared σ !! x = Some h →
     (ptr_ h = nullptr ↔ counter_ h = nullptr) ∧
     (ptr_ h = nullptr → ∀ c cb, heap σ !! c = Some cb → counter_ h ≠ c)) ∧
  (∀ w h, weak σ !! w = Some h →
     (ptr_ h = nullptr ↔ counter_ h = nullptr) ∧
     (ptr_ h = nullptr → ∀ c cb, heap σ !! c = Some cb → counter_ h ≠ c)).
Proof.
  intros Hr. pose proof (reachable_wf σ Hr) as Hwf.
  split; intros x h Hx.
  - pose proof (wf_shared_null _ Hwf _ _ Hx) as Hh. split; [done|].
    intros Hp c cb Hcb E. apply Hh in Hp. rewrite Hp in E. subst c.
    by rewrite (wf_nullptr _ Hwf) in Hcb.
  - pose proof (wf_weak_null _ Hwf _ _ Hx) as Hh. split; [done|].
    intros Hp c cb Hcb E. apply Hh in Hp. rewrite Hp in E. subst c.
    by rewrite (wf_nullptr _ Hwf) in Hcb.
Qed.

(** *** Promotion: what the members return *)

Lemma wf_incr_strong_ok σ c cb :
  wf σ → fits σ → heap σ !! c = Some cb →
  0 ≤ strong_count cb ∧ strong_count cb + 1 < SIZE_MODULUS.
Proof.
  intros Hwf Hfit Hcb. rewrite (wf_strong _ Hwf _ _ Hcb).
  pose proof (refs_le_size (shared σ) c). pose proof (fits_shared _ Hfit).
  unfold SIZE_MAX in *. lia.
Qed.

Lemma WeakPtr_Expired_false_inv σ w hw :
  wf σ → weak σ !! w = Some hw → WeakPtr_Expired w σ = Ret false σ →
  counter_ hw ≠ nullptr ∧ ∃ cb, heap σ !! counter_ hw = Some cb ∧ strong_count cb ≠ 0.
Proof.
  intros Hwf Hw He. destruct (decide (counter_ hw = nullptr)) as [Hc|Hc].
  - by rewrite (run_WeakPtr_Expired_null _ _ _ Hw Hc) in He.
  - split; [done|]. destruct (wf_weak_alloc _ Hwf _ _ Hw Hc) as [cb Hcb].
    exists cb. split; [done|].
    rewrite (run_WeakPtr_Expired _ _ _ _ Hw Hc Hcb) in He.
    injection He as He. by apply bool_decide_eq_false in He.
Qed.

Lemma SharedPtr_ctor_weak_ret σ x w hw cb :
  wf σ → fits σ → shared σ !! x = None → weak σ !! w = Some hw →
  counter_ hw ≠ nullptr → heap σ !! counter_ hw = Some cb → strong_count cb ≠ 0 →
  SharedPtr_ctor_weak x w σ =
  Ret () (mkState
            (<[counter_ hw := mkCounter (strong_count cb + 1) (weak_count cb)]> (heap σ))
            (<[x := mkHandle (ptr_ hw) (counter_ hw)]> (shared σ))
            (weak σ) (trace σ)).
Proof.
  intros Hwf Hfit Hx Hw Hc Hcb Hs.
  destruct (wf_incr_strong_ok σ _ cb Hwf Hfit Hcb) as [? ?].
  unfold SharedPtr_ctor_weak.
  rewrite run_bind, run_unused_shared by done.
  rewrite run_bind, (run_WeakPtr_Expired _ _ _ _ Hw Hc Hcb).
  rewrite bool_decide_eq_false_2 by done.
  rewrite run_bind, (run_this_weak _ _ _ Hw).
  rewrite run_bind, run_init_shared by done.
  by rewrite run_bind, (run_incr_strong _ _ cb) by done.
Qed.

(** C5: [Lock()] never throws.  On a [WeakPtr] that is not expired it returns
    a [SharedPtr] whose [Get()] is the [WeakPtr]'s [ptr_], with [strong_count]
    one higher and [weak_count] as before; on an expired one it returns a null
    [SharedPtr] and leaves every control block as it was. *)
Theorem Lock_never_throws σ w hw ret :
  wf σ → fits σ → weak σ !! w = Some hw → shared σ !! ret = None →
  ∃ σ', WeakPtr_Lock w ret σ = Ret () σ' ∧ weak σ' = weak σ ∧ trace σ' = trace σ ∧
    (WeakPtr_Expired w σ = Ret false σ →
       SharedPtr_Get ret σ' = Ret (ptr_ hw) σ' ∧
       shared σ' = <[ret := mkHandle (ptr_ hw) (counter_ hw)]> (shared σ) ∧
       ∃ cb, heap σ !! counter_ hw = Some cb ∧
             heap σ' = <[counter_ hw := mkCounter (strong_count cb + 1) (weak_count cb)]> (heap σ)) ∧
    (WeakPtr_Expired w σ = Ret true σ →
       shared σ' = <[ret := mkHandle nullptr nullptr]> (shared σ) ∧
       SharedPtr_Get ret σ' = Ret nullptr σ' ∧
       heap σ' = heap σ).
Proof.
  intros Hwf Hfit Hw Hret.
  destruct (WeakPtr_Expired_wf σ Hwf w hw Hw) as (b & He & Hb).
  unfold WeakPtr_Lock. rewrite run_bind, He. destruct b.
  - unfold SharedPtr_ctor. rewrite run_init_shared by done.
    eexists. split; [done|]. simpl. split_and!; try done.
    intros _. split_and!; try done.
    unfold SharedPtr_Get. rewrite run_bind. unfold this_shared. simpl.
    by rewrite lookup_insert_eq.
  - destruct (WeakPtr_Expired_false_inv σ w hw Hwf Hw He) as (Hc & cb & Hcb & Hs).
    rewrite (SharedPtr_ctor_weak_ret σ ret w hw cb) by done.
    eexists. split; [done|]. simpl. split_and!; try done.
    intros _. split_and!; try done; [|by exists cb].
    unfold SharedPtr_Get. rewrite run_bind. unfold this_shared. simpl.
    by rewrite lookup_insert_eq.
Qed.


Lemma open_shared_incr_ok x σ c cb :
  open_shared x σ → c ≠ nullptr → heap σ !! c = Some cb →
  0 ≤ strong_count cb ∧ strong_count cb + 1 < SIZE_MODULUS.
Proof.
  intros (sh0 & Hn & Hb & Hs & Hw & Hv & Hsh & Hsz) Hc Hcb.
  specialize (Hb c Hc). unfold block_ok in Hb. rewrite Hcb in Hb.
  pose proof (refs_le_size sh0 c). unfold SIZE_MAX in *. lia.
Qed.

Lemma SharedPtr_assign_weak_ret σ x w hx hw :
  wf σ → fits σ → shared σ !! x = Some hx → weak σ !! w = Some hw →
  WeakPtr_Expired w σ = Ret false σ →
  ∃ σ1 cb1,
    SharedPtr_Release x σ = Ret () σ1 ∧
    heap σ1 !! counter_ hw = Some cb1 ∧
    SharedPtr_assign_weak x w σ =
    Ret () (mkState
              (<[counter_ hw := mkCounter (strong_count cb1 + 1) (weak_count cb1)]> (heap σ1))
              (<[x := mkHandle (ptr_ hw) (counter_ hw)]> (shared σ))
              (weak σ) (trace σ1)).
Proof.
  intros Hwf Hfit Hx Hw He.
  destruct (WeakPtr_Expired_false_inv σ w hw Hwf Hw He) as (Hc & _).
  destruct (open_shared_Release x hx σ Hwf Hfit Hx) as (σ1 & HR & Hs1 & Hw1 & Ho & _).
  destruct (open_shared_alloc_weak x w hw σ1 Ho) as [cb1 Hcb1]; [by rewrite Hw1|done|].
  destruct (open_shared_incr_ok x σ1 _ cb1 Ho Hc Hcb1) as [? ?].
  exists σ1, cb1. split_and!; try done.
  unfold SharedPtr_assign_weak.
  rewrite run_bind, (run_this_shared _ _ _ Hx).
  rewrite run_bind, He. rewrite run_bind, HR.
  rewrite run_bind, (run_this_weak σ1 w hw) by (by rewrite Hw1).
  rewrite run_bind, (run_set_shared σ1 x _ hx) by (by rewrite Hs1).
  rewrite run_bind, (run_incr_strong _ _ cb1) by done.
  simpl. by rewrite Hs1, Hw1.
Qed.

(** C4, as the code has it: promoting an expired [WeakPtr] throws
    [BadWeakPtr] and changes nothing, neither a control block nor the target.
    Constructing a [SharedPtr] from a [WeakPtr] that is not expired succeeds,
    the new handle takes the [WeakPtr]'s [ptr_] and [counter_], and
    [strong_count] goes up by one.  Assigning such a [WeakPtr] to a target
    that is not the sole owner of the observed block runs [Release] on the
    target, whose log is all the assignment adds, and gives the target the
    [WeakPtr]'s fields: [strong_count] of the observed block goes up by one
    if the target referred to another block or to none, and ends as it
    started, with nothing deleted, if the target was one of several owners
    of that block.  The [weak_count] stays as it was. *)
Theorem promotion_from_weak σ w hw :
  wf σ → fits σ → weak σ !! w = Some hw →
  (WeakPtr_Expired w σ = Ret true σ →
     (∀ x, shared σ !! x = None → SharedPtr_ctor_weak x w σ = Throw σ) ∧
     (∀ x hx, shared σ !! x = Some hx → SharedPtr_assign_weak x w σ = Throw σ)) ∧
  (WeakPtr_Expired w σ = Ret false σ →
     ∃ cb, heap σ !! counter_ hw = Some cb ∧
       (∀ x, shared σ !! x = None →
          ∃ σ', SharedPtr_ctor_weak x w σ = Ret () σ' ∧
            shared σ' !! x = Some (mkHandle (ptr_ hw) (counter_ hw)) ∧
            heap σ' !! counter_ hw =
              Some (mkCounter (strong_count cb + 1) (weak_count cb))) ∧
       (∀ x hx, shared σ !! x = Some hx →
          (counter_ hx = counter_ hw → strong_count cb ≠ 1) →
          ∃ σ1 σ' cb', SharedPtr_Release x σ = Ret () σ1 ∧
            SharedPtr_assign_weak x w σ = Ret () σ' ∧
            shared σ' !! x = Some (mkHandle (ptr_ hw) (counter_ hw)) ∧
            heap σ' !! counter_ hw = Some cb' ∧
            weak_count cb' = weak_count cb ∧
            trace σ' = trace σ1 ∧
            (counter_ hx ≠ counter_ hw → strong_count cb' = strong_count cb + 1) ∧
            (counter_ hx = counter_ hw →
             strong_count cb' = strong_count cb ∧ trace σ' = trace σ))).
Proof.
  intros Hwf Hfit Hw. split.
  - intros He. split.
    + intros x Hx. unfold SharedPtr_ctor_weak.
      rewrite run_bind, run_unused_shared by done. by rewrite run_bind, He.
    + intros x hx Hx. unfold SharedPtr_assign_weak.
      rewrite run_bind, (run_this_shared _ _ _ Hx). by rewrite run_bind, He.
  - intros He.
    destruct (WeakPtr_Expired_false_inv σ w hw Hwf Hw He) as (Hc & cb & Hcb & Hs).
    exists cb. split; [done|]. split.
    + intros x Hx. rewrite (SharedPtr_ctor_weak_ret σ x w hw cb) by done.
      eexists. split; [done|]. simpl. by rewrite !lookup_insert_eq.
    + intros x hx Hx Hnot.
      destruct (SharedPtr_assign_weak_ret σ x w hx hw Hwf Hfit Hx Hw He)
        as (σ1 & cb1 & HR & Hcb1 & Hex).
      pose proof (SharedPtr_assign_weak_wf σ _ Hwf Hfit x w Hex) as Hwf'.
      exists σ1. eexists. exists (mkCounter (strong_count cb1 + 1) (weak_count cb1)).
      split; [exact HR|]. split; [exact Hex|]. simpl. rewrite !lookup_insert_eq.
      split; [done|]. split; [done|].
      assert (heap (mkState
                (<[counter_ hw := mkCounter (strong_count cb1 + 1) (weak_count cb1)]> (heap σ1))
                (<[x := mkHandle (ptr_ hw) (counter_ hw)]> (shared σ))
                (weak σ) (trace σ1)) !! counter_ hw
              = Some (mkCounter (strong_count cb1 + 1) (weak_count cb1))) as Hcb'
        by (simpl; by rewrite lookup_insert_eq).
      pose proof (wf_strong _ Hwf' _ _ Hcb') as Es. pose proof (wf_weak _ Hwf' _ _ Hcb') as Ew.
      simpl in Es, Ew.
      pose proof (wf_strong _ Hwf _ _ Hcb) as Es0. pose proof (wf_weak _ Hwf _ _ Hcb) as Ew0.
      pose proof (refs_insert_Some (shared σ) x hx (mkHandle (ptr_ hw) (counter_ hw))
                    (counter_ hw) Hx) as E.
      replace (hit (mkHandle (ptr_ hw) (counter_ hw)) (counter_ hw)) with 1%nat in E
        by (unfold hit; simpl; by rewrite decide_True).
      split; [lia|]. split; [done|]. split; intros Hcx.
      * rewrite hit_other in E by congruence. lia.
      * replace (hit hx (counter_ hw)) with 1%nat in E
          by (unfold hit; by rewrite decide_True).
        split; [lia|]. specialize (Hnot Hcx).
        assert (counter_ hx ≠ nullptr) as Hcx' by congruence.
        assert (ptr_ hx ≠ nullptr) as Hp.
        { intros Hp. by apply Hcx', (wf_shared_null _ Hwf _ _ Hx). }
        rewrite <-Hcx in Hcb.
        destruct (wf_range _ Hwf _ _ Hcb) as [Hrs _].
        rewrite (SharedPtr_Release_eq _ _ _ _ Hx Hcx' Hp Hcb) in HR by lia.
        rewrite decide_False in HR by done. by injection HR as <-.
Qed.

(** *** Self-assignment *)

(** C8: assigning a handle from itself, by copy or by move, returns in the
    state it was called in: the handle's fields, every control block and the
    log of deletions are what they were. *)
Theorem self_assignment_is_noop σ x :
  (is_Some (shared σ !! x) →
     SharedPtr_assign_copy x x σ = Ret () σ ∧ SharedPtr_assign_move x x σ = Ret () σ) ∧
  (is_Some (weak σ !! x) →
     WeakPtr_assign_copy x x σ = Ret () σ ∧ WeakPtr_assign_move x x σ = Ret () σ).
Proof.
  split; intros [h Hx].
  - unfold SharedPtr_assign_copy, SharedPtr_assign_move.
    rewrite !run_bind, !(run_this_shared _ _ _ Hx), !run_bind, !(run_this_shared _ _ _ Hx).
    by rewrite bool_decide_eq_false_2 by (intros ?; done).
  - unfold WeakPtr_assign_copy, WeakPtr_assign_move.
    rewrite !run_bind, !(run_this_weak _ _ _ Hx), !run_bind, !(run_this_weak _ _ _ Hx).
    by rewrite bool_decide_eq_false_2 by (intros ?; done).
Qed.

(** *** A [WeakPtr] made from a null [SharedPtr] *)

Lemma weak_null_observers σ w p :
  weak σ !! w = Some (mkHandle p nullptr) →
  WeakPtr_UseCount w σ = Ret 0 σ ∧ WeakPtr_Expired w σ = Ret true σ.
Proof.
  intros Hw. split.
  - by apply (run_WeakPtr_UseCount_null σ w _ Hw).
  - by apply (run_WeakPtr_Expired_null σ w _ Hw).
Qed.

(** C10: from a null [SharedPtr], the converting constructor of [WeakPtr]
    makes a null [WeakPtr] and changes no control block; the converting
    assignment does what [Release] does to the block held before and leaves
    the [WeakPtr] null.  Either way [UseCount()] is 0 and [Expired()] is true
    afterwards. *)
Theorem weak_from_null_shared σ x h w :
  wf σ → shared σ !! x = Some h → ptr_ h = nullptr →
  (weak σ !! w = None →
     let σ' := mkState (heap σ) (shared σ)
                 (<[w := mkHandle nullptr nullptr]> (weak σ)) (trace σ) in
     WeakPtr_ctor_shared w x σ = Ret () σ' ∧
     WeakPtr_UseCount w σ' = Ret 0 σ' ∧ WeakPtr_Expired w σ' = Ret true σ') ∧
  (∀ hw, weak σ !! w = Some hw →
     ∃ σ1, WeakPtr_Release w σ = Ret () σ1 ∧
       let σ' := mkState (heap σ1) (shared σ)
                   (<[w := mkHandle nullptr nullptr]> (weak σ)) (trace σ1) in
       WeakPtr_assign_shared w x σ = Ret () σ' ∧
       WeakPtr_UseCount w σ' = Ret 0 σ' ∧ WeakPtr_Expired w σ' = Ret true σ').
Proof.
  intros Hwf Hx Hp.
  assert (counter_ h = nullptr) as Hc by (by apply (wf_shared_null _ Hwf _ _ Hx)).
  split.
  - intros Hw σ'. split.
    + unfold WeakPtr_ctor_shared.
      rewrite run_bind, (run_this_shared _ _ _ Hx).
      rewrite run_bind, run_init_weak by done.
      rewrite bool_decide_eq_false_2 by (intros ?; done).
      unfold σ'. simpl. by rewrite Hp, Hc.
    + apply (weak_null_observers _ _ nullptr). unfold σ'. simpl. by rewrite lookup_insert_eq.
  - intros hw Hw.
    destruct (WeakPtr_Release_wf σ w hw Hwf Hw) as (σ1 & HR & Hs1 & Hw1 & _).
    exists σ1. split; [done|]. intros σ'. split.
    + unfold WeakPtr_assign_shared.
      rewrite run_bind, (run_this_shared _ _ _ Hx). rewrite run_bind, HR.
      rewrite run_bind, (run_this_shared σ1 x h) by (by rewrite Hs1).
      rewrite run_bind, (run_set_weak σ1 w _ hw) by (by rewrite Hw1).
      rewrite bool_decide_eq_false_2 by (intros ?; done).
      unfold σ'. simpl. by rewrite Hp, Hc, Hs1, Hw1.
    + apply (weak_null_observers _ _ nullptr). unfold σ'. simpl. by rewrite lookup_insert_eq.
Qed.

(** *** Reset *)

(** C1, as the code has it: [Reset(p)] with [p] different from the pointer
    held runs [Release] and then, for a non-null [p], adopts [p] with a new
    control block whose counts are 1 and 0, so that [UseCount()] is 1; for a
    null [p] it leaves the handle null.  [Reset(p)] with [p] equal to the
    pointer held does nothing at all. *)
Theorem Reset_releases_then_adopts σ x hx p c :
  wf σ → shared σ !! x = Some hx →
  (p = ptr_ hx → SharedPtr_Reset x p c σ = Ret () σ) ∧
  ∃ σ1, SharedPtr_Release x σ = Ret () σ1 ∧
    (p ≠ ptr_ hx → p ≠ nullptr → c ≠ nullptr → heap σ1 !! c = None →
       let σ' := mkState (<[c := mkCounter 1 0]> (heap σ1))
                   (<[x := mkHandle p c]> (shared σ)) (weak σ)
                   (EvNewCounter c :: trace σ1) in
       SharedPtr_Reset x p c σ = Ret () σ' ∧ SharedPtr_UseCount x σ' = Ret 1 σ') ∧
    (p = nullptr →
       let σ' := mkState (heap σ1) (<[x := mkHandle nullptr nullptr]> (shared σ))
                   (weak σ) (trace σ1) in
       SharedPtr_Reset x p c σ = Ret () σ' ∧ SharedPtr_UseCount x σ' = Ret 0 σ').
Proof.
  intros Hwf Hx. split.
  - intros ->. unfold SharedPtr_Reset. rewrite run_bind, (run_this_shared _ _ _ Hx).
    by rewrite bool_decide_eq_false_2 by (intros ?; done).
  - destruct (SharedPtr_Release_wf σ x hx Hwf Hx) as (σ1 & HR & Hs1 & Hw1 & _).
    exists σ1. split; [done|]. split.
    + intros Hne Hp Hc Hcb σ'. split.
      * unfold SharedPtr_Reset. rewrite run_bind, (run_this_shared _ _ _ Hx).
        rewrite bool_decide_eq_true_2 by done. rewrite run_bind, HR.
        rewrite bool_decide_eq_true_2 by done.
        rewrite run_bind, run_new_Counter by done.
        rewrite (run_set_shared _ x _ hx) by (simpl; by rewrite Hs1).
        unfold σ'. simpl. by rewrite Hs1, Hw1.
      * apply (run_SharedPtr_UseCount σ' x (mkHandle p c) (mkCounter 1 0)); unfold σ'; simpl;
          by rewrite ?lookup_insert_eq.
    + intros -> σ'. split.
      * unfold SharedPtr_Reset. rewrite run_bind, (run_this_shared _ _ _ Hx).
        destruct (decide (ptr_ hx = nullptr)) as [Hp|Hp].
        -- rewrite bool_decide_eq_false_2 by (intros ?; congruence).
           assert (counter_ hx = nullptr) as Hc by (by apply (wf_shared_null _ Hwf _ _ Hx)).
           rewrite (SharedPtr_Release_null _ _ _ Hx Hc) in HR. injection HR as <-.
           unfold σ', skip. rewrite run_ret. destruct σ as [hp sh wk tr]; simpl in *.
           do 2 f_equal. symmetry. apply insert_id. destruct hx; simpl in *; by subst.
        -- rewrite bool_decide_eq_true_2 by congruence. rewrite run_bind, HR.
           rewrite bool_decide_eq_false_2 by (intros ?; done).
           rewrite (run_set_shared _ x _ hx) by (by rewrite Hs1).
           unfold σ'. simpl. by rewrite Hs1, Hw1.
      * apply (run_SharedPtr_UseCount_null σ' x (mkHandle nullptr nullptr)); unfold σ'; simpl;
          by rewrite ?lookup_insert_eq.
Qed.

(** *** Moves *)

Lemma SharedPtr_Release_frame σ σ1 x hx c :
  wf σ → shared σ !! x = Some hx → SharedPtr_Release x σ = Ret () σ1 →
  c ≠ counter_ hx → heap σ1 !! c = heap σ !! c.
Proof.
  intros Hwf Hx HR Hne.
  destruct (SharedPtr_Release_wf σ x hx Hwf Hx) as (σ2 & HR2 & _ & _ & _ & _ & Hf).
  rewrite HR in HR2. injection HR2 as <-. by apply Hf.
Qed.

Lemma WeakPtr_Release_frame σ σ1 x hx c :
  wf σ → weak σ !! x = Some hx → WeakPtr_Release x σ = Ret () σ1 →
  c ≠ counter_ hx → heap σ1 !! c = heap σ !! c.
Proof.
  intros Hwf Hx HR Hne.
  destruct (WeakPtr_Release_wf σ x hx Hwf Hx) as (σ2 & HR2 & _ & _ & _ & _ & Hf).
  rewrite HR in HR2. injection HR2 as <-. by apply Hf.
Qed.

Lemma SharedPtr_UseCount_same σ σ' x y h :
  shared σ !! y = Some h → shared σ' !! x = Some h →
  heap σ' !! counter_ h = heap σ !! counter_ h →
  ∀ n, SharedPtr_UseCount y σ = Ret n σ → SharedPtr_UseCount x σ' = Ret n σ'.
Proof.
  intros Hy Hx Hh n. unfold SharedPtr_UseCount.
  rewrite !run_bind, (run_this_shared _ _ _ Hy), (run_this_shared _ _ _ Hx).
  case_bool_decide; [|by intros [= <-]].
  rewrite !run_bind. unfold load. rewrite Hh.
  destruct (heap σ !! counter_ h); [|done]. by intros [= <-].
Qed.

Lemma WeakPtr_UseCount_same σ σ' x y h :
  weak σ !! y = Some h → weak σ' !! x = Some h →
  heap σ' !! counter_ h = heap σ !! counter_ h →
  ∀ n, WeakPtr_UseCount y σ = Ret n σ → WeakPtr_UseCount x σ' = Ret n σ'.
Proof.
  intros Hy Hx Hh n. unfold WeakPtr_UseCount.
  rewrite !run_bind, (run_this_weak _ _ _ Hy), (run_this_weak _ _ _ Hx).
  case_bool_decide; [|by intros [= <-]].
  rewrite !run_bind. unfold load. rewrite Hh.
  destruct (heap σ !! counter_ h); [|done]. by intros [= <-].
Qed.

Lemma moved_shared_intro σ σ' x y hy :
  x ≠ y → shared σ !! y = Some hy →
  shared σ' = <[y := mkHandle nullptr nullptr]> (<[x := hy]> (shared σ)) →
  weak σ' = weak σ → moved_shared σ σ' x y hy.
Proof.
  intros Hne Hy Hs Hw.
  assert (shared σ' !! y = Some (mkHandle nullptr nullptr)) as Hy'
    by (by rewrite Hs, lookup_insert_eq).
  assert (shared σ' !! x = Some hy) as Hx'
    by (by rewrite Hs, lookup_insert_ne, lookup_insert_eq).
  split_and!; try done.
  - unfold SharedPtr_Get. by rewrite run_bind, (run_this_shared _ _ _ Hy').
  - by apply (run_SharedPtr_UseCount_null _ _ _ Hy').
  - unfold SharedPtr_Get. by rewrite run_bind, (run_this_shared _ _ _ Hx').
  - intros Hh. by apply (SharedPtr_UseCount_same σ σ' x y hy).
Qed.

Lemma moved_weak_intro σ σ' x y hy :
  x ≠ y → weak σ !! y = Some hy →
  weak σ' = <[y := mkHandle nullptr nullptr]> (<[x := hy]> (weak σ)) →
  shared σ' = shared σ → moved_weak σ σ' x y hy.
Proof.
  intros Hne Hy Hw Hs.
  assert (weak σ' !! y = Some (mkHandle nullptr nullptr)) as Hy'
    by (by rewrite Hw, lookup_insert_eq).
  assert (weak σ' !! x = Some hy) as Hx'
    by (by rewrite Hw, lookup_insert_ne, lookup_insert_eq).
  split_and!; try done.
  - by apply (run_WeakPtr_UseCount_null _ _ _ Hy').
  - intros Hh. by apply (WeakPtr_UseCount_same σ σ' x y hy).
Qed.

(** C7, as the code has it, for a destination [x] and a source [y] that are
    two different handles.  Move construction changes no control block and
    writes nothing to the log; the destination takes the source's fields and
    the source becomes null.  Move assignment first runs [Release] on the
    destination and then does the same; the source's block is left as it was
    whenever the destination did not refer to that same block. *)
Theorem move_transfers σ x y :
  wf σ → x ≠ y →
  (∀ hy, shared σ !! y = Some hy →
     (shared σ !! x = None →
        ∃ σ', SharedPtr_ctor_move x y σ = Ret () σ' ∧
          heap σ' = heap σ ∧ trace σ' = trace σ ∧ moved_shared σ σ' x y hy) ∧
     (∀ hx, shared σ !! x = Some hx →
        ∃ σ1 σ', SharedPtr_Release x σ = Ret () σ1 ∧
          SharedPtr_assign_move x y σ = Ret () σ' ∧
          heap σ' = heap σ1 ∧ trace σ' = trace σ1 ∧ moved_shared σ σ' x y hy ∧
          (counter_ hx = nullptr ∨ counter_ hx ≠ counter_ hy →
           heap σ' !! counter_ hy = heap σ !! counter_ hy) ∧
          (counter_ hx = counter_ hy → counter_ hy ≠ nullptr →
           ∃ cb, heap σ !! counter_ hy = Some cb ∧
             heap σ' !! counter_ hy =
               Some (mkCounter (strong_count cb - 1) (weak_count cb))))) ∧
  (∀ hy, weak σ !! y = Some hy →
     (weak σ !! x = None →
        ∃ σ', WeakPtr_ctor_move x y σ = Ret () σ' ∧
          heap σ' = heap σ ∧ trace σ' = trace σ ∧ moved_weak σ σ' x y hy) ∧
     (∀ hx, weak σ !! x = Some hx →
        ∃ σ1 σ', WeakPtr_Release x σ = Ret () σ1 ∧
          WeakPtr_assign_move x y σ = Ret () σ' ∧
          heap σ' = heap σ1 ∧ trace σ' = trace σ1 ∧ moved_weak σ σ' x y hy ∧
          (counter_ hx = nullptr ∨ counter_ hx ≠ counter_ hy →
           heap σ' !! counter_ hy = heap σ !! counter_ hy) ∧
          (counter_ hx = counter_ hy → counter_ hy ≠ nullptr →
           ∃ cb, heap σ !! counter_ hy = Some cb ∧
             heap σ' !! counter_ hy =
               Some (mkCounter (strong_count cb) (weak_count cb - 1))))).
Proof.
  intros Hwf Hne. split; intros [py cy] Hy; split.
  - intros Hx. eexists. split.
    + unfold SharedPtr_ctor_move. rewrite run_bind, (run_this_shared _ _ _ Hy).
      rewrite run_bind, run_init_shared by done.
      by rewrite (run_set_shared _ y _ (mkHandle py cy))
        by (simpl; by rewrite lookup_insert_ne).
    + simpl. split_and!; try done. by apply moved_shared_intro.
  - intros hx Hx.
    destruct (SharedPtr_Release_wf σ x hx Hwf Hx) as (σ1 & HR & Hs1 & Hw1 & _ & _ & Hf).
    exists σ1. eexists. split; [done|]. split.
    + unfold SharedPtr_assign_move.
      rewrite run_bind, (run_this_shared _ _ _ Hx).
      rewrite run_bind, (run_this_shared _ _ _ Hy).
      rewrite bool_decide_eq_true_2 by done. rewrite run_bind, HR.
      rewrite run_bind, (run_this_shared σ1 y (mkHandle py cy)) by (by rewrite Hs1).
      rewrite run_bind, (run_set_shared σ1 x _ hx) by (by rewrite Hs1).
      by rewrite (run_set_shared _ y _ (mkHandle py cy))
        by (simpl; by rewrite lookup_insert_ne, Hs1).
    + simpl. split_and!; try done.
      * apply moved_shared_intro; simpl; by rewrite ?Hs1, ?Hw1.
      * intros [Hc|Hc]; [|apply Hf; simpl; congruence].
        rewrite (SharedPtr_Release_null _ _ _ Hx Hc) in HR. by injection HR as <-.
      * simpl. intros Hc Hnz.
        assert (counter_ hx ≠ nullptr) as Hcx by congruence.
        destruct (wf_shared_alloc _ Hwf _ _ Hx Hcx) as [cb Hcb].
        destruct (wf_block _ _ _ Hwf Hcb) as (_ & Es & _ & Hrs & _).
        pose proof (refs_two _ _ _ _ _ Hx Hy Hne Hc) as H2. simpl in H2.
        rewrite <-Hc in H2.
        assert (ptr_ hx ≠ nullptr) as Hp.
        { intros Hp. by apply Hcx, (wf_shared_null _ Hwf _ _ Hx). }
        rewrite (SharedPtr_Release_eq _ _ _ _ Hx Hcx Hp Hcb) in HR by lia.
        rewrite decide_False in HR by lia. injection HR as <-. simpl.
        exists cb. rewrite <-Hc. split; [done|]. by rewrite lookup_insert_eq.
  - intros Hx. eexists. split.
    + unfold WeakPtr_ctor_move. rewrite run_bind, (run_this_weak _ _ _ Hy).
      rewrite run_bind, run_init_weak by done.
      by rewrite (run_set_weak _ y _ (mkHandle py cy))
        by (simpl; by rewrite lookup_insert_ne).
    + simpl. split_and!; try done. by apply moved_weak_intro.
  - intros hx Hx.
    destruct (WeakPtr_Release_wf σ x hx Hwf Hx) as (σ1 & HR & Hs1 & Hw1 & _ & _ & Hf).
    exists σ1. eexists. split; [done|]. split.
    + unfold WeakPtr_assign_move.
      rewrite run_bind, (run_this_weak _ _ _ Hx).
      rewrite run_bind, (run_this_weak _ _ _ Hy).
      rewrite bool_decide_eq_true_2 by done. rewrite run_bind, HR.
      rewrite run_bind, (run_this_weak σ1 y (mkHandle py cy)) by (by rewrite Hw1).
      rewrite run_bind, (run_set_weak σ1 x _ hx) by (by rewrite Hw1).
      by rewrite (run_set_weak _ y _ (mkHandle py cy))
        by (simpl; by rewrite lookup_insert_ne, Hw1).
    + simpl. split_and!; try done.
      * apply moved_weak_intro; simpl; by rewrite ?Hs1, ?Hw1.
      * intros [Hc|Hc]; [|apply Hf; simpl; congruence].
        rewrite (WeakPtr_Release_null _ _ _ Hx Hc) in HR. by injection HR as <-.
      * simpl. intros Hc Hnz.
        assert (counter_ hx ≠ nullptr) as Hcx by congruence.
        destruct (wf_weak_alloc _ Hwf _ _ Hx Hcx) as [cb Hcb].
        destruct (wf_block _ _ _ Hwf Hcb) as (_ & _ & Ew & _ & Hrw).
        pose proof (refs_two _ _ _ _ _ Hx Hy Hne Hc) as H2. simpl in H2.
        rewrite <-Hc in H2.
        rewrite (WeakPtr_Release_eq _ _ _ _ Hx Hcx Hcb) in HR by lia.
        rewrite decide_False in HR by lia. injection HR as <-. simpl.
        exists cb. rewrite <-Hc. split; [done|]. by rewrite lookup_insert_eq.
Qed.

(** ** Concrete programs *)

Lemma run_fits_reachable prog σ σ' :
  reachable σ → run_fits prog σ = Some σ' → reachable σ'.
Proof.
  revert σ. induction prog as [|o prog IH]; intros σ Hr; simpl.
  - by intros [= <-].
  - case_bool_decide as Hfit; [|done].
    destruct (exec o σ) as [[] σ1|σ1| |] eqn:Hex; try done.
    + apply IH. by apply (reachable_ret o σ).
    + apply IH. by apply (reachable_throw o σ).
Qed.

Lemma reachable_st_sw : reachable st_sw.
Proof. apply (run_fits_reachable prog_sw init); [apply reachable_init|by vm_compute]. Qed.
Lemma reachable_st_abw : reachable st_abw.
Proof. apply (run_fits_reachable prog_abw init); [apply reachable_init|by vm_compute]. Qed.
Lemma reachable_st_nsw : reachable st_nsw.
Proof. apply (run_fits_reachable prog_nsw init); [apply reachable_init|by vm_compute]. Qed.

Lemma fits_st_sw : fits st_sw.
Proof. by vm_compute. Qed.
Lemma fits_st_abw : fits st_abw.
Proof. by vm_compute. Qed.

(** *** C1 *)

(** [a] and [b] share object 5; [a.Reset(5)] leaves [a.UseCount()] at 2 and
    allocates nothing. *)
Lemma Reset_same_pointer_counterexample :
  SharedPtr_Get "a" st_abw = Ret 5%N st_abw ∧
  SharedPtr_Reset "a" 5 2 st_abw = Ret () st_abw ∧
  SharedPtr_UseCount "a" st_abw = Ret 2 st_abw ∧
  ¬ (∃ σ', SharedPtr_Reset "a" 5 2 st_abw = Ret () σ' ∧
           SharedPtr_UseCount "a" σ' = Ret 1 σ').
Proof.
  split_and!; try by vm_compute.
  intros (σ' & H1 & H2).
  assert (SharedPtr_Reset "a" 5 2 st_abw = Ret () st_abw) as E by (by vm_compute).
  rewrite E in H1. injection H1 as <-. revert H2. by vm_compute.
Qed.

Lemma Reset_releases_then_adopts_witness :
  ∃ σ', SharedPtr_Reset "a" 7 2 st_abw = Ret () σ' ∧ SharedPtr_UseCount "a" σ' = Ret 1 σ'.
Proof.
  destruct (Reset_releases_then_adopts st_abw "a" (mkHandle 5 1) 7 2
              (reachable_wf _ reachable_st_abw) eq_refl) as (_ & σ1 & HR & Hadopt & _).
  assert (σ1 = mkState {[1%N := mkCounter 1 1]} (shared st_abw) (weak st_abw) (trace st_abw))
    as -> by (revert HR; vm_compute; congruence).
  eexists. apply Hadopt; by vm_compute.
Defined.

(** *** C2 and C3: the sole owner assigned from its own observer *)

(** C2 on the code: [s] is the only [SharedPtr] on block 1 and [w] observes
    it.  Within [s = w] the call of [Release] takes the block from [Live] to
    [ExpiredObserved] and deletes object 5; the increment that follows takes
    it back to [Live], and [s.Get()] is still 5. *)
Theorem assign_from_own_observer_revives :
  heap st_sw !! 1%N = Some (mkCounter 1 1) ∧
  block_state st_sw 1 = Live ∧
  ∃ σ_mid σ',
    SharedPtr_Release "s" st_sw = Ret () σ_mid ∧
    heap σ_mid !! 1%N = Some (mkCounter 0 1) ∧
    block_state σ_mid 1 = ExpiredObserved ∧
    trace σ_mid = [EvDeleteObject 5 1; EvNewCounter 1] ∧
    SharedPtr_assign_weak "s" "w" st_sw = Ret () σ' ∧
    block_state σ' 1 = Live ∧
    heap σ' !! 1%N = Some (mkCounter 1 1) ∧
    trace σ' = [EvDeleteObject 5 1; EvNewCounter 1] ∧
    SharedPtr_Get "s" σ' = Ret 5%N σ'.
Proof.
  split; [by vm_compute|]. split; [by vm_compute|]. do 2 eexists.
  split; [by vm_compute|]. split; [by vm_compute|]. split; [by vm_compute|].
  split; [by vm_compute|]. split; [by vm_compute|]. split_and!; by vm_compute.
Qed.

(** C3 on the code: when [s], the only owner, is assigned from its own
    observer [w] and both are destroyed afterwards, [delete] runs twice on
    object 5 and once on the control block. *)
Theorem object_deleted_twice :
  ∃ σ', run (prog_sw ++ [SAssignWeak "s" "w"; SDtor "s"; WDtor "w"]) init = Some σ' ∧
    heap σ' = ∅ ∧ shared σ' = ∅ ∧ weak σ' = ∅ ∧
    trace σ' = [EvDeleteCounter 1; EvDeleteObject 5 1; EvDeleteObject 5 1; EvNewCounter 1] ∧
    count_occ event_eq_dec (trace σ') (EvDeleteObject 5 1) = 2%nat ∧
    count_occ event_eq_dec (trace σ') (EvDeleteCounter 1) = 1%nat.
Proof.
  eexists. split; [by vm_compute|]. split_and!; by vm_compute.
Qed.

(** *** C4 *)

(** [a] and [b] share block 1 and [w] observes it; after [a = w] the
    [strong_count] is 2 as before, not 3. *)
Lemma promotion_same_block_counterexample :
  WeakPtr_Expired "w" st_abw = Ret false st_abw ∧
  SharedPtr_UseCount "a" st_abw = Ret 2 st_abw ∧
  ¬ (∃ σ', SharedPtr_assign_weak "a" "w" st_abw = Ret () σ' ∧
           SharedPtr_UseCount "a" σ' = Ret (2 + 1) σ').
Proof.
  split_and!; try by vm_compute.
  intros (σ' & H1 & H2). revert H1. vm_compute. intros [= <-]. revert H2. by vm_compute.
Qed.

Lemma promotion_from_weak_witness :
  (∃ σ', SharedPtr_ctor_weak "t" "w" st_sw = Ret () σ' ∧
         shared σ' !! "t" = Some (mkHandle 5 1) ∧
         heap σ' !! 1%N = Some (mkCounter 2 1)) ∧
  (∃ σ', SharedPtr_assign_weak "a" "w" st_abw = Ret () σ' ∧
         trace σ' = trace st_abw).
Proof.
  split.
  - destruct (promotion_from_weak st_sw "w" (mkHandle 5 1)
                (reachable_wf _ reachable_st_sw) fits_st_sw eq_refl) as [_ Hlive].
    destruct (Hlive eq_refl) as (cb & Hcb & Hctor & _).
    assert (cb = mkCounter 1 1) as -> by (revert Hcb; vm_compute; congruence).
    exact (Hctor "t" eq_refl).
  - destruct (promotion_from_weak st_abw "w" (mkHandle 5 1)
                (reachable_wf _ reachable_st_abw) fits_st_abw eq_refl) as [_ Hlive].
    destruct (Hlive eq_refl) as (cb & Hcb & _ & Hassign).
    assert (cb = mkCounter 2 1) as -> by (revert Hcb; vm_compute; congruence).
    destruct (Hassign "a" (mkHandle 5 1) eq_refl) as (σ1 & σ' & cb' & _ & Hex & _ & _ & _ & _ & _ & Hsame);
      [done|].
    exists σ'. split; [done|]. by apply Hsame.
Defined.

(** *** C5 *)

Lemma Lock_never_throws_witness :
  ∃ σ', WeakPtr_Lock "w" "r" st_sw = Ret () σ' ∧ SharedPtr_Get "r" σ' = Ret 5%N σ'.
Proof.
  destruct (Lock_never_throws st_sw "w" (mkHandle 5 1) "r"
              (reachable_wf _ reachable_st_sw) fits_st_sw eq_refl eq_refl)
    as (σ' & HL & _ & _ & Hlive & _).
  exists σ'. split; [done|]. by apply Hlive.
Defined.

(** *** C6 *)

Lemma counts_match_live_handles_witness :
  reachable st_abw ∧
  SharedPtr_UseCount "b" st_abw = Ret (Z.of_nat (refs 1 (shared st_abw))) st_abw.
Proof.
  split; [apply reachable_st_abw|].
  apply (proj2 (counts_match_live_handles st_abw reachable_st_abw) "b" (mkHandle 5 1));
    by vm_compute.
Defined.

(** *** C7 *)

(** [a] and [b] share block 1; before [a = std::move(b)] the source [b]
    reports a use count of 2, afterwards the destination [a] reports 1. *)
Lemma move_assign_same_block_counterexample :
  SharedPtr_UseCount "b" st_abw = Ret 2 st_abw ∧
  ¬ (∃ σ', SharedPtr_assign_move "a" "b" st_abw = Ret () σ' ∧
           SharedPtr_UseCount "a" σ' = Ret 2 σ').
Proof.
  split; [by vm_compute|].
  intros (σ' & H1 & H2). revert H1. vm_compute. intros [= <-]. revert H2. by vm_compute.
Qed.

Lemma move_transfers_witness :
  ∃ σ', SharedPtr_ctor_move "c" "a" st_abw = Ret () σ' ∧
        SharedPtr_Get "a" σ' = Ret nullptr σ' ∧ SharedPtr_UseCount "a" σ' = Ret 0 σ' ∧
        SharedPtr_Get "c" σ' = Ret 5%N σ' ∧ SharedPtr_UseCount "c" σ' = Ret 2 σ'.
Proof.
  assert ("c" ≠ "a") as Hne by done.
  destruct (proj1 (move_transfers st_abw "c" "a" (reachable_wf _ reachable_st_abw) Hne)
              (mkHandle 5 1) eq_refl) as [Hctor _].
  destruct (Hctor eq_refl) as (σ' & Hex & Hheap & _ & (_ & _ & Hg & Hu & Hgx & Hux)).
  exists σ'. split_and!; try done.
  apply Hux; [by rewrite Hheap|by vm_compute].
Defined.

(** *** C8 *)

Lemma self_assignment_is_noop_witness :
  (SharedPtr_assign_copy "s" "s" st_sw = Ret () st_sw ∧
   SharedPtr_assign_move "s" "s" st_sw = Ret () st_sw) ∧
  (WeakPtr_assign_copy "w" "w" st_sw = Ret () st_sw ∧
   WeakPtr_assign_move "w" "w" st_sw = Ret () st_sw).
Proof.
  split.
  - apply (proj1 (self_assignment_is_noop st_sw "s")). by exists (mkHandle 5 1).
  - apply (proj2 (self_assignment_is_noop st_sw "w")). by exists (mkHandle 5 1).
Defined.

(** *** C9 *)

Lemma fields_null_together_witness :
  reachable st_nsw ∧
  shared st_nsw !! "n" = Some (mkHandle nullptr nullptr) ∧
  ∀ c cb, heap st_nsw !! c = Some cb → nullptr ≠ c.
Proof.
  split; [apply reachable_st_nsw|]. split; [by vm_compute|].
  apply (proj1 (fields_null_together st_nsw reachable_st_nsw) "n" (mkHandle nullptr nullptr));
    by vm_compute.
Defined.

(** *** C10 *)

Lemma weak_from_null_shared_witness :
  ∃ σ', WeakPtr_assign_shared "w" "n" st_nsw = Ret () σ' ∧
        WeakPtr_UseCount "w" σ' = Ret 0 σ' ∧ WeakPtr_Expired "w" σ' = Ret true σ'.
Proof.
  destruct (proj2 (weak_from_null_shared st_nsw "n" (mkHandle nullptr nullptr) "w"
                     (reachable_wf _ reachable_st_nsw) eq_refl eq_refl)
              (mkHandle 5 1) eq_refl) as (σ1 & _ & H).
  eexists. exact H.
Defined.

(** * Further properties *)

(** ** The log and the blocks stay balanced *)

Lemma post_mono (Q Q' : state → Prop) r :
  post Q r → (∀ σ', Q σ' → Q' σ') → post Q' r.
Proof. destruct r; simpl; auto. Qed.


Lemma post_ret Q r σ' : post Q r → r = Ret () σ' → Q σ'.
Proof. by intros H ->. Qed.

Lemma bal_init : balanced init.
Proof. by intros c. Qed.

Section bal.
Context (hp : gmap N Counter) (tr : list event).
Hypothesis Hbal : bal hp tr.

Lemma bal_store c cb cb' :
  hp !! c = Some cb → (strong_count cb = 0 ↔ strong_count cb' = 0) →
  bal (<[c:=cb']> hp) tr.
Proof.
  intros Hcb Hz c'. specialize (Hbal c'). unfold owning, allocated in *.
  destruct (decide (c' = c)) as [->|Hne].
  - rewrite lookup_insert_eq. rewrite Hcb in Hbal.
    by rewrite (bool_decide_ext _ _ Hz) in Hbal.
  - by rewrite lookup_insert_ne.
Qed.

Lemma bal_new c :
  hp !! c = None → bal (<[c:=Counter_ctor]> hp) (EvNewCounter c :: tr).
Proof.
  intros Hcb c'. specialize (Hbal c'). unfold owning, allocated, news, frees, destroys in *.
  simpl. destruct (decide (c = c')) as [<-|Hne].
  - rewrite lookup_insert_eq. rewrite Hcb in Hbal.
    rewrite bool_decide_eq_true_2 by done. simpl. lia.
  - rewrite lookup_insert_ne by done. by rewrite bool_decide_eq_false_2 by done.
Qed.

Lemma bal_expire p c cb :
  hp !! c = Some cb → strong_count cb ≠ 0 →
  bal (<[c:=mkCounter 0 (weak_count cb)]> hp) (EvDeleteObject p c :: tr).
Proof.
  intros Hcb Hs c'. specialize (Hbal c'). unfold owning, allocated, news, frees, destroys in *.
  simpl. destruct (decide (c = c')) as [<-|Hne].
  - rewrite lookup_insert_eq. rewrite Hcb in Hbal. simpl.
    rewrite bool_decide_eq_false_2 in Hbal by done.
    rewrite bool_decide_eq_true_2 by done. simpl. lia.
  - rewrite lookup_insert_ne by done. by rewrite bool_decide_eq_false_2 by done.
Qed.

Lemma bal_free c cb :
  hp !! c = Some cb → strong_count cb = 0 →
  bal (delete c hp) (EvDeleteCounter c :: tr).
Proof.
  intros Hcb Hs c'. specialize (Hbal c'). unfold owning, allocated, news, frees, destroys in *.
  simpl. destruct (decide (c = c')) as [<-|Hne].
  - rewrite lookup_delete_eq. rewrite Hcb in Hbal.
    rewrite bool_decide_eq_true_2 in Hbal by done.
    rewrite bool_decide_eq_true_2 by done. simpl. lia.
  - rewrite lookup_delete_ne by done. by rewrite bool_decide_eq_false_2 by done.
Qed.
End bal.

Lemma balanced_ext σ σ' :
  heap σ' = heap σ → trace σ' = trace σ → balanced σ → balanced σ'.
Proof. unfold balanced. by intros -> ->. Qed.

Lemma balanced_Release_shared σ σ1 x h :
  wf σ → shared σ !! x = Some h → SharedPtr_Release x σ = Ret () σ1 →
  balanced σ → balanced σ1.
Proof.
  intros Hwf Hx HR Hbal. destruct (decide (counter_ h = nullptr)) as [Hc|Hc].
  - rewrite (SharedPtr_Release_null _ _ _ Hx Hc) in HR. by injection HR as <-.
  - destruct (wf_shared_alloc _ Hwf _ _ Hx Hc) as [cb Hcb].
    destruct (wf_block _ _ _ Hwf Hcb) as (_ & Es & Ew & Hrs & Hrw).
    pose proof (refs_pos _ _ _ Hx) as Hpos.
    assert (ptr_ h ≠ nullptr) as Hp.
    { intros Hp. by apply Hc, (wf_shared_null _ Hwf _ _ Hx). }
    rewrite (SharedPtr_Release_eq _ _ _ _ Hx Hc Hp Hcb) in HR by lia.
    injection HR as <-. unfold balanced in *.
    destruct (decide (strong_count cb = 1)) as [E1|E1];
      [destruct (decide (weak_count cb = 0)) as [E2|E2]|]; simpl.
    + rewrite <-(delete_insert_eq (heap σ) (counter_ h) (mkCounter 0 (weak_count cb))).
      apply (bal_free _ _ (bal_expire _ _ Hbal (ptr_ h) _ cb Hcb ltac:(lia)) _
               (mkCounter 0 (weak_count cb))); [by rewrite lookup_insert_eq|done].
    + apply (bal_expire _ _ Hbal); [done|lia].
    + apply (bal_store _ _ Hbal _ cb); [done|]. simpl. lia.
Qed.

Lemma balanced_Release_weak σ σ1 x h :
  wf σ → weak σ !! x = Some h → WeakPtr_Release x σ = Ret () σ1 →
  balanced σ → balanced σ1.
Proof.
  intros Hwf Hx HR Hbal. destruct (decide (counter_ h = nullptr)) as [Hc|Hc].
  - rewrite (WeakPtr_Release_null _ _ _ Hx Hc) in HR. by injection HR as <-.
  - destruct (wf_weak_alloc _ Hwf _ _ Hx Hc) as [cb Hcb].
    destruct (wf_block _ _ _ Hwf Hcb) as (_ & Es & Ew & Hrs & Hrw).
    pose proof (refs_pos _ _ _ Hx) as Hpos.
    rewrite (WeakPtr_Release_eq _ _ _ _ Hx Hc Hcb) in HR by lia.
    injection HR as <-. unfold balanced in *.
    destruct (decide (weak_count cb = 1 ∧ strong_count cb = 0)) as [[E1 E2]|E1]; simpl.
    + by apply (bal_free _ _ Hbal _ cb).
    + by apply (bal_store _ _ Hbal _ cb).
Qed.

Lemma open_shared_owned x y h σ :
  open_shared x σ → y ≠ x → shared σ !! y = Some h → counter_ h ≠ nullptr →
  ∀ cb, heap σ !! counter_ h = Some cb → strong_count cb ≠ 0.
Proof.
  intros (sh0 & Hn & Hb & Hs & Hw & Hv & Hsh & Hsz) Hne Hy Hc cb Hcb.
  rewrite <-(insert_eq_lookup_ne _ _ _ _ Hsh Hne) in Hy.
  destruct (blocks_alloc_shared _ _ _ _ _ Hb Hy Hc) as (cb' & Hcb' & Es & _).
  pose proof (refs_pos _ _ _ Hy). assert (cb' = cb) as -> by congruence. lia.
Qed.

(** The tails of the acquiring members. *)

Lemma acquire_shared_post x p c σ1 :
  open_shared x σ1 → c ≠ nullptr → is_Some (heap σ1 !! c) →
  post (λ σ', balanced σ1 →
              (∀ cb, heap σ1 !! c = Some cb → strong_count cb ≠ 0) → balanced σ')
       ((incr_strong c ≫= λ _ : Z, skip) (with_shared (insert x (mkHandle p c)) σ1)).
Proof.
  intros Ho Hc [cb Hcb].
  destruct (open_shared_incr_ok x σ1 c cb Ho Hc Hcb) as [? ?].
  rewrite run_bind, (run_incr_strong _ _ cb) by done. simpl.
  intros Hbal Hs. unfold balanced. simpl.
  apply (bal_store _ _ Hbal _ cb); [done|]. simpl. specialize (Hs cb Hcb). lia.
Qed.

Lemma open_weak_incr_ok x σ c cb :
  open_weak x σ → c ≠ nullptr → heap σ !! c = Some cb →
  0 ≤ weak_count cb ∧ weak_count cb + 1 < SIZE_MODULUS.
Proof.
  intros (wk0 & Hn & Hb & Hs & Hw & Hv & Hwk & Hsz) Hc Hcb.
  specialize (Hb c Hc). unfold block_ok in Hb. rewrite Hcb in Hb.
  pose proof (refs_le_size wk0 c). unfold SIZE_MAX in *. lia.
Qed.

Lemma acquire_weak_post x p c σ1 :
  open_weak x σ1 → c ≠ nullptr → is_Some (heap σ1 !! c) →
  post (λ σ', balanced σ1 → balanced σ')
       ((incr_weak c ≫= λ _ : Z, skip) (with_weak (insert x (mkHandle p c)) σ1)).
Proof.
  intros Ho Hc [cb Hcb].
  destruct (open_weak_incr_ok x σ1 c cb Ho Hc Hcb) as [? ?].
  rewrite run_bind, (run_incr_weak _ _ cb) by done. simpl.
  intros Hbal. unfold balanced. simpl.
  by apply (bal_store _ _ Hbal _ cb).
Qed.

(** ** No operation uses a deallocated block, and each keeps the balance *)

Ltac got_shared x h H :=
  rewrite run_bind; unfold this_shared at 1;
  destruct (shared _ !! x) as [h|] eqn:H; [|exact I].
Ltac got_weak x h H :=
  rewrite run_bind; unfold this_weak at 1;
  destruct (weak _ !! x) as [h|] eqn:H; [|exact I].
Ltac fresh_shared x H :=
  rewrite run_bind; unfold unused_shared at 1;
  destruct (shared _ !! x) eqn:H; [exact I|].
Ltac fresh_weak x H :=
  rewrite run_bind; unfold unused_weak at 1;
  destruct (weak _ !! x) eqn:H; [exact I|].

Section posts.
Context (σ : state).
Hypothesis Hwf : wf σ.
Hypothesis Hfit : fits σ.

Lemma SharedPtr_ctor_post x :
  post (λ σ', balanced σ → balanced σ') (SharedPtr_ctor x σ).
Proof.
  unfold SharedPtr_ctor, init_shared. fresh_shared x Hx. by simpl.
Qed.

Lemma SharedPtr_ctor_ptr_post x p c :
  post (λ σ', balanced σ → balanced σ') (SharedPtr_ctor_ptr x p c σ).
Proof.
  unfold SharedPtr_ctor_ptr. fresh_shared x Hx. rewrite run_bind.
  case_bool_decide as Hp.
  - unfold new_Counter. case_bool_decide as Hc; [exact I|].
    destruct (heap σ !! c) eqn:Hcb; [exact I|].
    rewrite run_init_shared by done. simpl. intros Hbal. by apply bal_new.
  - rewrite run_ret, run_init_shared by done. by simpl.
Qed.

Lemma SharedPtr_ctor_copy_post x y :
  post (λ σ', balanced σ → balanced σ') (SharedPtr_ctor_copy x y σ).
Proof.
  unfold SharedPtr_ctor_copy. got_shared y hy Hy. rewrite run_bind.
  destruct (shared σ !! x) eqn:Hx; [by erewrite run_init_shared_used|].
  rewrite run_init_shared by done.
  pose proof (open_shared_fresh x σ Hwf Hfit Hx) as Ho.
  assert (y ≠ x) as Hne by congruence.
  case_bool_decide as Hc; [|by simpl].
  eapply post_mono.
  - apply acquire_shared_post; try done.
    by apply (open_shared_alloc_shared x y hy σ).
  - simpl. intros σ' HQ Hbal. apply HQ; [done|].
    by apply (open_shared_owned x y hy σ).
Qed.

Lemma SharedPtr_ctor_move_post x y :
  post (λ σ', balanced σ → balanced σ') (SharedPtr_ctor_move x y σ).
Proof.
  unfold SharedPtr_ctor_move. got_shared y hy Hy. rewrite run_bind.
  destruct (shared σ !! x) eqn:Hx; [by erewrite run_init_shared_used|].
  rewrite run_init_shared by done.
  assert (y ≠ x) as Hne by congruence.
  rewrite (run_set_shared _ y _ hy) by (simpl; by rewrite lookup_insert_ne).
  by simpl.
Qed.

Lemma SharedPtr_ctor_weak_post x w :
  post (λ σ', balanced σ → balanced σ') (SharedPtr_ctor_weak x w σ).
Proof.
  unfold SharedPtr_ctor_weak. fresh_shared x Hx. rewrite run_bind.
  destruct (weak σ !! w) as [hw|] eqn:Hw;
    [|by unfold WeakPtr_Expired, WeakPtr_UseCount, this_weak; rewrite !run_bind, Hw].
  destruct (WeakPtr_Expired_wf σ Hwf w hw Hw) as (b & He & Hb). rewrite He.
  destruct b; [exact I|].
  destruct (WeakPtr_Expired_false_inv σ w hw Hwf Hw He) as (Hc & cb & Hcb & Hs).
  rewrite run_bind, (run_this_weak _ _ _ Hw).
  rewrite run_bind, run_init_shared by done.
  pose proof (open_shared_fresh x σ Hwf Hfit Hx) as Ho.
  eapply post_mono.
  - apply acquire_shared_post; try done; by exists cb.
  - simpl. intros σ' HQ Hbal. apply HQ; [done|]. intros cb' Hcb'. congruence.
Qed.

Lemma SharedPtr_assign_weak_post x w :
  post (λ σ', balanced σ → ¬ sole_owner_of_observed x w σ → balanced σ')
       (SharedPtr_assign_weak x w σ).
Proof.
  unfold SharedPtr_assign_weak. got_shared x hx Hx. rewrite run_bind.
  destruct (weak σ !! w) as [hw|] eqn:Hw;
    [|by unfold WeakPtr_Expired, WeakPtr_UseCount, this_weak; rewrite !run_bind, Hw].
  destruct (WeakPtr_Expired_wf σ Hwf w hw Hw) as (b & He & Hb). rewrite He.
  destruct b; [exact I|].
  destruct (WeakPtr_Expired_false_inv σ w hw Hwf Hw He) as (Hc & cb & Hcb & Hs).
  destruct (open_shared_Release x hx σ Hwf Hfit Hx) as (σ1 & HR & Hs1 & Hw1 & Ho & Hf).
  rewrite run_bind, HR.
  rewrite run_bind, (run_this_weak σ1 w hw) by (by rewrite Hw1).
  rewrite run_bind, (run_set_shared σ1 x _ hx) by (by rewrite Hs1).
  eapply post_mono.
  - apply acquire_shared_post; try done.
    apply (open_shared_alloc_weak x w hw σ1); try done. by rewrite Hw1.
  - simpl. intros σ' HQ Hbal Hcare. apply HQ.
    + by apply (balanced_Release_shared σ σ1 x hx).
    + intros cb1 Hcb1. destruct (decide (counter_ hx = counter_ hw)) as [E|E].
      * assert (strong_count cb ≠ 1) as H1.
        { intros H1. apply Hcare. by exists hx, hw, cb. }
        destruct (wf_block _ _ _ Hwf Hcb) as (_ & Es & _ & Hrs & _).
        assert (ptr_ hx ≠ nullptr) as Hp.
        { intros Hp. apply Hc. rewrite <-E. by apply (wf_shared_null _ Hwf _ _ Hx). }
        rewrite <-E in Hcb, Hcb1.
        rewrite (SharedPtr_Release_eq _ _ _ _ Hx ltac:(congruence) Hp Hcb) in HR by lia.
        rewrite decide_False in HR by done. injection HR as <-. simpl in Hcb1.
        rewrite lookup_insert_eq in Hcb1. injection Hcb1 as <-. simpl. lia.
      * rewrite Hf in Hcb1 by congruence. congruence.
Qed.

Lemma SharedPtr_assign_copy_post x y :
  post (λ σ', balanced σ → balanced σ') (SharedPtr_assign_copy x y σ).
Proof.
  unfold SharedPtr_assign_copy. got_shared x hx Hx. got_shared y hy Hy.
  case_bool_decide as Hxy; [|by simpl].
  destruct (open_shared_Release x hx σ Hwf Hfit Hx) as (σ1 & HR & Hs1 & Hw1 & Ho & _).
  rewrite run_bind, HR.
  rewrite run_bind, (run_this_shared σ1 y hy) by (by rewrite Hs1).
  rewrite run_bind, (run_set_shared σ1 x _ hx) by (by rewrite Hs1).
  pose proof (balanced_Release_shared σ σ1 x hx Hwf Hx HR) as HbR.
  assert (y ≠ x) as Hne by congruence.
  assert (shared σ1 !! y = Some hy) as Hy1 by (by rewrite Hs1).
  case_bool_decide as Hc; [|by simpl].
  eapply post_mono.
  - apply acquire_shared_post; try done.
    by apply (open_shared_alloc_shared x y hy σ1).
  - simpl. intros σ' HQ Hbal. apply HQ; [by apply HbR|].
    by apply (open_shared_owned x y hy σ1).
Qed.

Lemma SharedPtr_assign_move_post x y :
  post (λ σ', balanced σ → balanced σ') (SharedPtr_assign_move x y σ).
Proof.
  unfold SharedPtr_assign_move. got_shared x hx Hx. got_shared y hy Hy.
  case_bool_decide as Hxy; [|by simpl].
  destruct (open_shared_Release x hx σ Hwf Hfit Hx) as (σ1 & HR & Hs1 & Hw1 & Ho & _).
  rewrite run_bind, HR.
  rewrite run_bind, (run_this_shared σ1 y hy) by (by rewrite Hs1).
  rewrite run_bind, (run_set_shared σ1 x _ hx) by (by rewrite Hs1).
  rewrite (run_set_shared _ y _ hy) by (simpl; rewrite lookup_insert_ne, Hs1; done).
  simpl. by apply (balanced_Release_shared σ σ1 x hx).
Qed.

Lemma SharedPtr_dtor_post x :
  post (λ σ', balanced σ → balanced σ') (SharedPtr_dtor x σ).
Proof.
  unfold SharedPtr_dtor. rewrite run_bind.
  destruct (shared σ !! x) as [hx|] eqn:Hx;
    [|by unfold SharedPtr_Release, this_shared; rewrite run_bind, Hx].
  destruct (open_shared_Release x hx σ Hwf Hfit Hx) as (σ1 & HR & Hs1 & Hw1 & Ho & _).
  rewrite HR, (run_end_shared σ1 x hx) by (by rewrite Hs1).
  simpl. by apply (balanced_Release_shared σ σ1 x hx).
Qed.

Lemma SharedPtr_Reset_post x p c :
  post (λ σ', balanced σ → balanced σ') (SharedPtr_Reset x p c σ).
Proof.
  unfold SharedPtr_Reset. got_shared x hx Hx.
  case_bool_decide as Hxy; [|by simpl].
  destruct (open_shared_Release x hx σ Hwf Hfit Hx) as (σ1 & HR & Hs1 & Hw1 & Ho & _).
  rewrite run_bind, HR.
  pose proof (balanced_Release_shared σ σ1 x hx Hwf Hx HR) as HbR.
  case_bool_decide as Hp.
  - rewrite run_bind. unfold new_Counter. case_bool_decide as Hc; [exact I|].
    destruct (heap σ1 !! c) eqn:Hcb; [exact I|].
    rewrite (run_set_shared _ x _ hx) by (simpl; by rewrite Hs1).
    simpl. intros Hbal. apply bal_new; [by apply HbR|done].
  - rewrite (run_set_shared _ x _ hx) by (by rewrite Hs1). by simpl.
Qed.

Lemma SharedPtr_Swap_post x y :
  post (λ σ', balanced σ → balanced σ') (SharedPtr_Swap x y σ).
Proof.
  destruct (shared σ !! x) as [hx|] eqn:Hx;
    [|by unfold SharedPtr_Swap, this_shared; rewrite run_bind, Hx].
  destruct (shared σ !! y) as [hy|] eqn:Hy;
    [|by unfold SharedPtr_Swap, this_shared; rewrite run_bind, Hx, run_bind, Hy].
  rewrite (SharedPtr_Swap_eq σ x y hx hy Hx Hy). by simpl.
Qed.

Lemma WeakPtr_ctor_post x :
  post (λ σ', balanced σ → balanced σ') (WeakPtr_ctor x σ).
Proof.
  unfold WeakPtr_ctor, init_weak. fresh_weak x Hx. by simpl.
Qed.

Lemma WeakPtr_ctor_copy_post x y :
  post (λ σ', balanced σ → balanced σ') (WeakPtr_ctor_copy x y σ).
Proof.
  unfold WeakPtr_ctor_copy. got_weak y hy Hy. rewrite run_bind.
  destruct (weak σ !! x) eqn:Hx; [by erewrite run_init_weak_used|].
  rewrite run_init_weak by done.
  pose proof (open_weak_fresh x σ Hwf Hfit Hx) as Ho.
  assert (y ≠ x) as Hne by congruence.
  case_bool_decide as Hc; [|by simpl].
  apply acquire_weak_post; try done.
  by apply (open_weak_alloc_weak x y hy σ).
Qed.

Lemma WeakPtr_ctor_move_post x y :
  post (λ σ', balanced σ → balanced σ') (WeakPtr_ctor_move x y σ).
Proof.
  unfold WeakPtr_ctor_move. got_weak y hy Hy. rewrite run_bind.
  destruct (weak σ !! x) eqn:Hx; [by erewrite run_init_weak_used|].
  rewrite run_init_weak by done.
  assert (y ≠ x) as Hne by congruence.
  rewrite (run_set_weak _ y _ hy) by (simpl; by rewrite lookup_insert_ne).
  by simpl.
Qed.

Lemma WeakPtr_ctor_shared_post x y :
  post (λ σ', balanced σ → balanced σ') (WeakPtr_ctor_shared x y σ).
Proof.
  unfold WeakPtr_ctor_shared. got_shared y hy Hy. rewrite run_bind.
  destruct (weak σ !! x) eqn:Hx; [by erewrite run_init_weak_used|].
  rewrite run_init_weak by done.
  pose proof (open_weak_fresh x σ Hwf Hfit Hx) as Ho.
  case_bool_decide as Hc; [|by simpl].
  apply acquire_weak_post; try done.
  by apply (open_weak_alloc_shared x y hy σ).
Qed.

Lemma WeakPtr_assign_shared_post x y :
  post (λ σ', balanced σ → balanced σ') (WeakPtr_assign_shared x y σ).
Proof.
  unfold WeakPtr_assign_shared. got_shared y hy Hy. rewrite run_bind.
  destruct (weak σ !! x) as [hx|] eqn:Hx;
    [|by unfold WeakPtr_Release, this_weak; rewrite run_bind, Hx].
  destruct (open_weak_Release x hx σ Hwf Hfit Hx) as (σ1 & HR & Hs1 & Hw1 & Ho & _).
  rewrite HR.
  rewrite run_bind, (run_this_shared σ1 y hy) by (by rewrite Hs1).
  rewrite run_bind, (run_set_weak σ1 x _ hx) by (by rewrite Hw1).
  pose proof (balanced_Release_weak σ σ1 x hx Hwf Hx HR) as HbR.
  case_bool_decide as Hc; [|by simpl].
  eapply post_mono.
  - apply acquire_weak_post; try done.
    apply (open_weak_alloc_shared x y hy σ1); try done. by rewrite Hs1.
  - simpl. auto.
Qed.

Lemma WeakPtr_assign_copy_post x y :
  post (λ σ', balanced σ → balanced σ') (WeakPtr_assign_copy x y σ).
Proof.
  unfold WeakPtr_assign_copy. got_weak x hx Hx. got_weak y hy Hy.
  case_bool_decide as Hxy; [|by simpl].
  destruct (open_weak_Release x hx σ Hwf Hfit Hx) as (σ1 & HR & Hs1 & Hw1 & Ho & _).
  rewrite run_bind, HR.
  rewrite run_bind, (run_this_weak σ1 y hy) by (by rewrite Hw1).
  rewrite run_bind, (run_set_weak σ1 x _ hx) by (by rewrite Hw1).
  pose proof (balanced_Release_weak σ σ1 x hx Hwf Hx HR) as HbR.
  assert (y ≠ x) as Hne by congruence.
  assert (weak σ1 !! y = Some hy) as Hy1 by (by rewrite Hw1).
  case_bool_decide as Hc; [|by simpl].
  eapply post_mono.
  - apply acquire_weak_post; try done.
    by apply (open_weak_alloc_weak x y hy σ1).
  - simpl. auto.
Qed.

Lemma WeakPtr_assign_move_post x y :
  post (λ σ', balanced σ → balanced σ') (WeakPtr_assign_move x y σ).
Proof.
  unfold WeakPtr_assign_move. got_weak x hx Hx. got_weak y hy Hy.
  case_bool_decide as Hxy; [|by simpl].
  destruct (open_weak_Release x hx σ Hwf Hfit Hx) as (σ1 & HR & Hs1 & Hw1 & Ho & _).
  rewrite run_bind, HR.
  rewrite run_bind, (run_this_weak σ1 y hy) by (by rewrite Hw1).
  rewrite run_bind, (run_set_weak σ1 x _ hx) by (by rewrite Hw1).
  rewrite (run_set_weak _ y _ hy) by (simpl; rewrite lookup_insert_ne, Hw1; done).
  simpl. by apply (balanced_Release_weak σ σ1 x hx).
Qed.

Lemma WeakPtr_dtor_post x :
  post (λ σ', balanced σ → balanced σ') (WeakPtr_dtor x σ).
Proof.
  unfold WeakPtr_dtor. rewrite run_bind.
  destruct (weak σ !! x) as [hx|] eqn:Hx;
    [|by unfold WeakPtr_Release, this_weak; rewrite run_bind, Hx].
  destruct (open_weak_Release x hx σ Hwf Hfit Hx) as (σ1 & HR & Hs1 & Hw1 & Ho & _).
  rewrite HR, (run_end_weak σ1 x hx) by (by rewrite Hw1).
  simpl. by apply (balanced_Release_weak σ σ1 x hx).
Qed.

Lemma WeakPtr_Reset_post x :
  post (λ σ', balanced σ → balanced σ') (WeakPtr_Reset x σ).
Proof.
  unfold WeakPtr_Reset. rewrite run_bind.
  destruct (weak σ !! x) as [hx|] eqn:Hx;
    [|by unfold WeakPtr_Release, this_weak; rewrite run_bind, Hx].
  destruct (open_weak_Release x hx σ Hwf Hfit Hx) as (σ1 & HR & Hs1 & Hw1 & Ho & _).
  rewrite HR, (run_set_weak σ1 x _ hx) by (by rewrite Hw1).
  simpl. by apply (balanced_Release_weak σ σ1 x hx).
Qed.

Lemma WeakPtr_Swap_post x y :
  post (λ σ', balanced σ → balanced σ') (WeakPtr_Swap x y σ).
Proof.
  destruct (weak σ !! x) as [hx|] eqn:Hx;
    [|by unfold WeakPtr_Swap, this_weak; rewrite run_bind, Hx].
  destruct (weak σ !! y) as [hy|] eqn:Hy;
    [|by unfold WeakPtr_Swap, this_weak; rewrite run_bind, Hx, run_bind, Hy].
  rewrite (WeakPtr_Swap_eq σ x y hx hy Hx Hy). by simpl.
Qed.

Lemma WeakPtr_Lock_post w x :
  post (λ σ', balanced σ → balanced σ') (WeakPtr_Lock w x σ).
Proof.
  unfold WeakPtr_Lock. rewrite run_bind.
  destruct (weak σ !! w) as [hw|] eqn:Hw;
    [|by unfold WeakPtr_Expired, WeakPtr_UseCount, this_weak; rewrite !run_bind, Hw].
  destruct (WeakPtr_Expired_wf σ Hwf w hw Hw) as (b & -> & Hb).
  destruct b; [apply SharedPtr_ctor_post|apply SharedPtr_ctor_weak_post].
Qed.

Lemma MakeShared_post x p c :
  post (λ σ', balanced σ → balanced σ') (MakeShared x p c σ).
Proof.
  unfold MakeShared. case_bool_decide; [exact I|]. apply SharedPtr_ctor_ptr_post.
Qed.

Lemma post_careless (P : Prop) (Q : state → Prop) r :
  post (λ σ', P → Q σ') r → post (λ σ', P → True → Q σ') r.
Proof. intros H. eapply post_mono; [exact H|]. simpl. auto. Qed.

Lemma exec_post o :
  post (λ σ', balanced σ → careful_step o σ → balanced σ') (exec o σ).
Proof.
  destruct o; simpl.
  - apply post_careless, SharedPtr_ctor_post.
  - apply post_careless, SharedPtr_ctor_ptr_post.
  - apply post_careless, SharedPtr_ctor_copy_post.
  - apply post_careless, SharedPtr_ctor_move_post.
  - apply post_careless, SharedPtr_ctor_weak_post.
  - apply SharedPtr_assign_weak_post.
  - apply post_careless, SharedPtr_assign_copy_post.
  - apply post_careless, SharedPtr_assign_move_post.
  - apply post_careless, SharedPtr_dtor_post.
  - apply post_careless, SharedPtr_Reset_post.
  - apply post_careless, SharedPtr_Swap_post.
  - apply post_careless, WeakPtr_ctor_post.
  - apply post_careless, WeakPtr_ctor_copy_post.
  - apply post_careless, WeakPtr_ctor_move_post.
  - apply post_careless, WeakPtr_ctor_shared_post.
  - apply post_careless, WeakPtr_assign_shared_post.
  - apply post_careless, WeakPtr_assign_copy_post.
  - apply post_careless, WeakPtr_assign_move_post.
  - apply post_careless, WeakPtr_dtor_post.
  - apply post_careless, WeakPtr_Reset_post.
  - apply post_careless, WeakPtr_Swap_post.
  - apply post_careless, WeakPtr_Lock_post.
  - apply post_careless, MakeShared_post.
Qed.
End posts.

Lemma careful_reachable σ : careful σ → reachable σ.
Proof.
  induction 1 as [|o σ σ' _ IH Hfit _ Hex|o σ σ' _ IH Hfit Hex].
  - apply reachable_init.
  - by apply (reachable_ret o σ).
  - by apply (reachable_throw o σ).
Qed.

Lemma careful_balanced σ : careful σ → balanced σ.
Proof.
  induction 1 as [|o σ σ' Hc IH Hfit Hstep Hex|o σ σ' Hc IH Hfit Hex].
  - apply bal_init.
  - pose proof (exec_post σ (reachable_wf _ (careful_reachable _ Hc)) Hfit o) as Hp.
    rewrite Hex in Hp. by apply Hp.
  - by rewrite (exec_throw _ _ _ Hex).
Qed.






(** X3, for a managed type [T] whose destructor neither destroys nor calls a
    member of any [SharedPtr] or [WeakPtr] ([T] holds no handle; [delete ptr_]
    is embedded as the log entry alone and [~T()] is not run): in a program
    that never assigns a [WeakPtr] to the [SharedPtr] that
    is the sole owner of the observed block, at every address the number of
    [new Counter()] equals the number of [delete ptr_] through a block there,
    plus one if a block is there and still owns its object, and equals the
    number of [delete counter_], plus one if a block is still there.  Once
    no block is left, every block that was made has had its object deleted
    once and has been deallocated once. *)
Theorem careful_programs_delete_once σ :
  careful σ →
  (∀ c, news c (trace σ) = (destroys c (trace σ) + owning (heap σ) c)%nat ∧
        news c (trace σ) = (frees c (trace σ) + allocated (heap σ) c)%nat) ∧
  (heap σ = ∅ →
   ∀ c, destroys c (trace σ) = news c (trace σ) ∧ frees c (trace σ) = news c (trace σ)).
Proof.
  intros Hc. pose proof (careful_balanced σ Hc) as Hbal. split; [exact Hbal|].
  intros Hemp c. destruct (Hbal c) as [H1 H2]. unfold owning, allocated in *.
  rewrite Hemp, lookup_empty in H1, H2. lia.
Qed.

Lemma careful_st_all_gone : careful st_all_gone.
Proof.
  apply (careful_ret (WDtor "w")
           (default init (run (prog_abw ++ [SAssignWeak "a" "w"; SDtor "a"; SDtor "b"]) init)));
    [|by vm_compute|exact I|by vm_compute].
  apply (careful_ret (SDtor "b")
           (default init (run (prog_abw ++ [SAssignWeak "a" "w"; SDtor "a"]) init)));
    [|by vm_compute|exact I|by vm_compute].
  apply (careful_ret (SDtor "a")
           (default init (run (prog_abw ++ [SAssignWeak "a" "w"]) init)));
    [|by vm_compute|exact I|by vm_compute].
  apply (careful_ret (SAssignWeak "a" "w") st_abw);
    [|by vm_compute| |by vm_compute].
  - apply (careful_ret (WFromShared "w" "a")
             (default init (run [SCtorPtr "a" 5 1; SCopy "b" "a"] init)));
      [|by vm_compute|exact I|by vm_compute].
    apply (careful_ret (SCopy "b" "a") (default init (run [SCtorPtr "a" 5 1] init)));
      [|by vm_compute|exact I|by vm_compute].
    apply (careful_ret (SCtorPtr "a" 5 1) init);
      [apply careful_init|by vm_compute|exact I|by vm_compute].
  - intros (hx & hw & cb & H1 & H2 & H3 & H4 & H5).
    vm_compute in H2. injection H2 as <-.
    vm_compute in H4. injection H4 as <-. done.
Qed.

Lemma careful_programs_delete_once_witness :
  careful st_all_gone ∧
  news 1 (trace st_all_gone) = 1%nat ∧
  destroys 1 (trace st_all_gone) = news 1 (trace st_all_gone) ∧
  frees 1 (trace st_all_gone) = news 1 (trace st_all_gone).
Proof.
  split; [apply careful_st_all_gone|]. split; [by vm_compute|].
  apply (proj2 (careful_programs_delete_once st_all_gone careful_st_all_gone)).
  by vm_compute.
Defined.

(** ** Who throws *)

Lemma SharedPtr_ctor_weak_throw_expired x w σ s :
  SharedPtr_ctor_weak x w σ = Throw s → WeakPtr_Expired w σ = Ret true σ.
Proof.
  unfold SharedPtr_ctor_weak. rewrite run_bind.
  pose proof (reads_unused_shared x σ) as H1.
  destruct (unused_shared x σ) as [[] σ1| | |]; try done. subst σ1.
  rewrite run_bind. pose proof (reads_WeakPtr_Expired w σ) as H2.
  destruct (WeakPtr_Expired w σ) as [b σ1| | |]; try done. subst σ1.
  destruct b; [done|].
  intros E. exfalso. revert E. generalize σ s.
  change (quiet (w0 ← this_weak w;
                 init_shared x (mkHandle (ptr_ w0) (counter_ w0));;
                 _ ← incr_strong (counter_ w0); skip)).
  quiet_go.
Qed.

Lemma SharedPtr_assign_weak_throw_expired x w σ s :
  SharedPtr_assign_weak x w σ = Throw s → WeakPtr_Expired w σ = Ret true σ.
Proof.
  unfold SharedPtr_assign_weak. rewrite run_bind.
  pose proof (reads_this_shared x σ) as H1.
  destruct (this_shared x σ) as [h σ1| | |]; try done. subst σ1.
  rewrite run_bind. pose proof (reads_WeakPtr_Expired w σ) as H2.
  destruct (WeakPtr_Expired w σ) as [b σ1| | |]; try done. subst σ1.
  destruct b; [done|].
  intros E. exfalso. revert E. generalize σ s.
  change (quiet (SharedPtr_Release x;;
                 w0 ← this_weak w;
                 set_shared x (mkHandle (ptr_ w0) (counter_ w0));;
                 _ ← incr_strong (counter_ w0); skip)).
  quiet_go.
Qed.

Lemma quiet_WeakPtr_Lock w x : quiet (WeakPtr_Lock w x).
Proof.
  intros σ s. unfold WeakPtr_Lock. rewrite run_bind.
  pose proof (reads_WeakPtr_Expired w σ) as H2.
  destruct (WeakPtr_Expired w σ) as [b σ1| | |] eqn:He; try done. subst σ1.
  destruct b; [apply quiet_SharedPtr_ctor|].
  intros E. apply SharedPtr_ctor_weak_throw_expired in E. congruence.
Qed.

(** X4: in any state whatever, the only calls that throw are the
    construction of a [SharedPtr] from a [WeakPtr] and the assignment of a
    [WeakPtr] to a [SharedPtr]; they throw only when [Expired()] is true, and
    then nothing has been changed.  [Lock], like every other member, never
    throws. *)
Theorem only_promotion_throws o σ s :
  exec o σ = Throw s →
  s = σ ∧ ∃ x w, (o = SFromWeak x w ∨ o = SAssignWeak x w) ∧
                 WeakPtr_Expired w σ = Ret true σ.
Proof.
  intros Hex. split; [by apply (exec_throw o)|].
  destruct o; simpl in Hex;
    try (exfalso; revert Hex; generalize σ s;
         match goal with |- ∀ σ s, ?m σ = Throw s → False => change (quiet m) end;
         first [ apply quiet_WeakPtr_Lock
               | solve [unfold SharedPtr_ctor_copy, SharedPtr_ctor_move, SharedPtr_assign_copy,
                   SharedPtr_assign_move, SharedPtr_dtor, SharedPtr_Reset, SharedPtr_Swap,
                   WeakPtr_ctor, WeakPtr_ctor_copy, WeakPtr_ctor_move, WeakPtr_ctor_shared,
                   WeakPtr_assign_shared, WeakPtr_assign_copy, WeakPtr_assign_move,
                   WeakPtr_dtor, WeakPtr_Reset, WeakPtr_Swap, MakeShared; quiet_go] ]).
  - exists x, w. split; [by left|]. by apply (SharedPtr_ctor_weak_throw_expired x w σ s).
  - exists x, w. split; [by right|]. by apply (SharedPtr_assign_weak_throw_expired x w σ s).
Qed.

Lemma only_promotion_throws_witness :
  exec (SFromWeak "t" "w") st_expired = Throw st_expired ∧
  WeakPtr_Expired "w" st_expired = Ret true st_expired.
Proof.
  assert (exec (SFromWeak "t" "w") st_expired = Throw st_expired) as Hex by (by vm_compute).
  split; [done|].
  destruct (only_promotion_throws _ _ _ Hex) as (_ & x & w & [E|E] & He);
    [by injection E as <- <-|discriminate E].
Defined.

(** ** Swap *)

(** X5: [SharedPtr::Swap] exchanges the fields of the two handles and touches
    nothing else: no other handle, no control block, nothing in the log.
    Swapping twice gives back the state one started from. *)
Theorem SharedPtr_Swap_exchanges σ x y hx hy :
  shared σ !! x = Some hx → shared σ !! y = Some hy →
  ∃ σ', SharedPtr_Swap x y σ = Ret () σ' ∧
    shared σ' !! x = Some hy ∧ shared σ' !! y = Some hx ∧
    (∀ z, z ≠ x → z ≠ y → shared σ' !! z = shared σ !! z) ∧
    heap σ' = heap σ ∧ weak σ' = weak σ ∧ trace σ' = trace σ ∧
    SharedPtr_Swap x y σ' = Ret () σ.
Proof.
  intros Hx Hy. rewrite (SharedPtr_Swap_eq σ x y hx hy Hx Hy).
  eexists. split; [done|]. destruct σ as [hp sh wk tr]. simpl in *.
  destruct (decide (x = y)) as [->|Hne].
  - assert (hy = hx) as -> by congruence. split_and!; try done.
    rewrite (SharedPtr_Swap_eq _ y y hx hx) by done. simpl.
    by rewrite decide_True by done.
  - assert (<[y:=hx]> (<[x:=hy]> sh) !! x = Some hy) as Hx'
      by (by rewrite lookup_insert_ne, lookup_insert_eq).
    assert (<[y:=hx]> (<[x:=hy]> sh) !! y = Some hx) as Hy'
      by (by rewrite lookup_insert_eq).
    split_and!; try done.
    + intros z Hzx Hzy. by rewrite !lookup_insert_ne.
    + rewrite (SharedPtr_Swap_eq _ x y hy hx) by done. simpl.
      rewrite decide_False by done. do 2 f_equal.
      apply map_eq. intros k. rewrite !lookup_insert.
      repeat case_decide; congruence.
Qed.

Lemma SharedPtr_Swap_exchanges_witness :
  ∃ σ', SharedPtr_Swap "n" "s" st_nsw = Ret () σ' ∧
        shared σ' !! "n" = Some (mkHandle 5 1) ∧
        SharedPtr_Swap "n" "s" σ' = Ret () st_nsw.
Proof.
  destruct (SharedPtr_Swap_exchanges st_nsw "n" "s" (mkHandle nullptr nullptr) (mkHandle 5 1)
              eq_refl eq_refl) as (σ' & H1 & H2 & _ & _ & _ & _ & _ & H3).
  by exists σ'.
Defined.

(** X6: [WeakPtr::Swap] exchanges the fields of the two handles and touches
    nothing else; swapping twice gives back the state one started from. *)
Theorem WeakPtr_Swap_exchanges σ x y hx hy :
  weak σ !! x = Some hx → weak σ !! y = Some hy →
  ∃ σ', WeakPtr_Swap x y σ = Ret () σ' ∧
    weak σ' !! x = Some hy ∧ weak σ' !! y = Some hx ∧
    (∀ z, z ≠ x → z ≠ y → weak σ' !! z = weak σ !! z) ∧
    heap σ' = heap σ ∧ shared σ' = shared σ ∧ trace σ' = trace σ ∧
    WeakPtr_Swap x y σ' = Ret () σ.
Proof.
  intros Hx Hy. rewrite (WeakPtr_Swap_eq σ x y hx hy Hx Hy).
  eexists. split; [done|]. destruct σ as [hp sh wk tr]. simpl in *.
  destruct (decide (x = y)) as [->|Hne].
  - assert (hy = hx) as -> by congruence. split_and!; try done.
    rewrite (WeakPtr_Swap_eq _ y y hx hx) by done. simpl.
    by rewrite decide_True by done.
  - assert (<[y:=hx]> (<[x:=hy]> wk) !! x = Some hy) as Hx'
      by (by rewrite lookup_insert_ne, lookup_insert_eq).
    assert (<[y:=hx]> (<[x:=hy]> wk) !! y = Some hx) as Hy'
      by (by rewrite lookup_insert_eq).
    split_and!; try done.
    + intros z Hzx Hzy. by rewrite !lookup_insert_ne.
    + rewrite (WeakPtr_Swap_eq _ x y hy hx) by done. simpl.
      rewrite decide_False by done. do 2 f_equal.
      apply map_eq. intros k. rewrite !lookup_insert.
      repeat case_decide; congruence.
Qed.

Lemma WeakPtr_Swap_exchanges_witness :
  ∃ σ', WeakPtr_Swap "w" "w" st_sw = Ret () σ' ∧ weak σ' !! "w" = Some (mkHandle 5 1).
Proof.
  destruct (WeakPtr_Swap_exchanges st_sw "w" "w" (mkHandle 5 1) (mkHandle 5 1)
              eq_refl eq_refl) as (σ' & H1 & H2 & _).
  by exists σ'.
Defined.

(** ** Reset twice *)

Lemma SharedPtr_Reset_null_after σ σ' x c :
  SharedPtr_Reset x nullptr c σ = Ret () σ' →
  ∃ h, shared σ' !! x = Some h ∧ ptr_ h = nullptr.
Proof.
  unfold SharedPtr_Reset. rewrite run_bind. unfold this_shared at 1.
  destruct (shared σ !! x) as [hx|] eqn:Hx; [|done].
  case_bool_decide as Hp.
  - rewrite run_bind. destruct (SharedPtr_Release x σ) as [[] σ1| | |]; try done.
    rewrite bool_decide_eq_false_2 by (intros ?; done).
    unfold set_shared. destruct (shared σ1 !! x); [|done]. intros [= <-].
    exists (mkHandle nullptr nullptr). simpl. by rewrite lookup_insert_eq.
  - intros [= <-]. exists hx. split; [done|]. congruence.
Qed.

Lemma WeakPtr_Reset_null_after σ σ' x :
  WeakPtr_Reset x σ = Ret () σ' → weak σ' !! x = Some (mkHandle nullptr nullptr).
Proof.
  unfold WeakPtr_Reset. rewrite run_bind.
  destruct (WeakPtr_Release x σ) as [[] σ1| | |]; try done.
  unfold set_weak. destruct (weak σ1 !! x); [|done]. intros [= <-].
  simpl. by rewrite lookup_insert_eq.
Qed.

(** X7: in any state whatever, resetting a handle that has just been reset
    changes nothing: [x.Reset(); x.Reset()] ends, or fails, exactly as
    [x.Reset()] does, for [SharedPtr] and for [WeakPtr]. *)
Theorem Reset_twice_is_Reset_once σ x c c' :
  (SharedPtr_Reset x nullptr c;; SharedPtr_Reset x nullptr c') σ
    = SharedPtr_Reset x nullptr c σ ∧
  (WeakPtr_Reset x;; WeakPtr_Reset x) σ = WeakPtr_Reset x σ.
Proof.
  split; rewrite run_bind.
  - destruct (SharedPtr_Reset x nullptr c σ) as [[] σ'| | |] eqn:HR; try done.
    destruct (SharedPtr_Reset_null_after _ _ _ _ HR) as (h & Hx & Hp).
    unfold SharedPtr_Reset. rewrite run_bind, (run_this_shared _ _ _ Hx).
    by rewrite bool_decide_eq_false_2 by (intros ?; congruence).
  - destruct (WeakPtr_Reset x σ) as [[] σ'| | |] eqn:HR; try done.
    pose proof (WeakPtr_Reset_null_after _ _ _ HR) as Hx.
    unfold WeakPtr_Reset. rewrite run_bind.
    rewrite (WeakPtr_Release_null _ _ _ Hx) by done.
    rewrite (run_set_weak _ _ _ _ Hx). destruct σ' as [hp sh wk tr]. simpl in *.
    by rewrite insert_id.
Qed.

(** ** Temporaries *)

Lemma SharedPtr_dtor_null σ x p :
  shared σ !! x = None →
  SharedPtr_dtor x (with_shared (insert x (mkHandle p nullptr)) σ) = Ret () σ.
Proof.
  intros Hx. unfold SharedPtr_dtor. rewrite run_bind.
  rewrite (SharedPtr_Release_null _ x (mkHandle p nullptr))
    by (simpl; by rewrite ?lookup_insert_eq).
  rewrite (run_end_shared _ x (mkHandle p nullptr)) by (simpl; by rewrite lookup_insert_eq).
  destruct σ as [hp sh wk tr]. simpl in *.
  by rewrite delete_insert_eq, delete_id.
Qed.

Lemma WeakPtr_dtor_null σ x p :
  weak σ !! x = None →
  WeakPtr_dtor x (with_weak (insert x (mkHandle p nullptr)) σ) = Ret () σ.
Proof.
  intros Hx. unfold WeakPtr_dtor. rewrite run_bind.
  rewrite (WeakPtr_Release_null _ x (mkHandle p nullptr))
    by (simpl; by rewrite ?lookup_insert_eq).
  rewrite (run_end_weak _ x (mkHandle p nullptr)) by (simpl; by rewrite lookup_insert_eq).
  destruct σ as [hp sh wk tr]. simpl in *.
  by rewrite delete_insert_eq, delete_id.
Qed.

Lemma SharedPtr_dtor_of_extra σ x p c cb :
  shared σ !! x = None → heap σ !! c = Some cb →
  1 ≤ strong_count cb → strong_count cb + 1 < SIZE_MODULUS →
  p ≠ nullptr → c ≠ nullptr →
  SharedPtr_dtor x
    (mkState (<[c := mkCounter (strong_count cb + 1) (weak_count cb)]> (heap σ))
             (<[x := mkHandle p c]> (shared σ)) (weak σ) (trace σ)) = Ret () σ.
Proof.
  intros Hx Hcb H1 H2 Hp Hc. unfold SharedPtr_dtor. rewrite run_bind.
  rewrite (SharedPtr_Release_eq _ x (mkHandle p c)
             (mkCounter (strong_count cb + 1) (weak_count cb)))
    by (simpl; rewrite ?lookup_insert_eq; done || lia).
  simpl. rewrite decide_False by lia.
  rewrite (run_end_shared _ x (mkHandle p c)) by (simpl; by rewrite lookup_insert_eq).
  destruct σ as [hp sh wk tr], cb as [s w]. simpl in *.
  rewrite delete_insert_eq, delete_id by done. rewrite insert_insert_eq.
  replace (s + 1 - 1) with s by lia. by rewrite insert_id.
Qed.

Lemma WeakPtr_dtor_of_extra σ x p c cb :
  weak σ !! x = None → heap σ !! c = Some cb →
  0 ≤ weak_count cb → weak_count cb + 1 < SIZE_MODULUS → strong_count cb ≠ 0 →
  c ≠ nullptr →
  WeakPtr_dtor x
    (mkState (<[c := mkCounter (strong_count cb) (weak_count cb + 1)]> (heap σ))
             (shared σ) (<[x := mkHandle p c]> (weak σ)) (trace σ)) = Ret () σ.
Proof.
  intros Hx Hcb H1 H2 Hs Hc. unfold WeakPtr_dtor. rewrite run_bind.
  rewrite (WeakPtr_Release_eq _ x (mkHandle p c)
             (mkCounter (strong_count cb) (weak_count cb + 1)))
    by (simpl; rewrite ?lookup_insert_eq; done || lia).
  simpl. rewrite decide_False by tauto.
  rewrite (run_end_weak _ x (mkHandle p c)) by (simpl; by rewrite lookup_insert_eq).
  destruct σ as [hp sh wk tr], cb as [s w]. simpl in *.
  rewrite delete_insert_eq, delete_id by done. rewrite insert_insert_eq.
  replace (w + 1 - 1) with w by lia. by rewrite insert_id.
Qed.

Lemma wf_owned_block σ x h :
  wf σ → fits σ → shared σ !! x = Some h → counter_ h ≠ nullptr →
  ptr_ h ≠ nullptr ∧
  ∃ cb, heap σ !! counter_ h = Some cb ∧
        1 ≤ strong_count cb ∧ strong_count cb + 1 < SIZE_MODULUS ∧
        0 ≤ weak_count cb ∧ weak_count cb + 1 < SIZE_MODULUS.
Proof.
  intros Hwf Hfit Hx Hc. split.
  { intros Hp. by apply Hc, (wf_shared_null _ Hwf _ _ Hx). }
  destruct (wf_shared_alloc _ Hwf _ _ Hx Hc) as [cb Hcb]. exists cb.
  destruct (wf_block _ _ _ Hwf Hcb) as (_ & Es & Ew & _ & _).
  pose proof (refs_pos _ _ _ Hx). pose proof (refs_le_size (shared σ) (counter_ h)).
  pose proof (refs_le_size (weak σ) (counter_ h)).
  pose proof (fits_shared _ Hfit). pose proof (fits_weak _ Hfit).
  unfold SIZE_MAX in *. split_and!; try done; lia.
Qed.

(** X8: a handle made from another one and destroyed again leaves the state
    exactly as it was, log included: a copy of a [SharedPtr], the result of
    [Lock()] (expired or not), and a [WeakPtr] made from a [SharedPtr]. *)
Theorem temporaries_leave_no_trace σ :
  wf σ → fits σ →
  (∀ x y, is_Some (shared σ !! y) → shared σ !! x = None →
     (SharedPtr_ctor_copy x y;; SharedPtr_dtor x) σ = Ret () σ) ∧
  (∀ w r, is_Some (weak σ !! w) → shared σ !! r = None →
     (WeakPtr_Lock w r;; SharedPtr_dtor r) σ = Ret () σ) ∧
  (∀ w x, is_Some (shared σ !! x) → weak σ !! w = None →
     (WeakPtr_ctor_shared w x;; WeakPtr_dtor w) σ = Ret () σ).
Proof.
  intros Hwf Hfit. split_and!.
  - intros x y [hy Hy] Hx. rewrite run_bind. unfold SharedPtr_ctor_copy.
    rewrite run_bind, (run_this_shared _ _ _ Hy).
    rewrite run_bind, run_init_shared by done.
    case_bool_decide as Hc.
    + destruct (wf_owned_block σ y hy Hwf Hfit Hy Hc) as (Hp & cb & Hcb & ? & ? & ? & ?).
      rewrite run_bind, (run_incr_strong _ _ cb) by (simpl; done || lia).
      simpl. by apply SharedPtr_dtor_of_extra.
    + simpl. rewrite Hc. by apply SharedPtr_dtor_null.
  - intros w r [hw Hw] Hr. rewrite run_bind.
    destruct (WeakPtr_Expired_wf σ Hwf w hw Hw) as (b & He & Hb).
    unfold WeakPtr_Lock. rewrite run_bind, He. destruct b.
    + unfold SharedPtr_ctor. rewrite run_init_shared by done.
      by apply SharedPtr_dtor_null.
    + destruct (WeakPtr_Expired_false_inv σ w hw Hwf Hw He) as (Hc & cb & Hcb & Hs).
      rewrite (SharedPtr_ctor_weak_ret σ r w hw cb) by done.
      destruct (wf_incr_strong_ok σ _ cb Hwf Hfit Hcb) as [? ?].
      apply SharedPtr_dtor_of_extra; try done; [lia|].
      intros Hp. by apply Hc, (wf_weak_null _ Hwf _ _ Hw).
  - intros w x [hx Hx] Hw. rewrite run_bind. unfold WeakPtr_ctor_shared.
    rewrite run_bind, (run_this_shared _ _ _ Hx).
    rewrite run_bind, run_init_weak by done.
    case_bool_decide as Hc.
    + destruct (wf_owned_block σ x hx Hwf Hfit Hx Hc) as (Hp & cb & Hcb & ? & ? & ? & ?).
      rewrite run_bind, (run_incr_weak _ _ cb) by (simpl; done || lia).
      simpl. apply WeakPtr_dtor_of_extra; try done. lia.
    + simpl. rewrite Hc. by apply WeakPtr_dtor_null.
Qed.

Lemma temporaries_leave_no_trace_witness :
  (WeakPtr_Lock "w" "r";; SharedPtr_dtor "r") st_sw = Ret () st_sw ∧
  (WeakPtr_Lock "w" "r";; SharedPtr_dtor "r") st_expired = Ret () st_expired.
Proof.
  split.
  - apply (proj1 (proj2 (temporaries_leave_no_trace st_sw
                           (reachable_wf _ reachable_st_sw) fits_st_sw)));
      [by exists (mkHandle 5 1)|done].
  - assert (reachable st_expired) as Hr.
    { apply (run_fits_reachable prog_expired init); [apply reachable_init|by vm_compute]. }
    assert (fits st_expired) as Hfit by (by vm_compute).
    apply (proj1 (proj2 (temporaries_leave_no_trace st_expired (reachable_wf _ Hr) Hfit)));
      [by exists (mkHandle 5 1)|done].
Defined.

(** ** The last owner goes *)



(** ** Observing *)

(** X10: a [WeakPtr] constructed from a non-null [SharedPtr] raises the
    block's weak count by one and leaves its strong count alone, so that the
    [SharedPtr]'s [UseCount()] is what it was; the [WeakPtr] reports that
    same use count and is not expired. *)
Theorem observer_shares_use_count σ w x hx :
  wf σ → fits σ → shared σ !! x = Some hx → counter_ hx ≠ nullptr →
  weak σ !! w = None →
  ∃ cb σ', heap σ !! counter_ hx = Some cb ∧
    WeakPtr_ctor_shared w x σ = Ret () σ' ∧
    heap σ' = <[counter_ hx := mkCounter (strong_count cb) (weak_count cb + 1)]> (heap σ) ∧
    shared σ' = shared σ ∧ trace σ' = trace σ ∧
    SharedPtr_UseCount x σ = Ret (strong_count cb) σ ∧
    SharedPtr_UseCount x σ' = Ret (strong_count cb) σ' ∧
    WeakPtr_UseCount w σ' = Ret (strong_count cb) σ' ∧
    WeakPtr_Expired w σ' = Ret false σ'.
Proof.
  intros Hwf Hfit Hx Hc Hw.
  destruct (wf_owned_block σ x hx Hwf Hfit Hx Hc) as (Hp & cb & Hcb & ? & ? & ? & ?).
  exists cb. eexists. split; [done|]. split.
  - unfold WeakPtr_ctor_shared. rewrite run_bind, (run_this_shared _ _ _ Hx).
    rewrite run_bind, run_init_weak by done.
    rewrite bool_decide_eq_true_2 by done.
    by rewrite run_bind, (run_incr_weak _ _ cb) by (simpl; done || lia).
  - simpl. split_and!; try done.
    + by apply (run_SharedPtr_UseCount σ x hx cb).
    + by apply (run_SharedPtr_UseCount _ x hx (mkCounter (strong_count cb) (weak_count cb + 1)));
        simpl; rewrite ?lookup_insert_eq.
    + by apply (run_WeakPtr_UseCount _ w (mkHandle (ptr_ hx) (counter_ hx))
                  (mkCounter (strong_count cb) (weak_count cb + 1)));
        simpl; rewrite ?lookup_insert_eq.
    + rewrite (run_WeakPtr_Expired _ w (mkHandle (ptr_ hx) (counter_ hx))
                 (mkCounter (strong_count cb) (weak_count cb + 1)));
        simpl; rewrite ?lookup_insert_eq; try done.
      by rewrite bool_decide_eq_false_2 by lia.
Qed.

Lemma observer_shares_use_count_witness :
  ∃ σ', WeakPtr_ctor_shared "v" "a" st_abw = Ret () σ' ∧
        WeakPtr_UseCount "v" σ' = Ret 2 σ' ∧ SharedPtr_UseCount "a" σ' = Ret 2 σ'.
Proof.
  destruct (observer_shares_use_count st_abw "v" "a" (mkHandle 5 1)
              (reachable_wf _ reachable_st_abw) fits_st_abw eq_refl)
    as (cb & σ' & Hcb & Hex & _ & _ & _ & _ & Hu & Hv & _); [done|done|].
  assert (cb = mkCounter 2 1) as -> by (revert Hcb; vm_compute; congruence).
  by exists σ'.
Defined.

(** X11: in a reachable state, a [SharedPtr] tests true exactly when its use
    count is positive, and [Get()] is null exactly when the use count is 0:
    a non-null [SharedPtr] is always counted. *)
Theorem nonnull_iff_counted σ x h :
  reachable σ → shared σ !! x = Some h →
  ∃ n, SharedPtr_UseCount x σ = Ret n σ ∧ 0 ≤ n < SIZE_MODULUS ∧
       SharedPtr_bool x σ = Ret (bool_decide (0 < n)) σ ∧
       SharedPtr_Get x σ = Ret (ptr_ h) σ ∧ (ptr_ h = nullptr ↔ n = 0).
Proof.
  intros Hr Hx. pose proof (reachable_wf _ Hr) as Hwf.
  pose proof (wf_shared_null _ Hwf _ _ Hx) as Hh.
  assert (SharedPtr_Get x σ = Ret (ptr_ h) σ) as HG.
  { unfold SharedPtr_Get. by rewrite run_bind, (run_this_shared _ _ _ Hx). }
  assert (∀ b, SharedPtr_bool x σ = Ret b σ ↔ b = bool_decide (ptr_ h ≠ nullptr)) as HB.
  { intros b. unfold SharedPtr_bool. rewrite run_bind, (run_this_shared _ _ _ Hx).
    split; [by intros [= <-]|by intros ->]. }
  destruct (decide (counter_ h = nullptr)) as [Hc|Hc].
  - exists 0. rewrite (run_SharedPtr_UseCount_null _ _ _ Hx Hc).
    split_and!; try done.
    + apply HB. rewrite bool_decide_eq_false_2 by lia.
      symmetry. apply bool_decide_eq_false_2. intros Hp. by apply Hp, Hh.
    + split; [done|]. intros _. by apply Hh.
  - destruct (wf_shared_alloc _ Hwf _ _ Hx Hc) as [cb Hcb].
    destruct (wf_block _ _ _ Hwf Hcb) as (_ & Es & _ & Hrs & _).
    pose proof (refs_pos _ _ _ Hx).
    exists (strong_count cb). rewrite (run_SharedPtr_UseCount _ _ _ _ Hx Hc Hcb).
    split_and!; try done; try lia.
    + apply HB. rewrite bool_decide_eq_true_2 by lia.
      symmetry. apply bool_decide_eq_true_2. intros Hp. by apply Hc, Hh.
    + split; [|lia]. intros Hp. exfalso. by apply Hc, Hh.
Qed.

Lemma nonnull_iff_counted_witness :
  reachable st_nsw ∧ SharedPtr_bool "n" st_nsw = Ret false st_nsw ∧
  SharedPtr_bool "s" st_nsw = Ret true st_nsw.
Proof.
  split; [apply reachable_st_nsw|]. split.
  - destruct (nonnull_iff_counted st_nsw "n" (mkHandle nullptr nullptr) reachable_st_nsw eq_refl)
      as (n & Hn & _ & Hb & _).
    assert (n = 0) as -> by (revert Hn; vm_compute; congruence). exact Hb.
  - destruct (nonnull_iff_counted st_nsw "s" (mkHandle 5 1) reachable_st_nsw eq_refl)
      as (n & Hn & _ & Hb & _).
    assert (n = 1) as -> by (revert Hn; vm_compute; congruence). exact Hb.
Defined.

(** ** Copies *)

(** X12: the copy constructor of [SharedPtr] gives the new handle the fields
    of the source and writes nothing to the log; after it both handles
    report the source's former use count plus one, or 0 when the source was
    null. *)
Theorem copy_shares_ownership σ x y hy :
  wf σ → fits σ → shared σ !! y = Some hy → shared σ !! x = None →
  ∃ σ', SharedPtr_ctor_copy x y σ = Ret () σ' ∧
    shared σ' = <[x := hy]> (shared σ) ∧ weak σ' = weak σ ∧ trace σ' = trace σ ∧
    ∀ n, SharedPtr_UseCount y σ = Ret n σ →
      let n' := if decide (counter_ hy = nullptr) then 0 else n + 1 in
      SharedPtr_UseCount x σ' = Ret n' σ' ∧ SharedPtr_UseCount y σ' = Ret n' σ'.
Proof.
  intros Hwf Hfit Hy Hx. assert (y ≠ x) as Hne by congruence.
  unfold SharedPtr_ctor_copy. rewrite run_bind, (run_this_shared _ _ _ Hy).
  rewrite run_bind, run_init_shared by done. destruct hy as [p c]. simpl.
  case_bool_decide as Hc.
  - destruct (wf_owned_block σ y _ Hwf Hfit Hy Hc) as (Hp & cb & Hcb & ? & ? & ? & ?).
    simpl in *. rewrite run_bind, (run_incr_strong _ _ cb) by (simpl; done || lia).
    eexists. split; [done|]. simpl. split_and!; try done.
    intros n. rewrite (run_SharedPtr_UseCount σ y _ cb Hy Hc Hcb). intros [= <-].
    rewrite decide_False by done. simpl. split.
    + by apply (run_SharedPtr_UseCount _ x (mkHandle p c)
                  (mkCounter (strong_count cb + 1) (weak_count cb)));
        simpl; rewrite ?lookup_insert_eq.
    + by apply (run_SharedPtr_UseCount _ y (mkHandle p c)
                  (mkCounter (strong_count cb + 1) (weak_count cb)));
        simpl; rewrite ?lookup_insert_eq, ?lookup_insert_ne.
  - eexists. split; [done|]. simpl. split_and!; try done.
    intros n _. rewrite decide_True by done. simpl. split.
    + by apply (run_SharedPtr_UseCount_null _ x (mkHandle p c)); simpl;
        rewrite ?lookup_insert_eq.
    + by apply (run_SharedPtr_UseCount_null _ y (mkHandle p c)); simpl;
        rewrite ?lookup_insert_ne.
Qed.

Lemma copy_shares_ownership_witness :
  ∃ σ', SharedPtr_ctor_copy "c" "a" st_abw = Ret () σ' ∧
        SharedPtr_UseCount "c" σ' = Ret 3 σ' ∧ SharedPtr_UseCount "a" σ' = Ret 3 σ'.
Proof.
  destruct (copy_shares_ownership st_abw "c" "a" (mkHandle 5 1)
              (reachable_wf _ reachable_st_abw) fits_st_abw eq_refl eq_refl)
    as (σ' & Hex & _ & _ & _ & Hu).
  exists σ'. split; [done|]. apply (Hu 2). by vm_compute.
Defined.



(** ** Who deletes objects *)

Lemma spares_ret {A} (a : A) : spares (mret a : M A).
Proof. by intros σ a' σ' [= _ <-]. Qed.

Lemma spares_bind {A B} (m : M A) (f : A → M B) :
  spares m → (∀ a, spares (f a)) → spares (m ≫= f).
Proof.
  intros Hm Hf σ b σ'. rewrite run_bind.
  destruct (m σ) as [a σ1| | |] eqn:E; try done.
  intros Hfa c. rewrite (Hf a σ1 b σ' Hfa c). by apply (Hm σ a σ1).
Qed.

Lemma spares_reads {A} (m : M A) : reads m → spares m.
Proof.
  intros Hm σ a σ' E. specialize (Hm σ). rewrite E in Hm. by subst.
Qed.

Lemma spares_with_shared f : spares (modify (with_shared f)).
Proof. intros σ [] σ'. unfold modify. by intros [= <-]. Qed.
Lemma spares_with_weak f : spares (modify (with_weak f)).
Proof. intros σ [] σ'. unfold modify. by intros [= <-]. Qed.
Lemma spares_set_shared x h : spares (set_shared x h).
Proof.
  intros σ [] σ'. unfold set_shared. destruct (shared σ !! x); [|done]. by intros [= <-].
Qed.
Lemma spares_set_weak x h : spares (set_weak x h).
Proof.
  intros σ [] σ'. unfold set_weak. destruct (weak σ !! x); [|done]. by intros [= <-].
Qed.
Lemma spares_store c cb : spares (store c cb).
Proof.
  intros σ [] σ'. unfold store. destruct (heap σ !! c); [|done]. by intros [= <-].
Qed.
Lemma spares_new_Counter c : spares (new_Counter c).
Proof.
  intros σ a σ'. unfold new_Counter. case_bool_decide; [done|].
  destruct (heap σ !! c); [done|]. by intros [= _ <-].
Qed.
Lemma spares_delete_Counter c : spares (delete_Counter c).
Proof.
  intros σ [] σ'. unfold delete_Counter. destruct (heap σ !! c); [|done]. by intros [= <-].
Qed.
Lemma spares_stuck {A} : spares (λ _, Stuck : result A).
Proof. by intros σ a σ'. Qed.
Lemma spares_throw {A} : spares (throw_BadWeakPtr : M A).
Proof. by intros σ a σ'. Qed.

Create HintDb spares.
#[local] Hint Resolve spares_ret spares_with_shared spares_with_weak spares_set_shared
  spares_set_weak spares_store spares_new_Counter spares_delete_Counter spares_stuck
  spares_throw : spares.
#[local] Hint Extern 1 (spares (this_shared _)) => apply spares_reads, reads_this_shared : spares.
#[local] Hint Extern 1 (spares (this_weak _)) => apply spares_reads, reads_this_weak : spares.
#[local] Hint Extern 1 (spares (unused_shared _)) => apply spares_reads, reads_unused_shared : spares.
#[local] Hint Extern 1 (spares (unused_weak _)) => apply spares_reads, reads_unused_weak : spares.
#[local] Hint Extern 1 (spares (load _)) => apply spares_reads, reads_load : spares.
#[local] Hint Extern 1 (spares (WeakPtr_Expired _)) => apply spares_reads, reads_WeakPtr_Expired : spares.

Ltac spares_step :=
  cbv beta;
  first
    [ solve [auto with spares]
    | match goal with |- spares (if ?b then _ else _) => destruct b end
    | apply spares_bind; [|intros ?] ].
Ltac spares_go :=
  unfold skip, init_shared, init_weak, end_shared, end_weak,
    incr_strong, decr_strong, incr_weak, decr_weak; repeat spares_step.

Lemma spares_WeakPtr_Release x : spares (WeakPtr_Release x).
Proof. unfold WeakPtr_Release. spares_go. Qed.
#[local] Hint Resolve spares_WeakPtr_Release : spares.

(** X14: in any state whatever, a managed object can only be deleted by the
    destructor, [Reset] and the three assignment operators of [SharedPtr].
    No constructor, no [Swap], no [MakeShared], no member of [WeakPtr] and no
    [Lock] ever runs [delete ptr_]. *)
Theorem only_SharedPtr_release_deletes o σ σ' :
  may_delete_object o = false → exec o σ = Ret () σ' →
  ∀ c, destroys c (trace σ') = destroys c (trace σ).
Proof.
  intros Hno. revert σ σ'.
  assert (spares (exec o)) as Hs; [|intros σ σ' Hex; by apply (Hs σ () σ')].
  destruct o; try discriminate Hno; simpl;
    unfold SharedPtr_ctor, SharedPtr_ctor_ptr, SharedPtr_ctor_copy, SharedPtr_ctor_move,
      SharedPtr_ctor_weak, SharedPtr_Swap, WeakPtr_ctor, WeakPtr_ctor_copy,
      WeakPtr_ctor_move, WeakPtr_ctor_shared, WeakPtr_assign_shared, WeakPtr_assign_copy,
      WeakPtr_assign_move, WeakPtr_dtor, WeakPtr_Reset, WeakPtr_Swap, WeakPtr_Lock,
      MakeShared, SharedPtr_ctor, SharedPtr_ctor_ptr, SharedPtr_ctor_weak;
    spares_go.
Qed.

Lemma only_SharedPtr_release_deletes_witness :
  ∃ σ', exec (WDtor "w") st_expired = Ret () σ' ∧
        destroys 1 (trace σ') = destroys 1 (trace st_expired).
Proof.
  eexists. split; [by vm_compute|].
  apply (only_SharedPtr_release_deletes (WDtor "w") st_expired); [done|by vm_compute].
Defined.

(** ** Adopting a raw pointer *)

(** X15: in any state, [SharedPtr(p)] with a null [p] makes a null handle and
    allocates nothing; with a non-null [p], and likewise [MakeShared], it
    makes the one owner of a new control block: [UseCount()] is 1, [Get()]
    is [p], the handle tests true, and no other block or handle is
    touched. *)
Theorem adopt_raw_pointer σ x p c :
  shared σ !! x = None →
  (p = nullptr →
     SharedPtr_ctor_ptr x p c σ =
     Ret () (mkState (heap σ) (<[x := mkHandle nullptr nullptr]> (shared σ))
                     (weak σ) (trace σ))) ∧
  (p ≠ nullptr → c ≠ nullptr → heap σ !! c = None →
     let σ' := mkState (<[c := mkCounter 1 0]> (heap σ))
                 (<[x := mkHandle p c]> (shared σ)) (weak σ)
                 (EvNewCounter c :: trace σ) in
     SharedPtr_ctor_ptr x p c σ = Ret () σ' ∧ MakeShared x p c σ = Ret () σ' ∧
     SharedPtr_UseCount x σ' = Ret 1 σ' ∧ SharedPtr_Get x σ' = Ret p σ' ∧
     SharedPtr_bool x σ' = Ret true σ').
Proof.
  intros Hx. split.
  - intros ->. unfold SharedPtr_ctor_ptr. rewrite run_bind, run_unused_shared by done.
    rewrite run_bind. rewrite bool_decide_eq_false_2 by (intros ?; done).
    by rewrite run_ret, run_init_shared by done.
  - intros Hp Hc Hcb σ'.
    assert (SharedPtr_ctor_ptr x p c σ = Ret () σ') as Hex.
    { unfold SharedPtr_ctor_ptr. rewrite run_bind, run_unused_shared by done.
      rewrite run_bind. rewrite bool_decide_eq_true_2 by done.
      rewrite run_new_Counter by done. by rewrite run_init_shared by done. }
    assert (shared σ' !! x = Some (mkHandle p c)) as Hx'
      by (unfold σ'; simpl; by rewrite lookup_insert_eq).
    split_and!; try done.
    + unfold MakeShared. by rewrite bool_decide_eq_false_2 by done.
    + apply (run_SharedPtr_UseCount σ' x (mkHandle p c) (mkCounter 1 0)); try done.
      unfold σ'. simpl. by rewrite lookup_insert_eq.
    + unfold SharedPtr_Get. by rewrite run_bind, (run_this_shared _ _ _ Hx').
    + unfold SharedPtr_bool. rewrite run_bind, (run_this_shared _ _ _ Hx'). simpl.
      by rewrite bool_decide_eq_true_2 by done.
Qed.

Lemma adopt_raw_pointer_witness :
  ∃ σ', MakeShared "m" 9 2 st_sw = Ret () σ' ∧ SharedPtr_UseCount "m" σ' = Ret 1 σ'.
Proof.
  destruct (adopt_raw_pointer st_sw "m" 9 2 eq_refl) as [_ H].
  destruct H as (_ & Hm & Hu & _); [done|done|by vm_compute|].
  eexists. split; [exact Hm|exact Hu].
Defined.

(** ** Observers do not own *)

Lemma observes_ret {A} (a : A) : observes (mret a : M A).
Proof. intros σ a' σ' [= _ <-]. split; [done|]. intros c cb Hcb. by exists cb. Qed.

Lemma observes_bind {A B} (m : M A) (f : A → M B) :
  observes m → (∀ a, observes (f a)) → observes (m ≫= f).
Proof.
  intros Hm Hf σ b σ'. rewrite run_bind.
  destruct (m σ) as [a σ1| | |] eqn:E; try done.
  intros Hfa. destruct (Hm σ a σ1 E) as [Hs1 Hh1].
  destruct (Hf a σ1 b σ' Hfa) as [Hs2 Hh2]. split; [congruence|].
  intros c cb' Hcb'. destruct (Hh2 c cb' Hcb') as (cb1 & Hcb1 & E1).
  destruct (Hh1 c cb1 Hcb1) as (cb & Hcb & E2). exists cb. split; [done|congruence].
Qed.

Lemma observes_reads {A} (m : M A) : reads m → observes m.
Proof.
  intros Hm σ a σ' E. specialize (Hm σ). rewrite E in Hm. subst.
  split; [done|]. intros c cb Hcb. by exists cb.
Qed.

Lemma observes_with_weak f : observes (modify (with_weak f)).
Proof.
  intros σ [] σ'. unfold modify. intros [= <-]. split; [done|].
  intros c cb Hcb. by exists cb.
Qed.
Lemma observes_set_weak x h : observes (set_weak x h).
Proof.
  intros σ [] σ'. unfold set_weak. destruct (weak σ !! x); [|done]. intros [= <-].
  split; [done|]. intros c cb Hcb. by exists cb.
Qed.
Lemma observes_delete_Counter c : observes (delete_Counter c).
Proof.
  intros σ [] σ'. unfold delete_Counter. destruct (heap σ !! c); [|done]. intros [= <-].
  split; [done|]. simpl. intros c' cb. rewrite lookup_delete_Some. intros [_ Hcb].
  by exists cb.
Qed.
Lemma observes_weak_store c n :
  observes (cb ← load c; store c (mkCounter (strong_count cb) (n cb));; mret (n cb)).
Proof.
  intros σ a σ'. rewrite run_bind. unfold load.
  destruct (heap σ !! c) as [cb|] eqn:Hcb; [|done].
  rewrite run_bind. unfold store. rewrite Hcb. rewrite run_ret. intros [= _ <-].
  split; [done|]. simpl. intros c' cb'. rewrite lookup_insert.
  case_decide as E; [|by exists cb'].
  intros [= <-]. subst c'. by exists cb.
Qed.
Lemma observes_incr_weak c : observes (incr_weak c).
Proof. apply (observes_weak_store c (λ cb, wrap (weak_count cb + 1))). Qed.
Lemma observes_decr_weak c : observes (decr_weak c).
Proof. apply (observes_weak_store c (λ cb, wrap (weak_count cb - 1))). Qed.
Lemma observes_stuck {A} : observes (λ _, Stuck : result A).
Proof. by intros σ a σ'. Qed.

Create HintDb observes.
#[local] Hint Resolve observes_ret observes_with_weak observes_set_weak observes_delete_Counter
  observes_incr_weak observes_decr_weak observes_stuck : observes.
#[local] Hint Extern 1 (observes (this_shared _)) => apply observes_reads, reads_this_shared : observes.
#[local] Hint Extern 1 (observes (this_weak _)) => apply observes_reads, reads_this_weak : observes.
#[local] Hint Extern 1 (observes (unused_weak _)) => apply observes_reads, reads_unused_weak : observes.
#[local] Hint Extern 1 (observes (load _)) => apply observes_reads, reads_load : observes.

Ltac observes_step :=
  cbv beta;
  first
    [ solve [auto with observes]
    | match goal with |- observes (if ?b then _ else _) => destruct b end
    | apply observes_bind; [|intros ?] ].
Ltac observes_go :=
  unfold skip, init_weak, end_weak; repeat observes_step.

Lemma observes_WeakPtr_Release x : observes (WeakPtr_Release x).
Proof. unfold WeakPtr_Release. observes_go. Qed.
#[local] Hint Resolve observes_WeakPtr_Release : observes.

(** X16: in any state whatever, no member of [WeakPtr] other than [Lock]
    writes to a [SharedPtr] or changes the strong count of a control block
    that is still there afterwards.  In a well-formed state, as every state a
    program reaches is, [UseCount()] of every live [SharedPtr] returns a
    number before the call and returns the same number after it. *)
Theorem WeakPtr_members_keep_use_count o σ σ' :
  weak_member o = true → exec o σ = Ret () σ' →
  shared σ' = shared σ ∧
  (∀ c cb', heap σ' !! c = Some cb' →
     ∃ cb, heap σ !! c = Some cb ∧ strong_count cb' = strong_count cb) ∧
  (wf σ → fits σ →
   ∀ x, is_Some (shared σ !! x) →
     ∃ n, SharedPtr_UseCount x σ = Ret n σ ∧ SharedPtr_UseCount x σ' = Ret n σ').
Proof.
  intros Hweak Hex.
  assert (observes (exec o)) as Hobs.
  { destruct o; try discriminate Hweak; simpl;
      unfold WeakPtr_ctor, WeakPtr_ctor_copy, WeakPtr_ctor_move, WeakPtr_ctor_shared,
        WeakPtr_assign_shared, WeakPtr_assign_copy, WeakPtr_assign_move, WeakPtr_dtor,
        WeakPtr_Reset, WeakPtr_Swap; observes_go. }
  destruct (Hobs σ () σ' Hex) as [Hs Hh]. split_and!; try done.
  intros Hwf Hfit x [h Hx].
  pose proof (exec_wf σ σ' Hwf Hfit o Hex) as Hwf'.
  assert (shared σ' !! x = Some h) as Hx' by (by rewrite Hs).
  destruct (decide (counter_ h = nullptr)) as [Hc|Hc].
  - exists 0. split; by eapply run_SharedPtr_UseCount_null.
  - destruct (wf_shared_alloc _ Hwf' _ _ Hx' Hc) as [cb' Hcb'].
    destruct (Hh _ _ Hcb') as (cb & Hcb & E).
    exists (strong_count cb). split.
    + by eapply run_SharedPtr_UseCount.
    + rewrite <- E. by eapply run_SharedPtr_UseCount.
Qed.

Lemma WeakPtr_members_keep_use_count_witness :
  ∃ σ', exec (WDtor "w") st_abw = Ret () σ' ∧
        SharedPtr_UseCount "a" st_abw = Ret 2 st_abw ∧
        SharedPtr_UseCount "a" σ' = Ret 2 σ'.
Proof.
  eexists. split; [by vm_compute|].
  destruct (proj2 (proj2 (WeakPtr_members_keep_use_count (WDtor "w") st_abw _ eq_refl
                            ltac:(by vm_compute)))
              (reachable_wf _ reachable_st_abw) fits_st_abw "a" ltac:(by eexists))
    as (n & Hb & Ha).
  assert (n = 2) as -> by (revert Hb; vm_compute; congruence).
  done.
Defined.
